(** * Hotkeys: a model of the dispatch core

    The registration multiplexer ([HotkeyManager], file [manager.ts]) is
    embedded from its source.  Its collaborators whose source files are not
    part of the tree ([parse.ts], [match.ts], [sequence.ts]) are modelled from
    the specification and marked as such.  Strings are byte strings; the
    JavaScript objects that the manager shares by reference (its [Set]s of
    registration ids) live in an explicit heap.  The React hook
    ([useHotkey.ts]) and the recorder of key combinations ([recorder.ts]) are
    embedded from their sources after the manager. *)

From Stdlib Require Import Ascii String.
From stdpp Require Import base numbers option list gmap strings pretty.

Open Scope string_scope.
Open Scope list_scope.

(** ** JavaScript values the code relies on *)

Module Js.

(** Case folding of the letters A to Z, every other byte being kept.  This
    is not [String.prototype.toLowerCase], which folds every cased letter of
    Unicode: the two agree on strings of ASCII characters.  The parser and
    the matcher modelled below fold the names of the specification with it;
    the call of [toLowerCase] that the manager makes is a function of the
    environment ([env_toLowerCase]). *)
Definition lowerAscii (c : ascii) : ascii :=
  let n := nat_of_ascii c in
  if (65 <=? n)%nat && (n <=? 90)%nat then ascii_of_nat (n + 32) else c.

Fixpoint asciiLowerCase (s : string) : string :=
  match s with
  | EmptyString => EmptyString
  | String c s' => String (lowerAscii c) (asciiLowerCase s')
  end.

(** Case folding of the letters a to z, likewise. *)
Definition upperAscii (c : ascii) : ascii :=
  let n := nat_of_ascii c in
  if (97 <=? n)%nat && (n <=? 122)%nat then ascii_of_nat (n - 32) else c.

Fixpoint asciiUpperCase (s : string) : string :=
  match s with
  | EmptyString => EmptyString
  | String c s' => String (upperAscii c) (asciiUpperCase s')
  end.

(** [s.split(sep)] for a one-character separator: never the empty list. *)
Fixpoint split (sep : ascii) (s : string) : list string :=
  match s with
  | EmptyString => [EmptyString]
  | String c s' =>
      if Ascii.eqb c sep then EmptyString :: split sep s'
      else match split sep s' with
           | t :: ts => String c t :: ts
           | [] => [String c EmptyString]
           end
  end.

(** [parts.join(sep)]. *)
Fixpoint join (sep : string) (parts : list string) : string :=
  match parts with
  | [] => EmptyString
  | [p] => p
  | p :: ps => p +:+ sep +:+ join sep ps
  end.

(** [s.trim() === ''] for the space character. *)
Fixpoint isBlank (s : string) : bool :=
  match s with
  | EmptyString => true
  | String c s' => Ascii.eqb c " "%char && isBlank s'
  end.

(** A [Set<string>] as ECMAScript specifies it: the list of entries in
    insertion order, where [delete] leaves an empty slot behind so that a
    running iterator keeps its position. *)
Abbreviation JsSet := (list (option string)).

Definition has (v : string) (s : JsSet) : bool := bool_decide (Some v ∈ s).

Definition add (v : string) (s : JsSet) : JsSet :=
  if has v s then s else s ++ [Some v].

Definition delete (v : string) (s : JsSet) : JsSet :=
  (λ e, if decide (e = Some v) then None else e) <$> s.

(** The live entries, in insertion order. *)
Definition values (s : JsSet) : list string := omap (λ e, e) s.

Definition size (s : JsSet) : nat := length (values s).

End Js.

(** ** The page: event targets and keyboard events *)

Module Dom.

(** The objects an event can name as its origin or as the place its listener
    is attached to.  [Node n] is a node of the document tree, [Opaque n] any
    other object (among them the placeholder the manager makes up when there
    is no document). *)
Inductive EventTarget :=
  | Document
  | Window
  | Node (n : nat)
  | Opaque (n : nat).

#[global] Instance EventTarget_eq_dec : EqDecision EventTarget.
Proof. solve_decision. Defined.

#[global] Instance EventTarget_countable : Countable EventTarget.
Proof.
  refine (inj_countable'
    (λ t, match t with
          | Document => inl (inl ())
          | Window => inl (inr ())
          | Node n => inr (inl n)
          | Opaque n => inr (inr n)
          end)
    (λ x, match x with
          | inl (inl _) => Document
          | inl (inr _) => Window
          | inr (inl n) => Node n
          | inr (inr n) => Opaque n
          end) _).
  by intros [].
Defined.

(** What [instanceof] tells about a node. *)
Inductive NodeKind :=
  | HTMLInputElement (type : string)
  | HTMLTextAreaElement
  | HTMLSelectElement
  | HTMLElement          (* any other HTML element *)
  | OtherNode.           (* a node that is no HTML element *)

Record NodeInfo := {
  node_kind : NodeKind;
  node_parent : option nat;
  node_contentEditable : string;
}.

Record Page := {
  page_nodes : gmap nat NodeInfo;
  page_documentElement : nat;
}.

Definition kindOf (pg : Page) (n : nat) : NodeKind :=
  from_option node_kind OtherNode (page_nodes pg !! n).

Definition isHTMLElement (pg : Page) (n : nat) : bool :=
  match kindOf pg n with
  | OtherNode => false
  | _ => true
  end.

Definition contentEditableOf (pg : Page) (n : nat) : string :=
  from_option node_contentEditable "inherit" (page_nodes pg !! n).

(** [a.contains(b)]: [b] is [a] or a descendant of [a]. *)
Fixpoint containsWithin (pg : Page) (depth : nat) (a b : nat) : bool :=
  if decide (a = b) then true
  else match depth with
       | 0 => false
       | S d =>
           match page_nodes pg !! b ≫= node_parent with
           | Some p => containsWithin pg d a p
           | None => false
           end
       end.

Definition contains (pg : Page) (a b : nat) : bool :=
  containsWithin pg (size (page_nodes pg)) a b.

Inductive EventType := keydown | keyup.

#[global] Instance EventType_eq_dec : EqDecision EventType.
Proof. solve_decision. Defined.

Record KeyboardEvent := {
  ev_key : string;
  ev_ctrlKey : bool;
  ev_shiftKey : bool;
  ev_altKey : bool;
  ev_metaKey : bool;
  ev_target : option EventTarget;          (* true origin; [None] is null *)
  ev_currentTarget : option EventTarget;   (* where the listener is attached *)
}.

End Dom.

(** ** Hotkey descriptors and their canonical form *)

Module Hotkey.

Inductive Platform := mac | windows | linux.

#[global] Instance Platform_eq_dec : EqDecision Platform.
Proof. solve_decision. Defined.

(** The canonical parsed hotkey, [ParsedHotkey] of [types.ts]. *)
Record ParsedHotkey := {
  ph_key : string;
  ph_ctrl : bool;
  ph_shift : bool;
  ph_alt : bool;
  ph_meta : bool;
}.

#[global] Instance ParsedHotkey_eq_dec : EqDecision ParsedHotkey.
Proof. solve_decision. Defined.

(** The structured descriptor [{ key, ctrl?, shift?, alt?, meta?, mod? }];
    an absent flag reads as [false]. *)
Record RawHotkey := {
  raw_key : string;
  raw_ctrl : bool;
  raw_shift : bool;
  raw_alt : bool;
  raw_meta : bool;
  raw_mod : bool;
}.

(** A descriptor is a delimiter-joined string or a structured object. *)
Inductive Hotkey :=
  | HotkeyString (s : string)
  | HotkeyRaw (r : RawHotkey).

#[global] Instance RawHotkey_eq_dec : EqDecision RawHotkey.
Proof. solve_decision. Defined.

#[global] Instance Hotkey_eq_dec : EqDecision Hotkey.
Proof. solve_decision. Defined.

(** [formatParsedHotkey] of [useHotkey.ts]: the modifiers that are set, in
    the order Control, Alt, Shift, Meta, then the key, joined by [+]. *)
Definition formatParsedHotkey (parsed : ParsedHotkey) : string :=
  let parts : list string := [] in
  let parts := if ph_ctrl parsed then parts ++ ["Control"] else parts in
  let parts := if ph_alt parsed then parts ++ ["Alt"] else parts in
  let parts := if ph_shift parsed then parts ++ ["Shift"] else parts in
  let parts := if ph_meta parsed then parts ++ ["Meta"] else parts in
  let parts := parts ++ [ph_key parsed] in
  Js.join "+" parts.

Inductive Modifier := Control | Shift | Alt | Meta | Mod.

#[global] Instance Modifier_eq_dec : EqDecision Modifier.
Proof. solve_decision. Defined.

(** Modelled from the spec: the modifier-name table of the missing
    [parse.ts].  Names are compared without regard to case; Option is Alt;
    Cmd, Command and Windows are Meta; Mod is resolved later. *)
Definition modifierOf (token : string) : option Modifier :=
  let t := Js.asciiLowerCase token in
  if bool_decide (t = "control") then Some Control
  else if bool_decide (t = "shift") then Some Shift
  else if bool_decide (t ∈ ["alt"; "option"]) then Some Alt
  else if bool_decide (t ∈ ["meta"; "cmd"; "command"; "windows"]) then Some Meta
  else if bool_decide (t = "mod") then Some Mod
  else None.

(** Modelled from the spec: how the missing [parse.ts] resolves the abstract
    Mod modifier, to Meta on the mac family and to Control elsewhere. *)
Definition resolveModifier (m : Modifier) (p : Platform) : Modifier :=
  match m with
  | Mod => if decide (p = mac) then Meta else Control
  | _ => m
  end.

(** Modelled from the spec: key canonicalisation of the missing [parse.ts],
    with the aliases the spec names (Esc, Del, Return) and case folding of
    one-letter keys to upper case ([Mod+S] has key [S], pressed as [s]). *)
Definition normalizeKeyName (k : string) : string :=
  let l := Js.asciiLowerCase k in
  if bool_decide (l = "esc") then "Escape"
  else if bool_decide (l = "del") then "Delete"
  else if bool_decide (l = "return") then "Enter"
  else if bool_decide (String.length k = 1) then Js.asciiUpperCase k
  else k.

Definition isKeyToken (token : string) : bool :=
  bool_decide (modifierOf token = None).

Definition hasModifier (m : Modifier) (p : Platform) (tokens : list string) : bool :=
  bool_decide (m ∈ (λ x, resolveModifier x p) <$> omap modifierOf tokens).

(** Modelled from the spec: [parseHotkey] of the missing [parse.ts].  A string
    is split on [+]; its last token that is no modifier name is the primary
    key and every other token has to be a modifier name.  A structured object
    maps its flags directly, [mod] resolving like the Mod token.  [None] is
    the ParseError: empty or blank descriptor, unknown modifier token, or no
    primary key segment. *)
Definition parseHotkey (hotkey : Hotkey) (p : Platform) : option ParsedHotkey :=
  match hotkey with
  | HotkeyString s =>
      if Js.isBlank s then None
      else
        let tokens := Js.split "+" s in
        match filter (λ t, isKeyToken t = true) tokens with
        | [k] =>
            if Js.isBlank k then None
            else Some {| ph_key := normalizeKeyName k;
                         ph_ctrl := hasModifier Control p tokens;
                         ph_shift := hasModifier Shift p tokens;
                         ph_alt := hasModifier Alt p tokens;
                         ph_meta := hasModifier Meta p tokens |}
        | _ => None
        end
  | HotkeyRaw r =>
      if Js.isBlank (raw_key r) then None
      else Some {| ph_key := normalizeKeyName (raw_key r);
                   ph_ctrl := raw_ctrl r || (raw_mod r && bool_decide (p ≠ mac));
                   ph_shift := raw_shift r;
                   ph_alt := raw_alt r;
                   ph_meta := raw_meta r || (raw_mod r && bool_decide (p = mac)) |}
  end.

(** Modelled from the spec: [matchesKeyboardEvent] of the missing [match.ts].
    The event's key, canonicalised as in the parser, is compared with the
    hotkey's key without regard to case, and each of the four modifier flags
    has to agree exactly. *)
Definition matchesKeyboardEvent
    (event : Dom.KeyboardEvent) (parsed : ParsedHotkey) (p : Platform) : bool :=
  bool_decide (Js.asciiLowerCase (normalizeKeyName (Dom.ev_key event))
               = Js.asciiLowerCase (ph_key parsed))
  && bool_decide (Dom.ev_ctrlKey event = ph_ctrl parsed)
  && bool_decide (Dom.ev_shiftKey event = ph_shift parsed)
  && bool_decide (Dom.ev_altKey event = ph_alt parsed)
  && bool_decide (Dom.ev_metaKey event = ph_meta parsed).

End Hotkey.

(** ** The registration multiplexer, [manager.ts] *)

Module Manager.
Import Dom.

(** A callback is a function value; the manager only stores and calls it.
    What a callback does to the manager when called (it may register and
    unregister hotkeys) is given by the environment, per function value. *)
Definition CallbackRef := nat.

Inductive ConflictBehavior := warn | error | replace | allow.

(** The [options] argument of [register]; [None] is an absent field.  (A
    field that is present with the value [undefined] is not told apart from
    an absent one; the spread of [register] would copy it over the
    default.) *)
Record HotkeyOptions := {
  opt_preventDefault : option bool;
  opt_stopPropagation : option bool;
  opt_eventType : option EventType;
  opt_requireReset : option bool;
  opt_enabled : option bool;
  opt_ignoreInputs : option bool;
  opt_platform : option Hotkey.Platform;
  opt_target : option EventTarget;
  opt_conflictBehavior : option ConflictBehavior;
}.

(** [registration.options]: the defaults overridden by the fields given. *)
Record RegistrationOptions := {
  preventDefault : bool;
  stopPropagation : bool;
  eventType : EventType;
  requireReset : bool;
  enabled : bool;
  ignoreInputs : bool;
  platform : Hotkey.Platform;
  conflictBehavior : option ConflictBehavior;
}.

Record HotkeyRegistration := {
  reg_id : string;
  reg_hotkey : Hotkey.Hotkey;
  reg_parsedHotkey : Hotkey.ParsedHotkey;
  reg_callback : CallbackRef;
  reg_options : RegistrationOptions;
  reg_hasFired : bool;
  reg_target : EventTarget;
}.

(** The fields of a [HotkeyManager] instance.  Each scope's [Set] of ids and
    each pair of handlers is an object of its own, named by its address. *)
Record HotkeyManager := {
  registrations : gmap string HotkeyRegistration;
  mgr_platform : Hotkey.Platform;
  targetListeners : gmap EventTarget nat;
  targetRegistrations : gmap EventTarget nat;
}.

(** What the module and the page hold outside any manager instance: the
    module-level id counter (with the history of the ids it produced, kept
    for stating properties only), the heap of [Set] objects, the allocation
    counter and the handler pairs currently attached to event targets. *)
Record World := {
  registrationIdCounter : N;
  issued : list string;          (* history: the ids handed out so far *)
  heap : gmap nat Js.JsSet;
  nextObject : nat;
  attached : list (EventTarget * nat);
}.

Record State := {
  world : World;
  this : HotkeyManager;
}.

(** What a callback may do to the manager while it runs. *)
Inductive Action :=
  | Register (hotkey : Hotkey.Hotkey) (callback : CallbackRef) (options : HotkeyOptions)
  | Unregister (id : string).

(** The collaborators of the manager: the parser and the matcher it imports,
    [String.prototype.toLowerCase] as the runtime implements it for all of
    Unicode, the platform detected for the process, whether a document
    exists, the document tree, and the behaviour of the callbacks. *)
Record Env := {
  env_parseHotkey : Hotkey.Hotkey → Hotkey.Platform → option Hotkey.ParsedHotkey;
  env_matchesKeyboardEvent : KeyboardEvent → Hotkey.ParsedHotkey → Hotkey.Platform → bool;
  env_toLowerCase : string → string;
  env_detectPlatform : Hotkey.Platform;
  env_documentDefined : bool;
  env_page : Page;
  env_callbackBody : CallbackRef → list Action;
}.

Inductive Error := ParseError.

Inductive Completion (A : Type) :=
  | Normal (a : A)
  | Throw (e : Error).
Arguments Normal {A} a.
Arguments Throw {A} e.

(** What can be observed of one dispatch pass, in order. *)
Inductive Effect :=
  | Iterated (id : string)            (* the loop body starts for this id *)
  | MatcherConsulted (id : string)
  | DefaultPrevented
  | PropagationStopped
  | Called (id : string) (callback : CallbackRef).

Inductive Outcome := Returned | Thrown (e : Error) | OutOfFuel.

Definition setWorld (f : World → World) (s : State) : State :=
  {| world := f (world s); this := this s |}.

Definition setThis (f : HotkeyManager → HotkeyManager) (s : State) : State :=
  {| world := world s; this := f (this s) |}.

Definition setRegistrations
    (f : gmap string HotkeyRegistration → gmap string HotkeyRegistration)
    (m : HotkeyManager) : HotkeyManager :=
  {| registrations := f (registrations m);
     mgr_platform := mgr_platform m;
     targetListeners := targetListeners m;
     targetRegistrations := targetRegistrations m |}.

Definition setTargetListeners
    (f : gmap EventTarget nat → gmap EventTarget nat) (m : HotkeyManager) : HotkeyManager :=
  {| registrations := registrations m;
     mgr_platform := mgr_platform m;
     targetListeners := f (targetListeners m);
     targetRegistrations := targetRegistrations m |}.

Definition setTargetRegistrations
    (f : gmap EventTarget nat → gmap EventTarget nat) (m : HotkeyManager) : HotkeyManager :=
  {| registrations := registrations m;
     mgr_platform := mgr_platform m;
     targetListeners := targetListeners m;
     targetRegistrations := f (targetRegistrations m) |}.

Definition setHeap (f : gmap nat Js.JsSet → gmap nat Js.JsSet) (w : World) : World :=
  {| registrationIdCounter := registrationIdCounter w;
     issued := issued w;
     heap := f (heap w);
     nextObject := nextObject w;
     attached := attached w |}.

Definition setAttached
    (f : list (EventTarget * nat) → list (EventTarget * nat)) (w : World) : World :=
  {| registrationIdCounter := registrationIdCounter w;
     issued := issued w;
     heap := heap w;
     nextObject := nextObject w;
     attached := f (attached w) |}.

(** A fresh object address. *)
Definition allocate (w : World) : nat * World :=
  (nextObject w,
   {| registrationIdCounter := registrationIdCounter w;
      issued := issued w;
      heap := heap w;
      nextObject := S (nextObject w);
      attached := attached w |}).

Definition setHasFired (b : bool) (r : HotkeyRegistration) : HotkeyRegistration :=
  {| reg_id := reg_id r;
     reg_hotkey := reg_hotkey r;
     reg_parsedHotkey := reg_parsedHotkey r;
     reg_callback := reg_callback r;
     reg_options := reg_options r;
     reg_hasFired := b;
     reg_target := reg_target r |}.

(** The [Set] object at an address. *)
Definition setAt (s : State) (ref : nat) : Js.JsSet :=
  default [] (heap (world s) !! ref).

(** [generateId]: pre-increment of the module-level counter. *)
Definition generateId (w : World) : string * World :=
  let c := (registrationIdCounter w + 1)%N in
  ("hotkey_" +:+ pretty c,
   {| registrationIdCounter := c;
      issued := issued w ++ ["hotkey_" +:+ pretty c];
      heap := heap w;
      nextObject := nextObject w;
      attached := attached w |}).

(** The object built from the defaults, [...options] and [platform]. *)
Definition resolveOptions (options : HotkeyOptions) (p : Hotkey.Platform) : RegistrationOptions :=
  {| preventDefault := default false (opt_preventDefault options);
     stopPropagation := default false (opt_stopPropagation options);
     eventType := default keydown (opt_eventType options);
     requireReset := default false (opt_requireReset options);
     enabled := default true (opt_enabled options);
     ignoreInputs := default true (opt_ignoreInputs options);
     platform := p;
     conflictBehavior := opt_conflictBehavior options |}.

Definition getRegistrationCount (s : State) : nat :=
  size (registrations (this s)).

(** [isRegistered], for a descriptor given as a string: the registrations
    are searched for one made with this very text, whatever it parses to. *)
Definition isRegistered (hotkey : string) (s : State) : bool :=
  bool_decide (map_Exists (λ _ registration,
                   reg_hotkey registration = Hotkey.HotkeyString hotkey)
                 (registrations (this s))).

Definition newManager (p : Hotkey.Platform) : HotkeyManager :=
  {| registrations := ∅;
     mgr_platform := p;
     targetListeners := ∅;
     targetRegistrations := ∅ |}.

Definition initialWorld : World :=
  {| registrationIdCounter := 0; issued := []; heap := ∅; nextObject := 0; attached := [] |}.

Section Methods.

Variable env : Env.

(** [ensureListenersForTarget] *)
Definition ensureListenersForTarget (target : EventTarget) (s : State) : State :=
  if negb (env_documentDefined env) then s
  else if bool_decide (is_Some (targetListeners (this s) !! target)) then s
  else
    let '(handlers, w) := allocate (world s) in
    let w := setAttached (λ l, l ++ [(target, handlers)]) w in
    {| world := w; this := setTargetListeners <[target := handlers]> (this s) |}.

(** [removeListenersForTarget] *)
Definition removeListenersForTarget (target : EventTarget) (s : State) : State :=
  if negb (env_documentDefined env) then s
  else match targetListeners (this s) !! target with
       | None => s
       | Some listeners =>
           let w := setAttached (filter (λ l, l ≠ (target, listeners))) (world s) in
           {| world := w;
              this := setTargetRegistrations (base.delete target)
                        (setTargetListeners (base.delete target) (this s)) |}
       end.

(** [register]: the id is drawn before the descriptor is parsed; the value
    returned normally stands for the closure that unregisters this id. *)
Definition register
    (hotkey : Hotkey.Hotkey) (callback : CallbackRef) (options : HotkeyOptions)
    (s : State) : State * Completion string :=
  let '(id, w) := generateId (world s) in
  let s := {| world := w; this := this s |} in
  let platform := default (mgr_platform (this s)) (opt_platform options) in
  match env_parseHotkey env hotkey platform with
  | None => (s, Throw ParseError)
  | Some parsedHotkey =>
      let '(target, s) :=
        match opt_target options with
        | Some t => (t, s)
        | None =>
            if env_documentDefined env then (Document, s)
            else let '(o, w) := allocate (world s) in
                 (Opaque o, {| world := w; this := this s |})
        end in
      let registration :=
        {| reg_id := id;
           reg_hotkey := hotkey;
           reg_parsedHotkey := parsedHotkey;
           reg_callback := callback;
           reg_options := resolveOptions options platform;
           reg_hasFired := false;
           reg_target := target |} in
      let s := setThis (setRegistrations <[id := registration]>) s in
      let s :=
        match targetRegistrations (this s) !! target with
        | Some _ => s
        | None =>
            let '(ref, w) := allocate (world s) in
            {| world := setHeap <[ref := []]> w;
               this := setTargetRegistrations <[target := ref]> (this s) |}
        end in
      let s :=
        match targetRegistrations (this s) !! target with
        | Some ref => setWorld (setHeap <[ref := Js.add id (setAt s ref)]>) s
        | None => s
        end in
      (ensureListenersForTarget target s, Normal id)
  end.

(** [unregister] *)
Definition unregister (id : string) (s : State) : State :=
  match registrations (this s) !! id with
  | None => s
  | Some registration =>
      let target := reg_target registration in
      let s := setThis (setRegistrations (base.delete id)) s in
      match targetRegistrations (this s) !! target with
      | Some ref =>
          let s := setWorld (setHeap <[ref := Js.delete id (setAt s ref)]>) s in
          if bool_decide (Js.size (setAt s ref) = 0) then removeListenersForTarget target s
          else s
      | None => s
      end
  end.

(** [destroy] *)
Definition destroy (s : State) : State :=
  let s := foldr removeListenersForTarget s (map_to_list (targetListeners (this s))).*1 in
  setThis (λ m, newManager (mgr_platform m)) s.

(** [isEventForTarget] *)
Definition isEventForTarget (event : KeyboardEvent) (target : EventTarget) : bool :=
  match target with
  | Document | Window => bool_decide (ev_currentTarget event = Some target)
  | Node n =>
      if isHTMLElement (env_page env) n then
        if bool_decide (ev_currentTarget event = Some target) then true
        else match ev_target event with
             | Some (Node m) => contains (env_page env) n m
             | _ => false
             end
      else false
  | Opaque _ => false
  end.

(** [isInputElement] *)
Definition isInputElement (element : option EventTarget) : bool :=
  match element with
  | Some (Node n) =>
      match kindOf (env_page env) n with
      | HTMLInputElement _ | HTMLTextAreaElement | HTMLSelectElement => true
      | HTMLElement =>
          let contentEditable := contentEditableOf (env_page env) n in
          bool_decide (contentEditable = "true") || bool_decide (contentEditable = "")
      | OtherNode => false
      end
  | _ => false
  end.

(** [shouldResetRegistration] *)
Definition shouldResetRegistration (registration : HotkeyRegistration) (event : KeyboardEvent) : bool :=
  let parsed := reg_parsedHotkey registration in
  let releasedKey := env_toLowerCase env (ev_key event) in
  if bool_decide (releasedKey = env_toLowerCase env (Hotkey.ph_key parsed)) then true
  else if Hotkey.ph_ctrl parsed
          && (bool_decide (releasedKey = "control") || bool_decide (releasedKey = "ctrl")) then true
  else if Hotkey.ph_shift parsed && bool_decide (releasedKey = "shift") then true
  else if Hotkey.ph_alt parsed
          && (bool_decide (releasedKey = "alt") || bool_decide (releasedKey = "option")) then true
  else if Hotkey.ph_meta parsed
          && (bool_decide (releasedKey = "meta") || bool_decide (releasedKey = "command")) then true
  else false.

(** The calls a callback makes, in order; a call that throws ends it. *)
Fixpoint runActions (actions : list Action) (s : State) : State * Completion () :=
  match actions with
  | [] => (s, Normal ())
  | Register hotkey callback options :: rest =>
      match register hotkey callback options s with
      | (s, Normal _) => runActions rest s
      | (s, Throw e) => (s, Throw e)
      end
  | Unregister id :: rest => runActions rest (unregister id s)
  end.

(** [executeHotkeyCallback] *)
Definition executeHotkeyCallback
    (registration : HotkeyRegistration) (event : KeyboardEvent) (s : State)
    : State * list Effect * Completion () :=
  let effects :=
    (if preventDefault (reg_options registration) then [DefaultPrevented] else [])
    ++ (if stopPropagation (reg_options registration) then [PropagationStopped] else [])
    ++ [Called (reg_id registration) (reg_callback registration)] in
  let '(s, c) := runActions (env_callbackBody env (reg_callback registration)) s in
  (s, effects, c).

(** The body of the loop of [processTargetEvent], for one id of the set.
    Every [continue] of the source is a return with the state unchanged. *)
Definition processRegistration
    (event : KeyboardEvent) (target : EventTarget) (type : EventType) (id : string)
    (s : State) : State * list Effect * Completion () :=
  match registrations (this s) !! id with
  | None => (s, [], Normal ())
  | Some registration =>
      if negb (isEventForTarget event target) then (s, [], Normal ())
      else if negb (enabled (reg_options registration)) then (s, [], Normal ())
      else if ignoreInputs (reg_options registration)
              && isInputElement (ev_target event)
              && bool_decide (ev_target event ≠ Some (reg_target registration))
      then (s, [], Normal ())
      else
        let matched :=
          env_matchesKeyboardEvent env event (reg_parsedHotkey registration)
            (platform (reg_options registration)) in
        match type with
        | keydown =>
            if bool_decide (eventType (reg_options registration) ≠ keydown) then (s, [], Normal ())
            else if requireReset (reg_options registration) && reg_hasFired registration
            then (s, [], Normal ())
            else if matched then
              match executeHotkeyCallback registration event s with
              | (s, effects, Normal _) =>
                  let s :=
                    if requireReset (reg_options registration)
                    then setThis (setRegistrations (alter (setHasFired true) id)) s
                    else s in
                  (s, MatcherConsulted id :: effects, Normal ())
              | (s, effects, Throw e) => (s, MatcherConsulted id :: effects, Throw e)
              end
            else (s, [MatcherConsulted id], Normal ())
        | keyup =>
            let '(s, effects, c) :=
              if bool_decide (eventType (reg_options registration) = keyup) then
                if matched then
                  let '(s, effects, c) := executeHotkeyCallback registration event s in
                  (s, MatcherConsulted id :: effects, c)
                else (s, [MatcherConsulted id], Normal ())
              else (s, [], Normal ()) in
            match c with
            | Throw e => (s, effects, Throw e)
            | Normal _ =>
                if requireReset (reg_options registration) && reg_hasFired registration
                   && shouldResetRegistration registration event
                then (setThis (setRegistrations (alter (setHasFired false) id)) s,
                      effects, Normal ())
                else (s, effects, Normal ())
            end
        end
  end.

(** The [for (const id of targetRegs)] loop: the iterator keeps an index into
    the entries of the [Set] object and reads the object anew at every step,
    so entries appended meanwhile are reached and deleted ones are passed
    over.  [fuel] bounds the number of steps taken. *)
Fixpoint iterate
    (fuel : nat) (event : KeyboardEvent) (target : EventTarget) (type : EventType)
    (ref index : nat) (s : State) : State * list Effect * Outcome :=
  match fuel with
  | 0 => (s, [], OutOfFuel)
  | S fuel =>
      match setAt s ref !! index with
      | None => (s, [], Returned)
      | Some None => iterate fuel event target type ref (S index) s
      | Some (Some id) =>
          match processRegistration event target type id s with
          | (s, effects, Normal _) =>
              let '(s, rest, o) := iterate fuel event target type ref (S index) s in
              (s, Iterated id :: effects ++ rest, o)
          | (s, effects, Throw e) => (s, Iterated id :: effects, Thrown e)
          end
      end
  end.

(** [processTargetEvent] *)
Definition processTargetEvent
    (fuel : nat) (event : KeyboardEvent) (target : EventTarget) (type : EventType)
    (s : State) : State * list Effect * Outcome :=
  match targetRegistrations (this s) !! target with
  | None => (s, [], Returned)
  | Some targetRegs => iterate fuel event target type targetRegs 0 s
  end.

(** Press events dispatched one after the other, each to the listener of a
    scope; a pass that throws or runs out of fuel does not stop the next. *)
Fixpoint pressAll (passes : list (nat * KeyboardEvent * EventTarget)) (s : State)
    : State * list Effect :=
  match passes with
  | [] => (s, [])
  | (fuel, event, target) :: rest =>
      let '(s, effects, _) := processTargetEvent fuel event target keydown s in
      let '(s, more) := pressAll rest s in
      (s, effects ++ more)
  end.

(** *** The singleton and the calls a client makes *)

(** The module as a whole: the world and the static [instance] field. *)
Record Process := {
  proc_world : World;
  proc_instance : option HotkeyManager;
}.

Definition initialProcess : Process :=
  {| proc_world := initialWorld; proc_instance := None |}.

(** [HotkeyManager.getInstance] *)
Definition getInstance (p : Process) : State :=
  match proc_instance p with
  | Some m => {| world := proc_world p; this := m |}
  | None => {| world := proc_world p; this := newManager (env_detectPlatform env) |}
  end.

Definition toProcess (s : State) : Process :=
  {| proc_world := world s; proc_instance := Some (this s) |}.

(** [HotkeyManager.resetInstance] *)
Definition resetInstance (p : Process) : Process :=
  match proc_instance p with
  | Some m =>
      let s := destroy {| world := proc_world p; this := m |} in
      {| proc_world := world s; proc_instance := None |}
  | None => p
  end.

(** What client code and the page do with the module, client code taking
    the manager from [getInstance] for every call it makes.  (A manager kept
    from before a [resetInstance] and used after it is not among these
    calls.) *)
Inductive Call :=
  | CallRegister (hotkey : Hotkey.Hotkey) (callback : CallbackRef) (options : HotkeyOptions)
  | CallUnregister (id : string)
  | CallDestroy
  | CallResetInstance
  | CallDispatch (fuel : nat) (event : KeyboardEvent) (target : EventTarget) (type : EventType).

(** A method reached through a closure or a handler that an instance handed
    out: it runs on the live instance, and finds nothing to do once that
    instance has been destroyed and dropped. *)
Definition onInstance (f : State → State) (p : Process) : Process :=
  match proc_instance p with
  | Some m => toProcess (f {| world := proc_world p; this := m |})
  | None => p
  end.

Definition call (c : Call) (p : Process) : Process :=
  match c with
  | CallRegister hotkey callback options =>
      toProcess (register hotkey callback options (getInstance p)).1
  | CallUnregister id => onInstance (unregister id) p
  | CallDestroy => toProcess (destroy (getInstance p))
  | CallResetInstance => resetInstance p
  | CallDispatch fuel event target type =>
      onInstance (λ s, (processTargetEvent fuel event target type s).1.1) p
  end.

Definition calls (cs : list Call) (p : Process) : Process :=
  foldl (λ p c, call c p) p cs.

(** The two operations that change the set of registrations of one manager. *)
Inductive Op :=
  | OpRegister (hotkey : Hotkey.Hotkey) (callback : CallbackRef) (options : HotkeyOptions)
  | OpUnregister (id : string).

Definition op (o : Op) (s : State) : State :=
  match o with
  | OpRegister hotkey callback options => (register hotkey callback options s).1
  | OpUnregister id => unregister id s
  end.

Definition ops (os : list Op) (s : State) : State :=
  foldl (λ s o, op o s) s os.

Definition initialState : State :=
  {| world := initialWorld; this := newManager (env_detectPlatform env) |}.

(** The ids of the registrations bound to a scope, in insertion order. *)
Definition registrationSet (s : State) (target : EventTarget) : list string :=
  match targetRegistrations (this s) !! target with
  | Some ref => Js.values (setAt s ref)
  | None => []
  end.

(** A scope has a press and a release listener of the manager attached. *)
Definition listenersAttached (s : State) (target : EventTarget) : Prop :=
  ∃ handlers, (target, handlers) ∈ attached (world s).

End Methods.

End Manager.

(** ** The sequence engine *)

Module Sequence.

Record SequenceRegistration := {
  seq_id : nat;
  orderedKeys : list string;
  seq_callback : nat;
  timeoutMillis : option nat;
  progressIndex : nat;
  pendingTimeout : option nat;     (* the time at which the pending timer fires *)
}.

Definition withProgress (i : nat) (t : option nat) (r : SequenceRegistration)
    : SequenceRegistration :=
  {| seq_id := seq_id r;
     orderedKeys := orderedKeys r;
     seq_callback := seq_callback r;
     timeoutMillis := timeoutMillis r;
     progressIndex := i;
     pendingTimeout := t |}.

(** Modelled from the spec: the timer of the missing [sequence.ts].  A timer
    that has run out by the time of an event resets the progress silently. *)
Definition elapse (now : nat) (r : SequenceRegistration) : SequenceRegistration :=
  match pendingTimeout r with
  | Some deadline => if bool_decide (deadline ≤ now)%nat then withProgress 0 None r else r
  | None => r
  end.

Definition startTimeout (now : nat) (r : SequenceRegistration) : option nat :=
  (λ t, (now + t)%nat) <$> timeoutMillis r.

Definition keyMatches (key : string) (expected : option string) : bool :=
  bool_decide (Some (Hotkey.normalizeKeyName key) = expected).

(** Modelled from the spec: the per-registration step of the missing
    [sequence.ts] on a press event whose timers have been settled.  The
    result tells whether the callback was invoked. *)
Definition advance (now : nat) (key : string) (r : SequenceRegistration)
    : SequenceRegistration * bool :=
  if keyMatches key (orderedKeys r !! progressIndex r) then
    if bool_decide (S (progressIndex r) = length (orderedKeys r))
    then (withProgress 0 None r, true)
    else (withProgress (S (progressIndex r)) (startTimeout now r) r, false)
  else if keyMatches key (orderedKeys r !! 0) then
    (withProgress 1 (startTimeout now r) r, false)
  else (withProgress 0 None r, false).

(** Modelled from the spec: a press event at time [now], as the missing
    [sequence.ts] handles it for one registration. *)
Definition press (now : nat) (key : string) (r : SequenceRegistration)
    : SequenceRegistration * bool :=
  advance now key (elapse now r).

(** Modelled from the spec: [register] of the missing [sequence.ts]; an empty
    sequence is refused. *)
Definition register (id : nat) (keys : list string) (callback : nat) (timeout : option nat)
    : option SequenceRegistration :=
  match keys with
  | [] => None
  | _ => Some {| seq_id := id; orderedKeys := keys; seq_callback := callback;
                 timeoutMillis := timeout; progressIndex := 0; pendingTimeout := None |}
  end.

(** The registration after a history of timed press events, oldest first. *)
Definition presses (history : list (nat * string)) (r : SequenceRegistration)
    : SequenceRegistration :=
  foldl (λ r e, (press e.1 e.2 r).1) r history.

End Sequence.

(** ** The claims of the specification, in its own words *)

Module Spec.
Import Dom.

(** The input types into which text is typed. *)
Definition textEntryTypes : list string :=
  ["text"; "search"; "url"; "tel"; "email"; "password"; "number"].

(** Content editing is enabled for an element whose [contentEditable] reads
    [true] or [plaintext-only] (or is the empty string, which the attribute
    takes for [true]), and for an element that inherits it from the nearest
    ancestor that says one or the other. *)
Fixpoint contentEditingWithin (pg : Page) (depth : nat) (n : nat) : bool :=
  let state := contentEditableOf pg n in
  if bool_decide (state ∈ ["true"; ""; "plaintext-only"]) then true
  else if bool_decide (state = "inherit") then
    match depth, page_nodes pg !! n ≫= node_parent with
    | S d, Some p => contentEditingWithin pg d p
    | _, _ => false
    end
  else false.

Definition contentEditing (pg : Page) (n : nat) : bool :=
  contentEditingWithin pg (size (page_nodes pg)) n.

(** An editable control: a text-entry input variant, a text area, a select,
    or any element with content editing enabled. *)
Inductive editableControl (pg : Page) : EventTarget → Prop :=
  | editable_input n type :
      kindOf pg n = HTMLInputElement type → type ∈ textEntryTypes →
      editableControl pg (Node n)
  | editable_textarea n :
      kindOf pg n = HTMLTextAreaElement → editableControl pg (Node n)
  | editable_select n :
      kindOf pg n = HTMLSelectElement → editableControl pg (Node n)
  | editable_content n :
      isHTMLElement pg n = true → contentEditing pg n = true →
      editableControl pg (Node n).




(** The target-satisfaction rule: the attachment point of the listener equals
    the scope, where the root element of the document stands in for the
    document; or the scope is an element and the origin lies within it. *)
Definition satisfiesScope (pg : Page) (event : KeyboardEvent) (scope : EventTarget) : Prop :=
  ev_currentTarget event = Some scope
  ∨ (scope = Document ∧ ev_currentTarget event = Some (Node (page_documentElement pg)))
  ∨ ∃ n m, scope = Node n ∧ isHTMLElement pg n = true
           ∧ ev_target event = Some (Node m) ∧ contains pg n m = true.

(** The ids for which the body of the dispatch loop ran, in order. *)
Definition visited (effects : list Manager.Effect) : list string :=
  omap (λ e, match e with Manager.Iterated id => Some id | _ => None end) effects.

(** The callbacks that were invoked, in order. *)
Definition fired (effects : list Manager.Effect) : list Manager.CallbackRef :=
  omap (λ e, match e with Manager.Called _ cb => Some cb | _ => None end) effects.

End Spec.

(** ** The React hook, [useHotkey.ts]

    The body of the hook and of its effect are embedded from the source.
    What React does with them is its documented protocol for [useRef] and
    [useEffect]: a ref keeps its object over the renders of a component; an
    effect runs after the first render and after every render whose
    dependency array differs from the one of the previous run, the cleanup
    that the previous run returned being called first; the last cleanup is
    called when the component unmounts. *)

Module UseHotkey.
Import Dom Manager.

(** The [hotkey] argument: a descriptor string, or a parsed hotkey object
    with the text that [JSON.stringify] makes of it. *)
Inductive HotkeyArgument :=
  | Text (hotkey : string)
  | Parsed (parsed : Hotkey.ParsedHotkey) (json : string).

(** The [target] option: absent, [null], a React ref object (with what its
    [current] holds when the effect reads it; [None] is [null]) or any other
    object. *)
Inductive TargetOption :=
  | TargetUndefined
  | TargetNull
  | TargetRef (object : nat) (current : option EventTarget)
  | TargetObject (t : EventTarget).

(** [UseHotkeyOptions]; [None] is an absent field. *)
Record UseHotkeyOptions := {
  use_enabled : option bool;
  use_preventDefault : option bool;
  use_stopPropagation : option bool;
  use_platform : option Hotkey.Platform;
  use_eventType : option EventType;
  use_requireReset : option bool;
  use_ignoreInputs : option bool;
  use_target : TargetOption;
  use_conflictBehavior : option ConflictBehavior;
}.

(** What [Object.is] sees of a [target] option: a ref object is the same
    dependency whatever its [current] holds. *)
Inductive TargetIdentity :=
  | IsUndefined
  | IsNull
  | IsRef (object : nat)
  | IsObject (t : EventTarget).

Definition identityOf (target : TargetOption) : TargetIdentity :=
  match target with
  | TargetUndefined => IsUndefined
  | TargetNull => IsNull
  | TargetRef object _ => IsRef object
  | TargetObject t => IsObject t
  end.

(** The dependency array of the effect. *)
Record Dependencies := {
  dep_enabled : bool;
  dep_preventDefault : option bool;
  dep_stopPropagation : option bool;
  dep_platform : option Hotkey.Platform;
  dep_eventType : option EventType;
  dep_requireReset : option bool;
  dep_ignoreInputs : option bool;
  dep_hotkeyKey : string;
  dep_target : TargetIdentity;
}.

#[global] Instance TargetIdentity_eq_dec : EqDecision TargetIdentity.
Proof. solve_decision. Defined.

#[global] Instance Dependencies_eq_dec : EqDecision Dependencies.
Proof. solve_decision. Defined.

(** The refs of one use of the hook, and what React keeps for its effect:
    the dependency array of the last run and the cleanup it returned (the
    closure that unregisters this id). *)
Record Hook := {
  callbackRef : CallbackRef;
  hotkeyRef : HotkeyArgument;
  targetRef : TargetOption;
  resolvedTargetRef : option EventTarget;
  dependencies : option Dependencies;
  cleanup : option string;
}.

(** One call of the hook: its three arguments. *)
Record Render := {
  r_hotkey : HotkeyArgument;
  r_callback : CallbackRef;
  r_options : UseHotkeyOptions;
}.

Inductive Failure := ParseFailure | ReferenceFailure.

(** How the effect resolves its target.  Where there is no document there
    are no DOM classes either, and naming [HTMLElement] fails. *)
Inductive Resolution :=
  | Resolved (t : EventTarget)
  | Unresolved
  | NotDefined.

(** What a run of the effect gives back to React. *)
Inductive EffectResult :=
  | NoCleanup
  | Cleanup (id : string)
  | EffectThrows (e : Failure).

Definition hotkeyKey (hotkey : HotkeyArgument) : string :=
  match hotkey with
  | Text s => s
  | Parsed _ json => json
  end.

Definition dependenciesOf (r : Render) : Dependencies :=
  {| dep_enabled := default true (use_enabled (r_options r));
     dep_preventDefault := use_preventDefault (r_options r);
     dep_stopPropagation := use_stopPropagation (r_options r);
     dep_platform := use_platform (r_options r);
     dep_eventType := use_eventType (r_options r);
     dep_requireReset := use_requireReset (r_options r);
     dep_ignoreInputs := use_ignoreInputs (r_options r);
     dep_hotkeyKey := hotkeyKey (r_hotkey r);
     dep_target := identityOf (use_target (r_options r)) |}.

Section Hook.

Variable env : Env.

(** The function value registered with the manager: the closure
    [(event, context) => callbackRef.current(event, context)]. *)
Variable wrapper : CallbackRef.

(** The target part of the effect: a ref that holds an HTML element gives
    the element; an HTML element, the document or the window is taken as it
    is; everything else falls back to the document, where there is one. *)
Definition resolveTarget (currentTarget : TargetOption) : Resolution :=
  let fallback := if env_documentDefined env then Resolved Document else Unresolved in
  match currentTarget with
  | TargetUndefined | TargetNull => fallback
  | TargetRef _ current =>
      if negb (env_documentDefined env) then NotDefined
      else match current with
           | Some (Node n) =>
               if isHTMLElement (env_page env) n then Resolved (Node n) else fallback
           | _ => fallback
           end
  | TargetObject t =>
      if negb (env_documentDefined env) then NotDefined
      else match t with
           | Node n => if isHTMLElement (env_page env) n then Resolved t else fallback
           | Document | Window => Resolved t
           | Opaque _ => fallback
           end
  end.

(** [registerOptions]: [enabled] and the resolved target, and of the other
    options those that are defined. *)
Definition registerOptions (options : UseHotkeyOptions) (resolvedTarget : EventTarget)
    : HotkeyOptions :=
  {| opt_preventDefault := use_preventDefault options;
     opt_stopPropagation := use_stopPropagation options;
     opt_eventType := use_eventType options;
     opt_requireReset := use_requireReset options;
     opt_enabled := Some true;
     opt_ignoreInputs := use_ignoreInputs options;
     opt_platform := use_platform options;
     opt_target := Some resolvedTarget;
     opt_conflictBehavior := None |}.

Definition hotkeyString (hotkey : HotkeyArgument) : string :=
  match hotkey with
  | Text s => s
  | Parsed parsed _ => Hotkey.formatParsedHotkey parsed
  end.

Definition setResolvedTargetRef (t : option EventTarget) (h : Hook) : Hook :=
  {| callbackRef := callbackRef h;
     hotkeyRef := hotkeyRef h;
     targetRef := targetRef h;
     resolvedTargetRef := t;
     dependencies := dependencies h;
     cleanup := cleanup h |}.

(** The function passed to [useEffect], as the render with these options
    made it. *)
Definition effect (options : UseHotkeyOptions) (h : Hook) (p : Process)
    : Hook * Process * EffectResult :=
  if negb (default true (use_enabled options)) then (h, p, NoCleanup)
  else
    match resolveTarget (targetRef h) with
    | NotDefined => (h, p, EffectThrows ReferenceFailure)
    | Unresolved => (h, p, NoCleanup)
    | Resolved resolvedTarget =>
        let manager := getInstance env p in
        match register env (Hotkey.HotkeyString (hotkeyString (hotkeyRef h))) wrapper
                (registerOptions options resolvedTarget) manager with
        | (s, Normal id) =>
            (setResolvedTargetRef (Some resolvedTarget) h, toProcess s, Cleanup id)
        | (s, Throw _) => (h, toProcess s, EffectThrows ParseFailure)
        end
    end.

(** The cleanup that React holds for the effect, called. *)
Definition runCleanup (h : Hook) (p : Process) : Process :=
  match cleanup h with
  | Some id => onInstance (unregister env id) p
  | None => p
  end.

(** One render of the component and the commit that follows it: the body of
    the hook sets the refs, and React runs the effect if this is the first
    render or the dependencies have changed. *)
Definition render (r : Render) (previous : option Hook) (p : Process)
    : Hook * Process * option Failure :=
  let h :=
    {| callbackRef := r_callback r;
       hotkeyRef := r_hotkey r;
       targetRef := use_target (r_options r);
       resolvedTargetRef := previous ≫= resolvedTargetRef;
       dependencies := previous ≫= dependencies;
       cleanup := previous ≫= cleanup |} in
  if bool_decide (dependencies h = Some (dependenciesOf r)) then (h, p, None)
  else
    let p := runCleanup h p in
    let '(h, p, result) := effect (r_options r) h p in
    ({| callbackRef := callbackRef h;
        hotkeyRef := hotkeyRef h;
        targetRef := targetRef h;
        resolvedTargetRef := resolvedTargetRef h;
        dependencies := Some (dependenciesOf r);
        cleanup := match result with Cleanup id => Some id | _ => None end |},
     p,
     match result with EffectThrows e => Some e | _ => None end).

(** The renders of a component, one after the other; an effect that throws
    ends them. *)
Fixpoint renders (rs : list Render) (previous : option Hook) (p : Process)
    : option Hook * Process * option Failure :=
  match rs with
  | [] => (previous, p, None)
  | r :: rs =>
      match render r previous p with
      | (h, p, Some e) => (Some h, p, Some e)
      | (h, p, None) => renders rs (Some h) p
      end
  end.

(** The component unmounts. *)
Definition unmount (h : option Hook) (p : Process) : Process :=
  match h with
  | Some h => runCleanup h p
  | None => p
  end.

(** The life of a component that uses the hook: it is mounted, rendered
    again any number of times, and unmounted. *)
Definition lifetime (rs : list Render) (p : Process) : Process :=
  let '(h, p, _) := renders rs None p in
  unmount h p.

End Hook.

End UseHotkey.

(** ** The recorder of key combinations, [recorder.ts]

    The class is embedded from its source.  The functions it imports from
    [parse.ts], whose source is not part of the tree, are parameters of the
    environment, as is what the callbacks do to the recorder when they are
    called.  Subscribers of the store only observe: every [setState] is an
    entry of the trace. *)

Module Recorder.
Import Dom.

Definition CallbackRef := nat.

(** [HotkeyRecorderState]; [None] is [null]. *)
Record HotkeyRecorderState := {
  isRecording : bool;
  recordedHotkey : option string;
}.

(** [HotkeyRecorderOptions]; [None] is an absent callback. *)
Record HotkeyRecorderOptions := {
  onRecord : CallbackRef;
  onCancel : option CallbackRef;
  onClear : option CallbackRef;
}.

(** The argument of [setOptions]: [None] is a field that is not given; an
    optional callback that is given may be [undefined]. *)
Record PartialOptions := {
  part_onRecord : option CallbackRef;
  part_onCancel : option (option CallbackRef);
  part_onClear : option (option CallbackRef);
}.

(** The fields of a recorder; the handler is a closure, named by its
    address. *)
Record HotkeyRecorder := {
  store : HotkeyRecorderState;
  keydownHandler : option nat;
  options : HotkeyRecorderOptions;
  platform : Hotkey.Platform;
}.

(** The capturing keydown listeners on the document, and the next address
    of a function. *)
Record Page := {
  listeners : list nat;
  nextFunction : nat;
}.

Record State := {
  page : Page;
  this : HotkeyRecorder;
}.

(** What a callback may do to the recorder while it runs. *)
Inductive Action :=
  | Start
  | Stop
  | Cancel
  | Destroy
  | SetOptions (o : PartialOptions).

(** The collaborators of the recorder: the four functions of [parse.ts], the
    platform detected, whether a document exists, and the behaviour of the
    callbacks, which may depend on the argument they are called with. *)
Record Env := {
  env_isModifierKey : KeyboardEvent → bool;
  env_keyboardEventToHotkey : KeyboardEvent → string;
  env_convertToModFormat : string → Hotkey.Platform → string;
  env_hasNonModifierKey : string → Hotkey.Platform → bool;
  env_detectPlatform : Hotkey.Platform;
  env_documentDefined : bool;
  env_callbackBody : CallbackRef → option string → list Action;
}.

(** What can be observed of the recorder, in order. *)
Inductive Effect :=
  | StateSet (state : HotkeyRecorderState)
  | DefaultPrevented
  | PropagationStopped
  | Called (callback : CallbackRef) (argument : option string).

Inductive Outcome := Returned | OutOfFuel.

Definition idle : HotkeyRecorderState :=
  {| isRecording := false; recordedHotkey := None |}.

Definition setStore (state : HotkeyRecorderState) (r : HotkeyRecorder) : HotkeyRecorder :=
  {| store := state;
     keydownHandler := keydownHandler r;
     options := options r;
     platform := platform r |}.

Definition setKeydownHandler (handler : option nat) (r : HotkeyRecorder) : HotkeyRecorder :=
  {| store := store r;
     keydownHandler := handler;
     options := options r;
     platform := platform r |}.

Definition setListeners (f : list nat → list nat) (pg : Page) : Page :=
  {| listeners := f (listeners pg); nextFunction := nextFunction pg |}.

(** [this.store.setState(() => state)] *)
Definition setState (state : HotkeyRecorderState) (s : State) : State * list Effect :=
  ({| page := page s; this := setStore state (this s) |}, [StateSet state]).

Section Methods.

Variable env : Env.

(** The constructor. *)
Definition create (o : HotkeyRecorderOptions) : State :=
  {| page := {| listeners := []; nextFunction := 0 |};
     this := {| store := idle;
                keydownHandler := None;
                options := o;
                platform := env_detectPlatform env |} |}.

(** [setOptions]: the fields given override the ones held. *)
Definition setOptions (o : PartialOptions) (s : State) : State :=
  {| page := page s;
     this := {| store := store (this s);
                keydownHandler := keydownHandler (this s);
                options :=
                  {| onRecord := default (onRecord (options (this s))) (part_onRecord o);
                     onCancel := default (onCancel (options (this s))) (part_onCancel o);
                     onClear := default (onClear (options (this s))) (part_onClear o) |};
                platform := platform (this s) |} |}.

(** [#addListener]; the document keeps a listener once. *)
Definition addListener (handler : nat) (s : State) : State :=
  if negb (env_documentDefined env) then s
  else {| page := setListeners (λ l, if bool_decide (handler ∈ l) then l else l ++ [handler])
                    (page s);
          this := this s |}.

(** [#removeListener] *)
Definition removeListener (handler : nat) (s : State) : State :=
  if negb (env_documentDefined env) then s
  else {| page := setListeners (filter (λ h, h ≠ handler)) (page s); this := this s |}.

(** [start]: the handler is a new closure. *)
Definition start (s : State) : State * list Effect :=
  match keydownHandler (this s) with
  | Some _ => (s, [])
  | None =>
      let '(s, effects) := setState {| isRecording := true; recordedHotkey := None |} s in
      let handler := nextFunction (page s) in
      let s := {| page := {| listeners := listeners (page s); nextFunction := S handler |};
                  this := setKeydownHandler (Some handler) (this s) |} in
      (addListener handler s, effects)
  end.

(** [stop] *)
Definition stop (s : State) : State * list Effect :=
  let s :=
    match keydownHandler (this s) with
    | Some handler =>
        let s := removeListener handler s in
        {| page := page s; this := setKeydownHandler None (this s) |}
    | None => s
    end in
  setState idle s.

(** [destroy] *)
Definition destroy (s : State) : State * list Effect :=
  let '(s, effects) := stop s in
  let '(s, more) := setState idle s in
  (s, effects ++ more).

(** The calls a callback makes, in order.  [Cancel] is the method [cancel]
    below: the statements of [stop], then the call of [onCancel] if there is
    one.  [fuel] bounds the number of calls made. *)
Fixpoint runActions (fuel : nat) (actions : list Action) (s : State)
    : State * list Effect * Outcome :=
  match actions with
  | [] => (s, [], Returned)
  | action :: rest =>
      match fuel with
      | 0 => (s, [], OutOfFuel)
      | S fuel =>
          let '(s, effects, outcome) :=
            match action with
            | Start => let '(s, effects) := start s in (s, effects, Returned)
            | Stop => let '(s, effects) := stop s in (s, effects, Returned)
            | Destroy => let '(s, effects) := destroy s in (s, effects, Returned)
            | SetOptions o => (setOptions o s, [], Returned)
            | Cancel =>
                let '(s, effects) := stop s in
                match onCancel (options (this s)) with
                | Some callback =>
                    let '(s, more, outcome) :=
                      runActions fuel (env_callbackBody env callback None) s in
                    (s, effects ++ Called callback None :: more, outcome)
                | None => (s, effects, Returned)
                end
            end in
          match outcome with
          | Returned =>
              let '(s, more, outcome) := runActions fuel rest s in
              (s, effects ++ more, outcome)
          | OutOfFuel => (s, effects, OutOfFuel)
          end
      end
  end.

(** A callback is called with an argument. *)
Definition invoke (fuel : nat) (callback : CallbackRef) (argument : option string)
    (s : State) : State * list Effect * Outcome :=
  let '(s, effects, outcome) := runActions fuel (env_callbackBody env callback argument) s in
  (s, Called callback argument :: effects, outcome).

(** [cancel] *)
Definition cancel (fuel : nat) (s : State) : State * list Effect * Outcome :=
  let '(s, effects) := stop s in
  match onCancel (options (this s)) with
  | Some callback =>
      let '(s, more, outcome) := invoke fuel callback None s in
      (s, effects ++ more, outcome)
  | None => (s, effects, Returned)
  end.

(** The closure that [start] makes, called with an event. *)
Definition handler (fuel : nat) (event : KeyboardEvent) (s : State)
    : State * list Effect * Outcome :=
  match keydownHandler (this s) with
  | None => (s, [], Returned)
  | Some handlerToRemove =>
      let suppressed := [DefaultPrevented; PropagationStopped] in
      if bool_decide (ev_key event = "Escape") then
        let '(s, effects, outcome) := cancel fuel s in
        (s, suppressed ++ effects, outcome)
      else if (bool_decide (ev_key event = "Backspace")
               || bool_decide (ev_key event = "Delete"))
              && negb (ev_ctrlKey event) && negb (ev_shiftKey event)
              && negb (ev_altKey event) && negb (ev_metaKey event) then
        let '(s, cleared, outcome) :=
          match onClear (options (this s)) with
          | Some callback => invoke fuel callback None s
          | None => (s, [], Returned)
          end in
        match outcome with
        | OutOfFuel => (s, suppressed ++ cleared, OutOfFuel)
        | Returned =>
            let '(s, recorded, outcome) :=
              invoke fuel (onRecord (options (this s))) (Some "") s in
            match outcome with
            | OutOfFuel => (s, suppressed ++ cleared ++ recorded, OutOfFuel)
            | Returned =>
                let '(s, stopped) := stop s in
                (s, suppressed ++ cleared ++ recorded ++ stopped, Returned)
            end
        end
      else if env_isModifierKey env event then (s, suppressed, Returned)
      else
        let hotkey := env_keyboardEventToHotkey env event in
        let finalHotkey := env_convertToModFormat env hotkey (platform (this s)) in
        if env_hasNonModifierKey env finalHotkey (platform (this s)) then
          let s := removeListener handlerToRemove s in
          let s := {| page := page s; this := setKeydownHandler None (this s) |} in
          let '(s, set) :=
            setState {| isRecording := false; recordedHotkey := Some finalHotkey |} s in
          let '(s, recorded, outcome) :=
            invoke fuel (onRecord (options (this s))) (Some finalHotkey) s in
          (s, suppressed ++ set ++ recorded, outcome)
        else (s, suppressed, Returned)
  end.

(** The document dispatches a keydown event to the capturing listeners it
    had when the dispatch began, leaving out those removed meanwhile. *)
Fixpoint dispatch (fuel : nat) (event : KeyboardEvent) (handlers : list nat) (s : State)
    : State * list Effect * Outcome :=
  match handlers with
  | [] => (s, [], Returned)
  | h :: rest =>
      if bool_decide (h ∈ listeners (page s)) then
        let '(s, effects, outcome) := handler fuel event s in
        match outcome with
        | Returned =>
            let '(s, more, outcome) := dispatch fuel event rest s in
            (s, effects ++ more, outcome)
        | OutOfFuel => (s, effects, OutOfFuel)
        end
      else dispatch fuel event rest s
  end.

Definition keydown (fuel : nat) (event : KeyboardEvent) (s : State)
    : State * list Effect * Outcome :=
  dispatch fuel event (listeners (page s)) s.

(** What client code and the page do with a recorder. *)
Inductive Call :=
  | CallStart
  | CallStop
  | CallCancel (fuel : nat)
  | CallDestroy
  | CallSetOptions (o : PartialOptions)
  | CallKeydown (fuel : nat) (event : KeyboardEvent).

Definition call (c : Call) (s : State) : State * list Effect * Outcome :=
  match c with
  | CallStart => let '(s, effects) := start s in (s, effects, Returned)
  | CallStop => let '(s, effects) := stop s in (s, effects, Returned)
  | CallCancel fuel => cancel fuel s
  | CallDestroy => let '(s, effects) := destroy s in (s, effects, Returned)
  | CallSetOptions o => (setOptions o s, [], Returned)
  | CallKeydown fuel event => keydown fuel event s
  end.

Definition calls (cs : list Call) (s : State) : State :=
  foldl (λ s c, (call c s).1.1) s cs.

End Methods.

(** The hotkeys that [onRecord] was called with, in order. *)
Definition recordings (effects : list Effect) : list string :=
  omap (λ e, match e with Called _ (Some hotkey) => Some hotkey | _ => None end) effects.

End Recorder.

(** ** Invariants and other properties of states *)

Module Invariant.
Import Dom Manager.

(** The id that [generateId] makes of a counter value. *)
Definition idOf (n : nat) : string := "hotkey_" +:+ pretty (N.of_nat n).

(** The ids handed out are those of the counter values 1, 2, ... up to the
    current value of the counter. *)
Definition counted (w : World) : Prop :=
  issued w = idOf <$> seq 1 (N.to_nat (registrationIdCounter w)).

(** An operation that leaves the counter alone. *)
Definition keepsCounter (w w' : World) : Prop :=
  registrationIdCounter w' = registrationIdCounter w ∧ issued w' = issued w.

(** The character occurs in the string. *)
Fixpoint occurs (c : ascii) (s : string) : bool :=
  match s with
  | EmptyString => false
  | String c' s' => Ascii.eqb c' c || occurs c s'
  end.

(** A key that survives formatting: it holds no [+] and is no modifier name. *)
Definition singleToken (key : string) : Prop :=
  occurs "+" key = false ∧ Hotkey.isKeyToken key = true.

(** The modifier tokens that [formatParsedHotkey] writes. *)
Definition modifierTokens (parsed : Hotkey.ParsedHotkey) : list string :=
  (if Hotkey.ph_ctrl parsed then ["Control"] else [])
  ++ (if Hotkey.ph_alt parsed then ["Alt"] else [])
  ++ (if Hotkey.ph_shift parsed then ["Shift"] else [])
  ++ (if Hotkey.ph_meta parsed then ["Meta"] else []).



(** The listener table, the scope table, the [Set] objects and the handlers
    attached on the page agree with one another. *)
Definition scopesConsistent (s : State) : Prop :=
  (∀ t, is_Some (targetListeners (this s) !! t) ↔ is_Some (targetRegistrations (this s) !! t))
  ∧ (∀ t ref, targetRegistrations (this s) !! t = Some ref →
       (ref < nextObject (world s))%nat ∧ Js.values (setAt s ref) ≠ [])
  ∧ (∀ t t' ref, targetRegistrations (this s) !! t = Some ref →
       targetRegistrations (this s) !! t' = Some ref → t = t')
  ∧ (∀ t h, (t, h) ∈ attached (world s) ↔ targetListeners (this s) !! t = Some h).

(** The progress of a sequence registration points at one of its keys. *)
Definition progressInRange (r : Sequence.SequenceRegistration) : Prop :=
  (Sequence.progressIndex r < length (Sequence.orderedKeys r))%nat.

(** The routing of an event to a registration bound to [target]: the event
    satisfies the scope, the registration is enabled, and input suppression
    does not apply. *)
Definition routed (env : Env) (event : KeyboardEvent) (target : EventTarget)
    (registration : HotkeyRegistration) : Prop :=
  isEventForTarget env event target = true
  ∧ enabled (reg_options registration) = true
  ∧ ¬ (ignoreInputs (reg_options registration) = true
       ∧ isInputElement env (ev_target event) = true
       ∧ ev_target event ≠ Some (reg_target registration)).

(** The editable controls that are so by themselves: a text-entry input
    variant, a text area, a select, or an element whose own [contentEditable]
    reads [true] (or is the empty string). *)
Inductive ownEditableControl (pg : Page) : EventTarget → Prop :=
  | own_input n type :
      kindOf pg n = HTMLInputElement type → type ∈ Spec.textEntryTypes →
      ownEditableControl pg (Node n)
  | own_textarea n :
      kindOf pg n = HTMLTextAreaElement → ownEditableControl pg (Node n)
  | own_select n :
      kindOf pg n = HTMLSelectElement → ownEditableControl pg (Node n)
  | own_content n :
      isHTMLElement pg n = true → contentEditableOf pg n ∈ ["true"; ""] →
      ownEditableControl pg (Node n).

(** The ids handed out are counted, every registration is stored under its
    own id, which has been handed out, and only a registration that is
    triggered on press and latches until release is ever latched. *)
Definition wellFormed (s : State) : Prop :=
  counted (world s)
  ∧ ∀ id r, registrations (this s) !! id = Some r →
      id ∈ issued (world s) ∧ reg_id r = id
      ∧ (reg_hasFired r = true →
         requireReset (reg_options r) = true ∧ eventType (reg_options r) = keydown).

(** Two registrations that differ at most in their latch. *)
Definition sameButLatch (r r' : HotkeyRegistration) : Prop :=
  setHasFired false r' = setHasFired false r.

(** The id has been handed out, and a registration held under it is bound to
    the scope [target]. *)
Definition boundTo (id : string) (target : EventTarget) (s : State) : Prop :=
  id ∈ issued (world s)
  ∧ ∀ r, registrations (this s) !! id = Some r → reg_target r = target.

(** The [Set] object at [ref] is the one that the manager keeps for the
    scope [target], or it is an empty one that the manager has dropped. *)
Definition setOf (target : EventTarget) (ref : nat) (s : State) : Prop :=
  (ref < nextObject (world s))%nat
  ∧ (targetRegistrations (this s) !! target = Some ref
     ∨ ((∀ t, targetRegistrations (this s) !! t ≠ Some ref)
        ∧ Js.values (setAt s ref) = [])).

(** The registration [r] made under [id] is latched or gone. *)
Definition latchedOrGone (id : string) (r : HotkeyRegistration) (s : State) : Prop :=
  wellFormed s ∧ id ∈ issued (world s)
  ∧ requireReset (reg_options r) = true ∧ reg_hasFired r = true
  ∧ ∀ r', registrations (this s) !! id = Some r' → r' = r.


(** The table of registrations and the [Set]s of the scopes hold the same
    registrations: every [Set] is an object of its own, it lists the ids of
    the registrations bound to its scope, each once, and nothing else. *)
Definition indexed (s : State) : Prop :=
  (∀ t ref, targetRegistrations (this s) !! t = Some ref →
     (ref < nextObject (world s))%nat)
  ∧ (∀ t t' ref, targetRegistrations (this s) !! t = Some ref →
       targetRegistrations (this s) !! t' = Some ref → t = t')
  ∧ (∀ t, NoDup (registrationSet s t))
  ∧ (∀ t id, id ∈ registrationSet s t
       ↔ ∃ r, registrations (this s) !! id = Some r ∧ reg_target r = t).

(** The listeners on the page are those the manager knows of: no scope has
    more than one pair of them, in a browser the tables of the scopes agree,
    and without a document nothing is ever attached. *)
Definition tracked (env : Env) (s : State) : Prop :=
  NoDup (attached (world s)).*1
  ∧ if env_documentDefined env then scopesConsistent s
    else attached (world s) = [] ∧ targetListeners (this s) = ∅.

(** What holds of the manager in every state that calls to the module lead
    to. *)
Definition sound (env : Env) (s : State) : Prop :=
  wellFormed s ∧ indexed s ∧ tracked env s.

(** Two states hold the same registrations in the same scopes. *)
Definition sameRegistrations (s s' : State) : Prop :=
  registrations (this s') = registrations (this s)
  ∧ ∀ t, registrationSet s' t = registrationSet s t.

(** The number of times the default action of the event was prevented. *)
Fixpoint prevented (effects : list Effect) : nat :=
  match effects with
  | [] => 0
  | DefaultPrevented :: rest => S (prevented rest)
  | _ :: rest => prevented rest
  end.

(** The number of times the propagation of the event was stopped. *)
Fixpoint stopped (effects : list Effect) : nat :=
  match effects with
  | [] => 0
  | PropagationStopped :: rest => S (stopped rest)
  | _ :: rest => stopped rest
  end.

(** What a component that uses the hook holds in the manager, [base] being
    the state of the manager when the component was mounted: the
    registrations of [base], and one more if a cleanup is pending, made by
    the effect with the closure over the callback ref, as an enabled
    registration on the target that the effect resolved. *)
Definition holds (env : Env) (wrapper : CallbackRef) (base : State)
    (h : option UseHotkey.Hook) (p : Process) : Prop :=
  sound env (getInstance env p)
  ∧ match h ≫= UseHotkey.cleanup with
    | None => sameRegistrations base (getInstance env p)
    | Some id =>
        ∃ s text options target,
          sound env s ∧ sameRegistrations base s
          ∧ (register env (Hotkey.HotkeyString text) wrapper
               (UseHotkey.registerOptions options target) s).2 = Normal id
          ∧ (target = Document ∨ target = Window
             ∨ ∃ n, target = Node n ∧ isHTMLElement (env_page env) n = true)
          ∧ p = toProcess (register env (Hotkey.HotkeyString text) wrapper
                             (UseHotkey.registerOptions options target) s).1
    end.

(** In a browser a hook whose effect ran without failing has a cleanup
    pending exactly if it is enabled. *)
Definition pendingIffEnabled (h : option UseHotkey.Hook) : Prop :=
  ∀ h0 d, h = Some h0 → UseHotkey.dependencies h0 = Some d →
    (is_Some (UseHotkey.cleanup h0) ↔ UseHotkey.dep_enabled d = true).

End Invariant.

Module RecorderInvariant.
Import Dom Recorder.

(** What holds of a recorder between any two of its steps: it has a handler
    exactly while it records, the handler is the one listener on the
    document (where there is a document), nothing is shown as recorded
    while it records, and what is shown as recorded has passed the
    validation. *)
Definition consistent (env : Env) (s : State) : Prop :=
  (isRecording (store (this s)) = true ↔ is_Some (keydownHandler (this s)))
  ∧ (isRecording (store (this s)) = true → recordedHotkey (store (this s)) = None)
  ∧ listeners (page s)
    = (if env_documentDefined env then option_list (keydownHandler (this s)) else [])
  ∧ (∀ hotkey, recordedHotkey (store (this s)) = Some hotkey →
       env_hasNonModifierKey env hotkey (platform (this s)) = true)
  ∧ platform (this s) = env_detectPlatform env.

End RecorderInvariant.

(** ** Concrete pages, environments and events *)

Module Fixtures.
Import Dom Manager.

(** A page whose root element (node 0) holds a text input (node 1) and a
    plain division (node 2). *)
Definition page : Page :=
  {| page_nodes :=
       <[2 := {| node_kind := HTMLElement; node_parent := Some 0;
                 node_contentEditable := "inherit" |}]>
       (<[1 := {| node_kind := HTMLInputElement "text"; node_parent := Some 0;
                  node_contentEditable := "inherit" |}]>
       (<[0 := {| node_kind := HTMLElement; node_parent := None;
                  node_contentEditable := "inherit" |}]> ∅));
     page_documentElement := 0 |}.

(** A browser on the mac family, with the parser and the matcher modelled
    from the specification.  The keys of the events and hotkeys used below
    are ASCII, on which [toLowerCase] folds the letters A to Z. *)
Definition browser (body : CallbackRef → list Action) : Env :=
  {| env_parseHotkey := Hotkey.parseHotkey;
     env_matchesKeyboardEvent := Hotkey.matchesKeyboardEvent;
     env_toLowerCase := Js.asciiLowerCase;
     env_detectPlatform := Hotkey.mac;
     env_documentDefined := true;
     env_page := page;
     env_callbackBody := body |}.

(** The same without a document, as when rendering on a server. *)
Definition server : Env :=
  {| env_parseHotkey := Hotkey.parseHotkey;
     env_matchesKeyboardEvent := Hotkey.matchesKeyboardEvent;
     env_toLowerCase := Js.asciiLowerCase;
     env_detectPlatform := Hotkey.linux;
     env_documentDefined := false;
     env_page := {| page_nodes := ∅; page_documentElement := 0 |};
     env_callbackBody := λ _, [] |}.

(** Callbacks that leave the manager alone. *)
Definition inert : CallbackRef → list Action := λ _, [].

(** A page with an editor: the root element (node 0) holds a division that
    is an editing host for plain text (node 3, [contenteditable] set to
    [plaintext-only]). *)
Definition editorPage : Page :=
  {| page_nodes :=
       <[3 := {| node_kind := HTMLElement; node_parent := Some 0;
                 node_contentEditable := "plaintext-only" |}]>
       (<[0 := {| node_kind := HTMLElement; node_parent := None;
                  node_contentEditable := "inherit" |}]> ∅);
     page_documentElement := 0 |}.

(** A browser that shows this page. *)
Definition editor : Env :=
  {| env_parseHotkey := Hotkey.parseHotkey;
     env_matchesKeyboardEvent := Hotkey.matchesKeyboardEvent;
     env_toLowerCase := Js.asciiLowerCase;
     env_detectPlatform := Hotkey.mac;
     env_documentDefined := true;
     env_page := editorPage;
     env_callbackBody := inert |}.

(** A key pressed with no modifier held, as the listener of [current] sees
    it. *)
Definition plainEvent (key : string) (origin current : EventTarget) : KeyboardEvent :=
  {| ev_key := key; ev_ctrlKey := false; ev_shiftKey := false; ev_altKey := false;
     ev_metaKey := false; ev_target := Some origin; ev_currentTarget := Some current |}.

Definition noOptions : HotkeyOptions :=
  {| opt_preventDefault := None; opt_stopPropagation := None; opt_eventType := None;
     opt_requireReset := None; opt_enabled := None; opt_ignoreInputs := None;
     opt_platform := None; opt_target := None; opt_conflictBehavior := None |}.

Definition withConflictBehavior (b : ConflictBehavior) : HotkeyOptions :=
  {| opt_preventDefault := None; opt_stopPropagation := None; opt_eventType := None;
     opt_requireReset := None; opt_enabled := None; opt_ignoreInputs := None;
     opt_platform := None; opt_target := None; opt_conflictBehavior := Some b |}.

Definition latching : HotkeyOptions :=
  {| opt_preventDefault := Some true; opt_stopPropagation := Some true;
     opt_eventType := None; opt_requireReset := Some true; opt_enabled := None;
     opt_ignoreInputs := None; opt_platform := None; opt_target := None;
     opt_conflictBehavior := None |}.

Definition onTarget (t : EventTarget) : HotkeyOptions :=
  {| opt_preventDefault := None; opt_stopPropagation := None; opt_eventType := None;
     opt_requireReset := None; opt_enabled := None; opt_ignoreInputs := None;
     opt_platform := None; opt_target := Some t; opt_conflictBehavior := None |}.

Definition modS : Hotkey.Hotkey := Hotkey.HotkeyString "Mod+S".

(** An event with the Meta key held, as the listener of [current] sees it. *)
Definition metaEvent (key : string) (origin current : EventTarget) : KeyboardEvent :=
  {| ev_key := key; ev_ctrlKey := false; ev_shiftKey := false; ev_altKey := false;
     ev_metaKey := true; ev_target := Some origin; ev_currentTarget := Some current |}.

(** One [Mod+S] registration on the document that latches until release ... *)
Definition armed : State :=
  (register (browser inert) modS 1 latching (initialState (browser inert))).1.

(** ... after it fired on a press of Meta+s that came from the division. *)
Definition latched : State :=
  (processTargetEvent (browser inert) 8 (metaEvent "s" (Node 2) Document)
     Document keydown armed).1.1.

(** Two [Mod+S] registrations on the document, the second made under the
    given conflict policy. *)
Definition twice (b : option ConflictBehavior) : State * Completion string :=
  let s := (register (browser inert) modS 1 noOptions (initialState (browser inert))).1 in
  register (browser inert) modS 2
    {| opt_preventDefault := None; opt_stopPropagation := None; opt_eventType := None;
       opt_requireReset := None; opt_enabled := None; opt_ignoreInputs := None;
       opt_platform := None; opt_target := None; opt_conflictBehavior := b |} s.


(** The first callback unregisters the second registration. *)
Definition unregistering : CallbackRef → list Action :=
  λ cb, if decide (cb = 1) then [Unregister "hotkey_2"] else [].

(** Every callback registers the hotkey anew, with itself as the callback. *)
Definition replicating : CallbackRef → list Action :=
  λ cb, [Register modS cb noOptions].

(** The calls that lead to the state [latched]. *)
Definition latchedCalls : list Call :=
  [CallRegister modS 1 latching;
   CallDispatch 8 (metaEvent "s" (Node 2) Document) Document keydown].

(** The registration of [latched], as the manager holds it. *)
Definition latchedRegistration : HotkeyRegistration :=
  {| reg_id := "hotkey_1";
     reg_hotkey := modS;
     reg_parsedHotkey :=
       {| Hotkey.ph_key := "S"; Hotkey.ph_ctrl := false; Hotkey.ph_shift := false;
          Hotkey.ph_alt := false; Hotkey.ph_meta := true |};
     reg_callback := 1;
     reg_options := resolveOptions latching Hotkey.mac;
     reg_hasFired := true;
     reg_target := Document |}.

(** One [Mod+S] registration scoped to the text input. *)
Definition scopedToInput : State :=
  (register (browser inert) modS 1 (onTarget (Node 1)) (initialState (browser inert))).1.

Definition inputRegistration : HotkeyRegistration :=
  {| reg_id := "hotkey_1";
     reg_hotkey := modS;
     reg_parsedHotkey :=
       {| Hotkey.ph_key := "S"; Hotkey.ph_ctrl := false; Hotkey.ph_shift := false;
          Hotkey.ph_alt := false; Hotkey.ph_meta := true |};
     reg_callback := 1;
     reg_options := resolveOptions (onTarget (Node 1)) Hotkey.mac;
     reg_hasFired := false;
     reg_target := Node 1 |}.

(** One registration made where there is no document. *)
Definition onServer : State :=
  ops server [OpRegister modS 1 noOptions] (initialState server).

(** A structured descriptor whose key is the [+] key. *)
Definition plusKey : Hotkey.RawHotkey :=
  {| Hotkey.raw_key := "+"; Hotkey.raw_ctrl := true; Hotkey.raw_shift := false;
     Hotkey.raw_alt := false; Hotkey.raw_meta := false; Hotkey.raw_mod := false |}.

(** A structured descriptor for [Mod+S]. *)
Definition modSRaw : Hotkey.RawHotkey :=
  {| Hotkey.raw_key := "s"; Hotkey.raw_ctrl := false; Hotkey.raw_shift := false;
     Hotkey.raw_alt := false; Hotkey.raw_meta := false; Hotkey.raw_mod := true |}.

(** The sequence G, X after a first press of g. *)
Definition afterG : option Sequence.SequenceRegistration :=
  Sequence.presses [(0, "g")] <$> Sequence.register 1 ["G"; "X"] 7 (Some 1000).

(** The arguments of a hook that saves on [Mod+S], with no option given. *)
Definition saveRender : UseHotkey.Render :=
  {| UseHotkey.r_hotkey := UseHotkey.Text "Mod+S";
     UseHotkey.r_callback := 1;
     UseHotkey.r_options :=
       {| UseHotkey.use_enabled := None;
          UseHotkey.use_preventDefault := None;
          UseHotkey.use_stopPropagation := None;
          UseHotkey.use_platform := None;
          UseHotkey.use_eventType := None;
          UseHotkey.use_requireReset := None;
          UseHotkey.use_ignoreInputs := None;
          UseHotkey.use_target := UseHotkey.TargetUndefined;
          UseHotkey.use_conflictBehavior := None |} |}.

(** The hook after the first render with these arguments in a browser. *)
Definition savingHook : UseHotkey.Hook :=
  {| UseHotkey.callbackRef := 1;
     UseHotkey.hotkeyRef := UseHotkey.Text "Mod+S";
     UseHotkey.targetRef := UseHotkey.TargetUndefined;
     UseHotkey.resolvedTargetRef := Some Document;
     UseHotkey.dependencies := Some (UseHotkey.dependenciesOf saveRender);
     UseHotkey.cleanup := Some "hotkey_1" |}.

(** A browser for a recorder, with stand-ins for the functions of
    [parse.ts] that do for keys pressed without modifiers: the hotkey of an
    event is its key, it is portable as it is, and it is valid unless blank.
    The callbacks leave the recorder alone. *)
Definition recorderBrowser : Recorder.Env :=
  {| Recorder.env_isModifierKey :=
       λ event, bool_decide (ev_key event ∈ ["Shift"; "Control"; "Alt"; "Meta"]);
     Recorder.env_keyboardEventToHotkey := ev_key;
     Recorder.env_convertToModFormat := λ hotkey _, hotkey;
     Recorder.env_hasNonModifierKey := λ hotkey _, negb (Js.isBlank hotkey);
     Recorder.env_detectPlatform := Hotkey.mac;
     Recorder.env_documentDefined := true;
     Recorder.env_callbackBody := λ _ _, [] |}.

(** The options of a recorder that has only [onRecord]. *)
Definition onlyRecord : Recorder.HotkeyRecorderOptions :=
  {| Recorder.onRecord := 1; Recorder.onCancel := None; Recorder.onClear := None |}.

(** The key k pressed with no modifier held. *)
Definition plainK : KeyboardEvent :=
  {| ev_key := "k"; ev_ctrlKey := false; ev_shiftKey := false; ev_altKey := false;
     ev_metaKey := false; ev_target := Some (Node 2); ev_currentTarget := Some Document |}.

End Fixtures.

Module RoutingFacts.
Import Dom Manager Invariant.


Lemma containsWithin_refl pg d n : containsWithin pg d n n = true.
Proof. destruct d; simpl; by rewrite decide_True. Qed.

Lemma contains_refl pg n : contains pg n n = true.
Proof. apply containsWithin_refl. Qed.

Section Routing.
Variable env : Env.


Lemma ownEditableControl_isInputElement origin :
  ownEditableControl (env_page env) origin → isInputElement env (Some origin) = true.
Proof.
  destruct 1 as [n ty Hk _|n Hk|n Hk|n Hh Hc]; simpl; try by rewrite Hk.
  unfold isHTMLElement in Hh.
  destruct (kindOf (env_page env) n); try done.
  apply elem_of_cons in Hc as [->|Hc]; [done|].
  apply list_elem_of_singleton in Hc as ->. done.
Qed.

Lemma ownEditableControl_editableControl origin :
  ownEditableControl (env_page env) origin → Spec.editableControl (env_page env) origin.
Proof.
  destruct 1 as [n ty Hk Hty|n Hk|n Hk|n Hh Hc].
  - by eapply Spec.editable_input.
  - by apply Spec.editable_textarea.
  - by apply Spec.editable_select.
  - apply Spec.editable_content; [done|].
    unfold Spec.contentEditing. destruct (size (page_nodes (env_page env))); cbn.
    all: rewrite bool_decide_eq_true_2; [done|].
    all: apply elem_of_cons in Hc as [->|Hc]; [set_solver|].
    all: apply list_elem_of_singleton in Hc as ->; set_solver.
Qed.

(** The scope of an element is satisfied by an event that originates from it. *)
Lemma isEventForTarget_origin event n :
  isHTMLElement (env_page env) n = true →
  ev_target event = Some (Node n) →
  isEventForTarget env event (Node n) = true.
Proof.
  intros Hh Ho. unfold isEventForTarget. rewrite Hh, Ho.
  case_bool_decide; [done|apply contains_refl].
Qed.

(** Claim C3.  A registration that latches until release and is latched is
    skipped by every press event: the body of the dispatch loop returns with
    the state as it was and with nothing observed, so the matcher is not
    consulted, the callback is not called, and neither the default action is
    prevented nor the propagation stopped.  The latch itself stays set; only
    the release branch clears it. *)
Theorem latched_press_is_skipped event target id s registration :
  registrations (this s) !! id = Some registration →
  requireReset (reg_options registration) = true →
  reg_hasFired registration = true →
  processRegistration env event target keydown id s = (s, [], Normal ()).
Proof.
  intros Hreg Hreset Hfired. unfold processRegistration. rewrite Hreg.
  rewrite Hreset, Hfired. simpl.
  repeat (case_match; try done).
Qed.




(** An event that the routing skips leaves the registration as it is. *)
Lemma unrouted_event_is_skipped event target type id s registration :
  registrations (this s) !! id = Some registration →
  ¬ routed env event target registration →
  processRegistration env event target type id s = (s, [], Normal ()).
Proof.
  intros Hreg Hnot. unfold processRegistration. rewrite Hreg.
  destruct (isEventForTarget env event target) eqn:G1; [|done]. simpl.
  destruct (enabled (reg_options registration)) eqn:G2; [|done]. simpl.
  destruct (ignoreInputs (reg_options registration)) eqn:G3; simpl.
  - destruct (isInputElement env (ev_target event)) eqn:G4; simpl.
    + case_bool_decide as G5; [done|]. destruct Hnot. repeat split; try done.
      intros (_ & _ & ?). done.
    + destruct Hnot. repeat split; try done. intros (_ & ? & _). congruence.
  - destruct Hnot. repeat split; try done. intros (? & _ & _). congruence.
Qed.

(** Property X24.
    With input suppression active, an event whose origin is a text-entry
    input, a text area, a select or an element whose own [contentEditable]
    reads [true] is skipped by a registration whose scope is not that very
    element, whatever listener delivers it.  If the scope is that very
    element the registration is not skipped on this account: enabled, with
    the trigger phase of the event, not latched, it calls its callback when
    the matcher accepts the event. *)
Theorem input_suppression event type id s registration origin :
  registrations (this s) !! id = Some registration →
  ignoreInputs (reg_options registration) = true →
  ev_target event = Some origin →
  ownEditableControl (env_page env) origin →
  (origin ≠ reg_target registration →
   ∀ target, processRegistration env event target type id s = (s, [], Normal ()))
  ∧ (origin = reg_target registration →
     enabled (reg_options registration) = true →
     eventType (reg_options registration) = type →
     (type = keydown →
      requireReset (reg_options registration) && reg_hasFired registration = false) →
     env_matchesKeyboardEvent env event (reg_parsedHotkey registration)
       (platform (reg_options registration)) = true →
     Called (reg_id registration) (reg_callback registration)
       ∈ (processRegistration env event (reg_target registration) type id s).1.2).
Proof.
  intros Hreg Hign Horigin Hedit. split.
  - intros Hne target. apply unrouted_event_is_skipped with registration; [done|].
    intros (_ & _ & Hin). apply Hin. repeat split; [done| |].
    + rewrite Horigin. by apply ownEditableControl_isInputElement.
    + rewrite Horigin. congruence.
  - intros Heq Hen Htype Hlatch Hmatch.
    assert (isEventForTarget env event origin = true) as G1.
    { destruct Hedit as [n ty Hk _|n Hk|n Hk|n Hh Hc];
        apply isEventForTarget_origin; try done; unfold isHTMLElement; by rewrite Hk. }
    unfold processRegistration. rewrite Hreg, <- Heq, G1, Hen, Hign, Horigin.
    cbn [negb andb].
    rewrite (bool_decide_eq_false_2 (Some origin ≠ Some origin)) by (intros Hne; by apply Hne).
    rewrite andb_false_r, Hmatch.
    unfold executeHotkeyCallback.
    destruct (runActions env _ s) as [s1 c].
    destruct type; rewrite Htype.
    + rewrite Hlatch by done. rewrite bool_decide_eq_false_2 by (intros Hne; by apply Hne).
      destruct c; cbn; set_solver.
    + rewrite bool_decide_eq_true_2 by done.
      destruct c; cbn; repeat case_match; cbn; set_solver.
Qed.

(** Claim C2, at the input on which the code departs from it.  An event
    whose listener-attachment point is the root element of the document
    satisfies the document scope by the target-satisfaction rule, and
    [isEventForTarget] answers that it does not: for a document (or window)
    scope the code compares the attachment point with the scope only. *)
Theorem document_scope_rejects_root_element key ctrl shift alt meta origin :
  let event :=
    {| ev_key := key; ev_ctrlKey := ctrl; ev_shiftKey := shift; ev_altKey := alt;
       ev_metaKey := meta; ev_target := origin;
       ev_currentTarget := Some (Node (page_documentElement (env_page env))) |} in
  Spec.satisfiesScope (env_page env) event Document
  ∧ isEventForTarget env event Document = false.
Proof.
  intros event. split.
  - right. left. by split.
  - unfold isEventForTarget. by apply bool_decide_eq_false_2.
Qed.

(** Property X2.
    Apart from that allowance the code follows the target-satisfaction rule. *)
Lemma isEventForTarget_satisfiesScope event scope :
  (scope = Document ∨ scope = Window
   ∨ ∃ n, scope = Node n ∧ isHTMLElement (env_page env) n = true) →
  ev_currentTarget event ≠ Some (Node (page_documentElement (env_page env)))
  ∨ scope ≠ Document →
  isEventForTarget env event scope = true
  ↔ Spec.satisfiesScope (env_page env) event scope.
Proof.
  intros Hscope Hbrave. unfold Spec.satisfiesScope, isEventForTarget.
  destruct Hscope as [->|[->|(n & -> & Hn)]].
  - rewrite bool_decide_eq_true. naive_solver.
  - rewrite bool_decide_eq_true. naive_solver.
  - rewrite Hn. case_bool_decide as Hc; [naive_solver|].
    destruct (ev_target event) as [[| |m|]|] eqn:Ho; naive_solver.
Qed.

End Routing.

Import Fixtures.

Lemma latched_holds_latchedRegistration :
  registrations (this latched) !! "hotkey_1" = Some latchedRegistration.
Proof. vm_compute. reflexivity. Defined.

Lemma scopedToInput_holds_inputRegistration :
  registrations (this scopedToInput) !! "hotkey_1" = Some inputRegistration.
Proof. vm_compute. reflexivity. Defined.

(** Claim C3 at a concrete input: the latched [Mod+S] is pressed again. *)
Lemma latched_press_is_skipped_witness :
  registrations (this latched) !! "hotkey_1" = Some latchedRegistration
  ∧ requireReset (reg_options latchedRegistration) = true
  ∧ reg_hasFired latchedRegistration = true
  ∧ processRegistration (browser inert) (metaEvent "s" (Node 2) Document)
      Document keydown "hotkey_1" latched = (latched, [], Normal ()).
Proof.
  split; [exact latched_holds_latchedRegistration|].
  split; [reflexivity|]. split; [reflexivity|].
  exact (latched_press_is_skipped (browser inert) (metaEvent "s" (Node 2) Document)
           Document "hotkey_1" latched latchedRegistration
           latched_holds_latchedRegistration eq_refl eq_refl).
Defined.



Lemma text_input_is_editable : ownEditableControl page (Node 1).
Proof.
  apply own_input with "text"; [reflexivity|]. apply list_elem_of_here.
Defined.

(** The suppression at a concrete input: [Mod+S] scoped to the text input,
    pressed inside it. *)
Lemma input_suppression_witness :
  registrations (this scopedToInput) !! "hotkey_1" = Some inputRegistration
  ∧ ignoreInputs (reg_options inputRegistration) = true
  ∧ ownEditableControl page (Node 1)
  ∧ Called "hotkey_1" 1
      ∈ (processRegistration (browser inert) (metaEvent "s" (Node 1) (Node 1))
           (Node 1) keydown "hotkey_1" scopedToInput).1.2.
Proof.
  split; [exact scopedToInput_holds_inputRegistration|]. split; [reflexivity|].
  split; [exact text_input_is_editable|].
  exact (proj2 (input_suppression (browser inert) (metaEvent "s" (Node 1) (Node 1))
           keydown "hotkey_1" scopedToInput inputRegistration (Node 1)
           scopedToInput_holds_inputRegistration eq_refl eq_refl text_input_is_editable)
         eq_refl eq_refl eq_refl (λ _, eq_refl) eq_refl).
Defined.

(** Claim C6, at the input on which the code departs from it.  A division
    that is an editing host for plain text ([contenteditable] set to
    [plaintext-only]) is an element with content editing enabled, and
    [isInputElement] does not take it for one: it compares [contentEditable]
    with [true] and with the empty string only.  A hotkey registered on the
    document with input suppression on (the default), pressed while the
    caret is in the editor, is not skipped: its callback is called. *)
Theorem plaintext_only_editor_is_not_suppressed :
  let s := (register editor (Hotkey.HotkeyString "K") 1 noOptions (initialState editor)).1 in
  let event := plainEvent "k" (Node 3) Document in
  (∃ registration,
     registrations (this s) !! "hotkey_1" = Some registration
     ∧ ignoreInputs (reg_options registration) = true
     ∧ reg_target registration = Document)
  ∧ Spec.editableControl (env_page editor) (Node 3)
  ∧ isInputElement editor (ev_target event) = false
  ∧ (processTargetEvent editor 8 event Document keydown s).1.2
    = [Iterated "hotkey_1"; MatcherConsulted "hotkey_1"; Called "hotkey_1" 1].
Proof.
  cbn zeta. split; [|split; [|split]].
  - eexists. split; [vm_compute; reflexivity|]. split; reflexivity.
  - apply Spec.editable_content; vm_compute; reflexivity.
  - vm_compute. reflexivity.
  - vm_compute. reflexivity.
Qed.

(** The target-satisfaction rule at a concrete input: the root element as
    the scope, an event that comes from the text input inside it. *)
Lemma isEventForTarget_satisfiesScope_witness :
  (Node 0 = Document ∨ Node 0 = Window
   ∨ ∃ n, Node 0 = Node n ∧ isHTMLElement (env_page (browser inert)) n = true)
  ∧ (isEventForTarget (browser inert) (metaEvent "s" (Node 1) Document) (Node 0) = true
     ↔ Spec.satisfiesScope (env_page (browser inert)) (metaEvent "s" (Node 1) Document)
         (Node 0)).
Proof.
  assert (H : Node 0 = Document ∨ Node 0 = Window
              ∨ ∃ n, Node 0 = Node n ∧ isHTMLElement (env_page (browser inert)) n = true)
    by (right; right; exists 0; split; reflexivity).
  split; [exact H|].
  exact (isEventForTarget_satisfiesScope (browser inert) (metaEvent "s" (Node 1) Document)
           (Node 0) H (or_intror (λ E : Node 0 = Document, eq_ind (Node 0)
              (λ t, match t with Node _ => True | _ => False end) I Document E))).
Defined.

End RoutingFacts.

Module SequenceFacts.
Import Sequence Invariant.

Lemma keyMatches_lookup key (keys : list string) i :
  keyMatches key (keys !! i) = true → (i < length keys)%nat.
Proof.
  unfold keyMatches. intros H%bool_decide_eq_true.
  apply lookup_lt_is_Some. by rewrite <- H.
Qed.

Lemma elapse_orderedKeys now r : orderedKeys (elapse now r) = orderedKeys r.
Proof. unfold elapse. repeat case_match; done. Qed.

Lemma elapse_progressInRange now r : progressInRange r → progressInRange (elapse now r).
Proof.
  unfold progressInRange, elapse. intros H. repeat case_match; simpl; try done. lia.
Qed.

Lemma advance_orderedKeys now key r : orderedKeys (advance now key r).1 = orderedKeys r.
Proof. unfold advance. repeat case_match; done. Qed.

Lemma advance_progressInRange now key r : progressInRange r → progressInRange (advance now key r).1.
Proof.
  unfold progressInRange, advance. intros H.
  destruct (keyMatches key (orderedKeys r !! progressIndex r)) eqn:E1.
  - case_bool_decide; simpl; lia.
  - destruct (keyMatches key (orderedKeys r !! 0)) eqn:E2; simpl; [|lia].
    destruct (decide (progressIndex r = 0)) as [E0|E0]; [rewrite E0 in E1; congruence|lia].
Qed.

Lemma press_progressInRange now key r : progressInRange r → progressInRange (press now key r).1.
Proof. intros. by apply advance_progressInRange, elapse_progressInRange. Qed.

Lemma presses_progressInRange history r : progressInRange r → progressInRange (presses history r).
Proof.
  revert r. induction history as [|e history IH]; intros r H; [done|].
  apply IH. by apply press_progressInRange.
Qed.

Lemma register_progressInRange id keys callback timeout r :
  register id keys callback timeout = Some r → progressInRange r.
Proof.
  destruct keys; [done|]. intros [= <-]. unfold progressInRange. simpl. lia.
Qed.

(** Claim C8.  Take a sequence registered with at least one key, after any
    history of presses.  A press whose canonical key is not the key expected
    at the current progress, and is the first key of the sequence, leaves the
    progress at 1 with the timeout started anew from the time of the press
    (when one is configured), and does not invoke the callback.  This holds
    as well when the pending timer had run out before the press. *)
Theorem first_key_restarts_sequence id keys callback timeout r0 history now key :
  register id keys callback timeout = Some r0 →
  let r := presses history r0 in
  keyMatches key (orderedKeys r !! progressIndex r) = false →
  keyMatches key (orderedKeys r !! 0) = true →
  press now key r = (withProgress 1 (startTimeout now r) r, false).
Proof.
  intros Hreg r Hmiss Hfirst.
  assert (progressInRange r) as Hwf by (by eapply presses_progressInRange, register_progressInRange).
  assert (progressIndex r ≠ 0) as Hpos by (intros E; rewrite E in Hmiss; congruence).
  unfold press, elapse.
  destruct (pendingTimeout r) as [deadline|] eqn:Hp.
  - case_bool_decide.
    + unfold advance. simpl. rewrite Hfirst.
      rewrite bool_decide_eq_false_2 by (unfold progressInRange in Hwf; lia).
      done.
    + unfold advance. by rewrite Hmiss, Hfirst.
  - unfold advance. by rewrite Hmiss, Hfirst.
Qed.

(** When the timer has run out, a press of the first key of a sequence of
    two keys or more starts the sequence over at progress 1; a sequence of
    one key is completed by it. *)
Lemma first_key_after_timeout now key deadline r :
  pendingTimeout r = Some deadline → (deadline ≤ now)%nat →
  keyMatches key (orderedKeys r !! 0) = true →
  press now key r
  = if bool_decide (length (orderedKeys r) = 1%nat) then (withProgress 0 None r, true)
    else (withProgress 1 (startTimeout now r) r, false).
Proof.
  intros Hp Hd Hk. unfold press, elapse. rewrite Hp.
  rewrite bool_decide_eq_true_2 by done. unfold advance. cbn. rewrite Hk.
  by repeat case_bool_decide.
Qed.

(** Claim C8 at a concrete input: the sequence G, X after a press of g sees
    g pressed again. *)
Lemma first_key_restarts_sequence_witness :
  register 1 ["G"; "X"] 7 (Some 1000)
    = Some {| seq_id := 1; orderedKeys := ["G"; "X"]; seq_callback := 7;
              timeoutMillis := Some 1000; progressIndex := 0; pendingTimeout := None |}
  ∧ press 400 "g"
      (presses [(0, "g")]
         {| seq_id := 1; orderedKeys := ["G"; "X"]; seq_callback := 7;
            timeoutMillis := Some 1000; progressIndex := 0; pendingTimeout := None |})
    = ({| seq_id := 1; orderedKeys := ["G"; "X"]; seq_callback := 7;
          timeoutMillis := Some 1000; progressIndex := 1; pendingTimeout := Some 1400 |},
       false).
Proof.
  split; [reflexivity|].
  exact (first_key_restarts_sequence 1 ["G"; "X"] 7 (Some 1000) _ [(0, "g")] 400 "g"
           eq_refl eq_refl eq_refl).
Defined.

End SequenceFacts.

Module ParseFacts.
Import Hotkey Invariant.

Lemma split_without sep s : occurs sep s = false → Js.split sep s = [s].
Proof.
  induction s as [|c s IH]; [done|]. simpl.
  destruct (Ascii.eqb c sep); [done|]. simpl. intros H. by rewrite IH.
Qed.

Lemma split_tokens sep s t : t ∈ Js.split sep s → occurs sep t = false.
Proof.
  revert t. induction s as [|c s IH]; intros t; simpl.
  - by intros ->%list_elem_of_singleton.
  - destruct (Ascii.eqb c sep) eqn:E.
    + intros [->|H]%elem_of_cons; [done|by apply IH].
    + destruct (Js.split sep s) as [|t0 ts] eqn:Es.
      * intros ->%list_elem_of_singleton. simpl. by rewrite E.
      * intros [->|H]%elem_of_cons.
        -- simpl. rewrite E. simpl. apply IH. by left.
        -- apply IH. by right.
Qed.

Lemma asciiLowerCase_length s : String.length (Js.asciiLowerCase s) = String.length s.
Proof. induction s; simpl; congruence. Qed.

Lemma asciiUpperCase_length s : String.length (Js.asciiUpperCase s) = String.length s.
Proof. induction s; simpl; congruence. Qed.

Lemma upperAscii_idemp c : Js.upperAscii (Js.upperAscii c) = Js.upperAscii c.
Proof.
  destruct c as [[] [] [] [] [] [] [] []]; reflexivity.
Qed.

Lemma upperAscii_plus c : Ascii.eqb (Js.upperAscii c) "+" = Ascii.eqb c "+".
Proof.
  destruct c as [[] [] [] [] [] [] [] []]; reflexivity.
Qed.

Lemma upperAscii_space c : Ascii.eqb (Js.upperAscii c) " " = Ascii.eqb c " ".
Proof.
  destruct c as [[] [] [] [] [] [] [] []]; reflexivity.
Qed.

Lemma asciiUpperCase_idemp s : Js.asciiUpperCase (Js.asciiUpperCase s) = Js.asciiUpperCase s.
Proof. induction s; simpl; [done|]. by rewrite upperAscii_idemp, IHs. Qed.

Lemma asciiUpperCase_occurs_plus s : occurs "+" (Js.asciiUpperCase s) = occurs "+" s.
Proof. induction s; simpl; [done|]. by rewrite upperAscii_plus, IHs. Qed.

Lemma asciiUpperCase_isBlank s : Js.isBlank (Js.asciiUpperCase s) = Js.isBlank s.
Proof. induction s; simpl; [done|]. by rewrite upperAscii_space, IHs. Qed.

(** Every modifier name has at least three letters. *)
Lemma modifierOf_length token m : modifierOf token = Some m → (3 ≤ String.length token)%nat.
Proof.
  unfold modifierOf. rewrite <- (asciiLowerCase_length token).
  generalize (Js.asciiLowerCase token). intros l.
  repeat case_bool_decide; set_unfold; try done; intros _;
    repeat match goal with H : _ ∨ _ |- _ => destruct H end; subst; simpl; try lia; done.
Qed.

Lemma isKeyToken_short token : (String.length token < 3)%nat → isKeyToken token = true.
Proof.
  intros H. unfold isKeyToken. apply bool_decide_eq_true.
  destruct (modifierOf token) eqn:E; [|done]. apply modifierOf_length in E. lia.
Qed.

Section Normalize.
Variable k : string.

Lemma normalizeKeyName_cases :
  normalizeKeyName k ∈ ["Escape"; "Delete"; "Enter"]
  ∨ (String.length k = 1%nat ∧ normalizeKeyName k = Js.asciiUpperCase k)
  ∨ (String.length k ≠ 1%nat ∧ normalizeKeyName k = k).
Proof.
  unfold normalizeKeyName. repeat case_bool_decide; set_solver.
Qed.

Lemma normalizeKeyName_idemp : normalizeKeyName (normalizeKeyName k) = normalizeKeyName k.
Proof.
  destruct normalizeKeyName_cases as [H|[[Hl ->]|[Hl H]]].
  - set_unfold. destruct H as [->|[->|[->|[]]]]; reflexivity.
  - unfold normalizeKeyName at 1.
    assert (String.length (Js.asciiLowerCase (Js.asciiUpperCase k)) = 1%nat) as Hlen
      by (by rewrite asciiLowerCase_length, asciiUpperCase_length).
    repeat case_bool_decide;
      try (match goal with H : Js.asciiLowerCase _ = _ |- _ => rewrite H in Hlen; done end).
    + apply asciiUpperCase_idemp.
    + rewrite asciiUpperCase_length in *. done.
  - rewrite !H. done.
Qed.

Lemma normalizeKeyName_occurs_plus :
  occurs "+" k = false → occurs "+" (normalizeKeyName k) = false.
Proof.
  intros Hk. destruct normalizeKeyName_cases as [H|[[Hl ->]|[Hl ->]]]; [| |done].
  - set_unfold. destruct H as [->|[->|[->|[]]]]; reflexivity.
  - by rewrite asciiUpperCase_occurs_plus.
Qed.

Lemma normalizeKeyName_isBlank :
  Js.isBlank k = false → Js.isBlank (normalizeKeyName k) = false.
Proof.
  intros Hk. destruct normalizeKeyName_cases as [H|[[Hl ->]|[Hl ->]]]; [| |done].
  - set_unfold. destruct H as [->|[->|[->|[]]]]; reflexivity.
  - by rewrite asciiUpperCase_isBlank.
Qed.

Lemma normalizeKeyName_isKeyToken :
  isKeyToken k = true → isKeyToken (normalizeKeyName k) = true.
Proof.
  intros Hk. destruct normalizeKeyName_cases as [H|[[Hl ->]|[Hl ->]]]; [| |done].
  - set_unfold. destruct H as [->|[->|[->|[]]]]; reflexivity.
  - apply isKeyToken_short. rewrite asciiUpperCase_length. lia.
Qed.

End Normalize.

Lemma split_formatParsedHotkey parsed :
  occurs "+" (ph_key parsed) = false →
  Js.split "+" (formatParsedHotkey parsed) = modifierTokens parsed ++ [ph_key parsed].
Proof.
  intros Hkey. destruct parsed as [key [] [] [] []]; simpl in Hkey;
    cbn; rewrite ?(split_without _ _ Hkey); try done.
  all: destruct key; [done|]; simpl in Hkey |- *;
    apply orb_false_iff in Hkey as [-> Hkey]; by rewrite (split_without _ _ Hkey).
Qed.

Lemma isBlank_formatParsedHotkey parsed :
  Js.isBlank (ph_key parsed) = false → Js.isBlank (formatParsedHotkey parsed) = false.
Proof. destruct parsed as [key [] [] [] []]; done. Qed.

Lemma filter_modifierTokens parsed :
  isKeyToken (ph_key parsed) = true →
  filter (λ t, isKeyToken t = true) (modifierTokens parsed ++ [ph_key parsed])
  = [ph_key parsed].
Proof.
  intros Hkey. rewrite filter_app, filter_cons_True by done.
  replace (filter _ (modifierTokens parsed)) with (@nil string); [done|].
  destruct parsed as [key [] [] [] []]; vm_compute; done.
Qed.

Lemma hasModifier_key m p tokens key :
  isKeyToken key = true → hasModifier m p (tokens ++ [key]) = hasModifier m p tokens.
Proof.
  intros Hkey%bool_decide_eq_true. unfold hasModifier.
  rewrite omap_app. simpl. rewrite Hkey. by rewrite app_nil_r.
Qed.

Lemma hasModifier_modifierTokens parsed p :
  hasModifier Control p (modifierTokens parsed) = ph_ctrl parsed
  ∧ hasModifier Shift p (modifierTokens parsed) = ph_shift parsed
  ∧ hasModifier Alt p (modifierTokens parsed) = ph_alt parsed
  ∧ hasModifier Meta p (modifierTokens parsed) = ph_meta parsed.
Proof. destruct parsed as [key [] [] [] []]; vm_compute; done. Qed.

(** Parsing what [formatParsedHotkey] wrote gives the parsed hotkey back, if
    its key is a single token, is not blank and is canonical. *)
Lemma parseHotkey_formatParsedHotkey parsed p :
  singleToken (ph_key parsed) →
  Js.isBlank (ph_key parsed) = false →
  normalizeKeyName (ph_key parsed) = ph_key parsed →
  parseHotkey (HotkeyString (formatParsedHotkey parsed)) p = Some parsed.
Proof.
  intros [Hplus Htoken] Hblank Hnorm. unfold parseHotkey.
  rewrite isBlank_formatParsedHotkey, split_formatParsedHotkey by done.
  rewrite filter_modifierTokens, Hblank, Hnorm by done.
  rewrite !hasModifier_key by done.
  destruct (hasModifier_modifierTokens parsed p) as (-> & -> & -> & ->).
  by destruct parsed.
Qed.

(** What parsing a string descriptor guarantees about the key. *)
Lemma parseHotkey_string_key s p parsed :
  parseHotkey (HotkeyString s) p = Some parsed →
  singleToken (ph_key parsed) ∧ Js.isBlank (ph_key parsed) = false
  ∧ normalizeKeyName (ph_key parsed) = ph_key parsed.
Proof.
  unfold parseHotkey. case_match; [done|].
  destruct (filter _ _) as [|k [|]] eqn:Hf; try done.
  destruct (Js.isBlank k) eqn:Hb; [done|]. intros [= <-]. simpl.
  assert (k ∈ filter (λ t, isKeyToken t = true) (Js.split "+" s)) as Hin
    by (rewrite Hf; by left).
  apply list_elem_of_filter in Hin as [Hk Hin].
  repeat split.
  - by apply normalizeKeyName_occurs_plus, (split_tokens _ s).
  - by apply normalizeKeyName_isKeyToken.
  - by apply normalizeKeyName_isBlank.
  - apply normalizeKeyName_idemp.
Qed.

Lemma parseHotkey_raw_key r p parsed :
  parseHotkey (HotkeyRaw r) p = Some parsed →
  Js.isBlank (ph_key parsed) = false
  ∧ normalizeKeyName (ph_key parsed) = ph_key parsed.
Proof.
  unfold parseHotkey. destruct (Js.isBlank (raw_key r)) eqn:Hb; [done|].
  intros [= <-]. simpl. split.
  - by apply normalizeKeyName_isBlank.
  - apply normalizeKeyName_idemp.
Qed.

(** Claim C9, as amended.  For every platform, every string descriptor that
    parses, and every structured descriptor that parses to a key that is a
    single token (it holds no [+] and is no modifier name): formatting the
    parsed hotkey and parsing the string again, on the same platform, gives
    the same parsed hotkey. *)
Theorem parse_format_parse hotkey p parsed :
  parseHotkey hotkey p = Some parsed →
  (∀ r, hotkey = HotkeyRaw r → singleToken (ph_key parsed)) →
  parseHotkey (HotkeyString (formatParsedHotkey parsed)) p = Some parsed.
Proof.
  intros Hparse Hraw. destruct hotkey as [s|r].
  - apply parseHotkey_string_key in Hparse as (? & ? & ?).
    by apply parseHotkey_formatParsedHotkey.
  - pose proof (Hraw r eq_refl). apply parseHotkey_raw_key in Hparse as (? & ?).
    by apply parseHotkey_formatParsedHotkey.
Qed.

Import Fixtures.

(** Claim C9 as amended, at a concrete input: the structured [Mod+S]. *)
Lemma parse_format_parse_witness :
  parseHotkey (HotkeyRaw modSRaw) mac
    = Some {| ph_key := "S"; ph_ctrl := false; ph_shift := false; ph_alt := false;
              ph_meta := true |}
  ∧ singleToken "S"
  ∧ parseHotkey (HotkeyString "Meta+S") mac
    = Some {| ph_key := "S"; ph_ctrl := false; ph_shift := false; ph_alt := false;
              ph_meta := true |}.
Proof.
  split; [reflexivity|]. split; [split; reflexivity|].
  exact (parse_format_parse (HotkeyRaw modSRaw) mac _ eq_refl
           (λ _ _, conj eq_refl eq_refl)).
Defined.

(** Claim C9 as stated fails: the structured descriptor for Control with the
    [+] key parses, its parsed form is written as [Control++], and that
    string does not parse. *)
Lemma plus_key_does_not_round_trip :
  parseHotkey (HotkeyRaw plusKey) windows
    = Some {| ph_key := "+"; ph_ctrl := true; ph_shift := false; ph_alt := false;
              ph_meta := false |}
  ∧ formatParsedHotkey {| ph_key := "+"; ph_ctrl := true; ph_shift := false;
                          ph_alt := false; ph_meta := false |} = "Control++"
  ∧ parseHotkey (HotkeyString "Control++") windows = None.
Proof. vm_compute. done. Qed.

(** The same happens to a structured descriptor whose key is a modifier. *)
Lemma modifier_key_does_not_round_trip :
  parseHotkey
    (HotkeyRaw {| raw_key := "Shift"; raw_ctrl := false; raw_shift := false;
                  raw_alt := false; raw_meta := false; raw_mod := false |}) linux
    = Some {| ph_key := "Shift"; ph_ctrl := false; ph_shift := false; ph_alt := false;
              ph_meta := false |}
  ∧ parseHotkey (HotkeyString "Shift") linux = None.
Proof. vm_compute. done. Qed.

End ParseFacts.

Module IdFacts.
Import Dom Manager Invariant.

#[local] Instance idOf_inj : Inj (=) (=) idOf.
Proof.
  intros m n H. unfold idOf in H.
  apply (inj (String.append "hotkey_")) in H.
  apply (inj pretty) in H. lia.
Qed.

Lemma counted_NoDup w : counted w → NoDup (issued w).
Proof. intros ->. apply NoDup_fmap_2; [apply _|apply NoDup_seq]. Qed.

Lemma counted_initial : counted initialWorld.
Proof. done. Qed.

Lemma keepsCounter_refl w : keepsCounter w w.
Proof. done. Qed.

Lemma keepsCounter_trans w1 w2 w3 : keepsCounter w1 w2 → keepsCounter w2 w3 → keepsCounter w1 w3.
Proof. intros [] []. split; congruence. Qed.

Lemma keepsCounter_counted w w' : keepsCounter w w' → counted w → counted w'.
Proof. unfold counted. intros [-> ->]. done. Qed.

Lemma generateId_counted w : counted w → counted (generateId w).2.
Proof.
  unfold counted, generateId. simpl. intros ->.
  replace (N.to_nat (registrationIdCounter w + 1)) with (S (N.to_nat (registrationIdCounter w))) by lia.
  rewrite seq_S, fmap_app. simpl. f_equal. unfold idOf. do 3 f_equal. lia.
Qed.

Lemma generateId_allocate_keeps w : keepsCounter w (allocate w).2.
Proof. done. Qed.

Section Methods.
Variable env : Env.

Lemma ensureListenersForTarget_keeps target s :
  keepsCounter (world s) (world (ensureListenersForTarget env target s)).
Proof. unfold ensureListenersForTarget, allocate. repeat case_match; done. Qed.

Lemma removeListenersForTarget_keeps target s :
  keepsCounter (world s) (world (removeListenersForTarget env target s)).
Proof. unfold removeListenersForTarget. repeat case_match; done. Qed.

Lemma unregister_keeps id s : keepsCounter (world s) (world (unregister env id s)).
Proof.
  unfold unregister. repeat case_match; try done.
  eapply keepsCounter_trans; [|apply removeListenersForTarget_keeps]. done.
Qed.

Lemma destroy_keeps s : keepsCounter (world s) (world (destroy env s)).
Proof.
  unfold destroy. simpl.
  induction (map_to_list (targetListeners (this s))).*1 as [|t ts IH]; [done|].
  simpl. eapply keepsCounter_trans; [apply IH|apply removeListenersForTarget_keeps].
Qed.

Lemma register_keeps hotkey callback options s :
  keepsCounter (generateId (world s)).2 (world (register env hotkey callback options s).1).
Proof.
  unfold register, generateId, allocate. cbn.
  destruct (env_parseHotkey env hotkey _); [|done].
  destruct (opt_target options), (env_documentDefined env); cbn.
  all: repeat (case_match; simplify_eq; cbn in * ).
  all: try (eapply keepsCounter_trans; [|apply ensureListenersForTarget_keeps]); try done.
Qed.

Lemma register_counted hotkey callback options s :
  counted (world s) → counted (world (register env hotkey callback options s).1).
Proof.
  intros H. eapply keepsCounter_counted; [apply register_keeps|].
  by apply generateId_counted.
Qed.

Lemma runActions_counted actions s :
  counted (world s) → counted (world (runActions env actions s).1).
Proof.
  revert s. induction actions as [|[hotkey callback options|id] rest IH]; intros s H; simpl.
  - done.
  - pose proof (register_counted hotkey callback options s H).
    destruct (register env hotkey callback options s) as [s1 [ident|e]]; [by apply IH|done].
  - apply IH. by eapply keepsCounter_counted; [apply unregister_keeps|].
Qed.

Lemma processRegistration_counted event target type id s :
  counted (world s) → counted (world (processRegistration env event target type id s).1.1).
Proof.
  intros H. unfold processRegistration, executeHotkeyCallback.
  destruct (registrations (this s) !! id) as [registration|]; [|done].
  pose proof (runActions_counted (env_callbackBody env (reg_callback registration)) s H).
  destruct (runActions env _ s) as [s1 c].
  repeat case_match; simplify_eq; simpl; done.
Qed.

Lemma iterate_counted fuel event target type ref index s :
  counted (world s) → counted (world (iterate env fuel event target type ref index s).1.1).
Proof.
  revert index s. induction fuel as [|fuel IH]; intros index s H; simpl; [done|].
  destruct (setAt s ref !! index) as [[id|]|]; [|by apply IH|done].
  pose proof (processRegistration_counted event target type id s H) as Hp.
  destruct (processRegistration env event target type id s) as [[s1 effects] [[]|e]]; [|done].
  specialize (IH (S index) s1 Hp).
  by destruct (iterate env fuel event target type ref (S index) s1) as [[s2 rest] o].
Qed.

Lemma processTargetEvent_counted fuel event target type s :
  counted (world s) → counted (world (processTargetEvent env fuel event target type s).1.1).
Proof.
  intros H. unfold processTargetEvent. case_match; [by apply iterate_counted|done].
Qed.

Lemma getInstance_world p : world (getInstance env p) = proc_world p.
Proof. unfold getInstance. by case_match. Qed.

Lemma call_counted c p : counted (proc_world p) → counted (proc_world (call env c p)).
Proof.
  intros H. destruct c; simpl.
  - apply register_counted. by rewrite getInstance_world.
  - unfold onInstance. case_match; [|done]. simpl.
    by eapply keepsCounter_counted; [apply unregister_keeps|].
  - eapply keepsCounter_counted; [apply destroy_keeps|]. by rewrite getInstance_world.
  - unfold resetInstance. case_match; [|done]. simpl.
    by eapply keepsCounter_counted; [apply destroy_keeps|].
  - unfold onInstance. case_match; [|done]. simpl. by apply processTargetEvent_counted.
Qed.

Lemma calls_counted cs p : counted (proc_world p) → counted (proc_world (calls env cs p)).
Proof.
  revert p. induction cs as [|c cs IH]; intros p H; [done|].
  apply IH. by apply call_counted.
Qed.

(** Over every course of calls made to the module, whether registrations,
    unregistrations, dispatches with their callbacks, destroy or
    resetInstance: the ids handed out are pairwise distinct; they are the
    ids of the counter values 1, 2, ... in this order, up to the current
    value of the module-level counter; and destroy and resetInstance leave
    the counter and the ids handed out as they are. *)
Lemma issued_ids_are_counted cs :
  let p := calls env cs initialProcess in
  NoDup (issued (proc_world p))
  ∧ issued (proc_world p) = idOf <$> seq 1 (N.to_nat (registrationIdCounter (proc_world p)))
  ∧ keepsCounter (proc_world p) (proc_world (call env CallDestroy p))
  ∧ keepsCounter (proc_world p) (proc_world (call env CallResetInstance p)).
Proof.
  intros p. assert (counted (proc_world p)) as H by apply calls_counted, counted_initial.
  split; [by apply counted_NoDup|]. split; [done|]. split.
  - simpl. rewrite <- (getInstance_world p) at 1. apply destroy_keeps.
  - simpl. unfold resetInstance. case_match; [|done]. apply destroy_keeps.
Qed.

(** A registration that succeeds is stored under the id handed out last. *)
Lemma register_uses_generateId hotkey callback options s id :
  (register env hotkey callback options s).2 = Normal id →
  id = (generateId (world s)).1
  ∧ issued (world (register env hotkey callback options s).1) = issued (world s) ++ [id]
  ∧ reg_id <$> registrations (this (register env hotkey callback options s).1) !! id
    = Some id.
Proof.
  intros Hret.
  pose proof (register_keeps hotkey callback options s) as [_ Hissued].
  rewrite Hissued. clear Hissued.
  unfold register, generateId, allocate, ensureListenersForTarget in *. cbn in *.
  destruct (env_parseHotkey env hotkey _); [|done].
  destruct (opt_target options), (env_documentDefined env); cbn in *.
  all: repeat (case_match; simplify_eq; cbn in * ).
  all: by rewrite ?lookup_insert_eq.
Qed.

End Methods.
End IdFacts.

Module ScopeFacts.
Import Dom Manager Invariant.

Lemma values_add id set : Js.values (Js.add id set) ≠ [].
Proof.
  unfold Js.add, Js.has. case_bool_decide as H.
  - unfold Js.values. intros Hnil.
    assert (id ∈ omap (λ e : option string, e) set) as Hin
      by (apply list_elem_of_omap; eauto).
    rewrite Hnil in Hin. by apply elem_of_nil in Hin.
  - unfold Js.values. rewrite omap_app. simpl. by destruct (omap _ set).
Qed.

Lemma setAt_setHeap_eq s ref set :
  setAt (setWorld (setHeap <[ref := set]>) s) ref = set.
Proof. unfold setAt. simpl. by rewrite lookup_insert_eq. Qed.

Lemma setAt_setHeap_ne s ref ref' set :
  ref ≠ ref' → setAt (setWorld (setHeap <[ref := set]>) s) ref' = setAt s ref'.
Proof. intros. unfold setAt. simpl. by rewrite lookup_insert_ne. Qed.

Section Methods.
Variable env : Env.
Hypothesis browser : env_documentDefined env = true.

Lemma scopesConsistent_initial : scopesConsistent (initialState env).
Proof.
  split; [|split; [|split]]; simpl.
  - intros t. by rewrite !lookup_empty.
  - intros t ref H. by rewrite lookup_empty in H.
  - intros t t' ref H. by rewrite lookup_empty in H.
  - intros t h. rewrite lookup_empty. split; [|done].
    intros H. by apply elem_of_nil in H.
Qed.

Lemma unregister_consistent id s :
  scopesConsistent s → scopesConsistent (unregister env id s).
Proof.
  intros (I1 & I2 & I3 & I4). unfold unregister.
  destruct (registrations (this s) !! id) as [registration|]; [|done].
  cbn.
  destruct (targetRegistrations (this s) !! reg_target registration) as [ref|] eqn:Href;
    [|done].
  set (t := reg_target registration) in *.
  rewrite setAt_setHeap_eq.
  case_bool_decide as Hsize.
  - unfold removeListenersForTarget. rewrite browser. cbn.
    destruct (I1 t) as [_ Hl]. destruct (Hl (mk_is_Some _ _ Href)) as [h Hh].
    rewrite Hh. split; [|split; [|split]]; cbn.
    + intros t'. destruct (decide (t = t')) as [<-|Hne].
      * by rewrite !lookup_delete_eq.
      * rewrite !lookup_delete_ne by done. apply I1.
    + intros t' ref' [Hne H]%lookup_delete_Some. split; [by apply (I2 t')|].
      unfold setAt. cbn. rewrite lookup_insert_ne; [by apply (I2 t')|].
      intros <-. apply Hne. by apply (I3 _ _ ref).
    + intros t1 t2 r [? H1]%lookup_delete_Some [? H2]%lookup_delete_Some.
      by apply (I3 _ _ r).
    + intros t' h'. rewrite list_elem_of_filter, lookup_delete_Some, I4. split.
      * intros [Hne Hin]. split; [|done]. intros <-. apply Hne. congruence.
      * intros [Hne Hin]. split; [congruence|done].
  - split; [|split; [|split]]; cbn; [apply I1| |apply I3|apply I4].
    intros t' ref' H. split; [by apply (I2 t')|].
    destruct (decide (ref = ref')) as [<-|Hne].
    + rewrite setAt_setHeap_eq. intros Hnil. apply Hsize. unfold Js.size. by rewrite Hnil.
    + rewrite setAt_setHeap_ne by done. by apply (I2 t').
Qed.

Lemma register_consistent hotkey callback options s :
  scopesConsistent s → scopesConsistent (register env hotkey callback options s).1.
Proof.
  intros (I1 & I2 & I3 & I4). unfold register, generateId. cbn.
  destruct (env_parseHotkey env hotkey _) as [parsed|]; [|done].
  rewrite browser.
  set (t := match opt_target options with Some t => t | None => Document end).
  match goal with
  | |- context [match opt_target options with
                | Some t => (t, ?s0)
                | None => _
                end] =>
      replace (match opt_target options with
               | Some t => (t, s0)
               | None => (Document, s0)
               end) with (t, s0) by (unfold t; by destruct (opt_target options))
  end.
  cbn.
  destruct (targetRegistrations (this s) !! t) as [ref|] eqn:Href.
  - cbn. rewrite Href.
    unfold ensureListenersForTarget. rewrite browser. cbn.
    destruct (I1 t) as [_ Hl]. destruct (Hl (mk_is_Some _ _ Href)) as [h Hh].
    rewrite bool_decide_eq_true_2 by (by rewrite Hh).
    split; [|split; [|split]]; cbn; [apply I1| |apply I3|apply I4].
    intros t' ref' H. split; [by apply (I2 t')|].
    unfold setAt. cbn. destruct (decide (ref = ref')) as [<-|Hne].
    + rewrite lookup_insert_eq. cbn. apply values_add.
    + rewrite lookup_insert_ne by done. by apply (I2 t').
  - unfold allocate. cbn. rewrite lookup_insert_eq.
    unfold ensureListenersForTarget. rewrite browser. cbn.
    assert (targetListeners (this s) !! t = None) as Hl.
    { destruct (targetListeners (this s) !! t) eqn:E; [|done].
      destruct (I1 t) as [H _]. destruct (H (mk_is_Some _ _ E)) as [? ?]. congruence. }
    rewrite bool_decide_eq_false_2 by (rewrite Hl; by intros [? ?]).
    cbn. split; [|split; [|split]]; cbn.
    + intros t'. destruct (decide (t = t')) as [<-|Hne].
      * rewrite !lookup_insert_eq. split; eauto.
      * rewrite !lookup_insert_ne by done. apply I1.
    + intros t' ref' H. unfold setAt. cbn. destruct (decide (t = t')) as [<-|Hne].
      * rewrite lookup_insert_eq in H. simplify_eq. rewrite lookup_insert_eq. cbn.
        split; [lia|apply values_add].
      * rewrite lookup_insert_ne in H by done. pose proof (I2 _ _ H) as [Hlt Hv].
        rewrite !lookup_insert_ne by lia. split; [lia|done].
    + intros t1 t2 r H1 H2.
      destruct (decide (t = t1)) as [<-|Hne1], (decide (t = t2)) as [<-|Hne2]; try done.
      * rewrite lookup_insert_eq in H1. rewrite lookup_insert_ne in H2 by done.
        simplify_eq. apply I2 in H2 as [? ?]. lia.
      * rewrite lookup_insert_eq in H2. rewrite lookup_insert_ne in H1 by done.
        simplify_eq. apply I2 in H1 as [? ?]. lia.
      * rewrite lookup_insert_ne in H1, H2 by done. by apply (I3 _ _ r).
    + intros t' h'. rewrite elem_of_app, list_elem_of_singleton, I4.
      destruct (decide (t = t')) as [<-|Hne].
      * rewrite lookup_insert_eq, Hl. split; [intros [|]; [done|congruence]|].
        intros [= <-]. by right.
      * rewrite lookup_insert_ne by done. split; [intros [|]; [done|congruence]|by left].
Qed.

Lemma ops_consistent os s : scopesConsistent s → scopesConsistent (ops env os s).
Proof.
  revert s. induction os as [|[hotkey callback options|id] os IH]; intros s H; [done| |].
  - apply IH. by apply register_consistent.
  - apply IH. by apply unregister_consistent.
Qed.

Lemma consistent_listeners_iff_registrations s target :
  scopesConsistent s →
  listenersAttached s target ↔ registrationSet s target ≠ [].
Proof.
  intros (I1 & I2 & I3 & I4). unfold listenersAttached, registrationSet. split.
  - intros [h Hh%I4]. destruct (I1 target) as [H _].
    destruct (H (mk_is_Some _ _ Hh)) as [ref Href]. rewrite Href. by apply (I2 target).
  - destruct (targetRegistrations (this s) !! target) as [ref|] eqn:Href; [|done].
    intros _. destruct (I1 target) as [_ H].
    destruct (H (mk_is_Some _ _ Href)) as [h Hh]. exists h. by apply I4.
Qed.

End Methods.

(** Claim C5, as amended.  Where a document exists, after every sequence of
    register and unregister operations on a manager, for every scope: the
    scope has a pair of listeners of the manager attached exactly if its
    registration set is not empty.  As this holds after every operation, the
    unregister call that empties the set is the one that detaches the
    listeners, and the first register call for an unused scope is the one
    that attaches them. *)
Theorem listeners_iff_registrations env os target :
  env_documentDefined env = true →
  listenersAttached (ops env os (initialState env)) target
  ↔ registrationSet (ops env os (initialState env)) target ≠ [].
Proof.
  intros Hdoc. apply consistent_listeners_iff_registrations.
  apply ops_consistent; [done|]. apply scopesConsistent_initial.
Qed.

Import Fixtures.

(** Claim C5 as amended, at a concrete input: one registration on the
    document of a browser. *)
Lemma listeners_iff_registrations_witness :
  env_documentDefined (browser inert) = true
  ∧ (listenersAttached
       (ops (browser inert) [OpRegister modS 1 noOptions] (initialState (browser inert)))
       Document
     ↔ registrationSet
         (ops (browser inert) [OpRegister modS 1 noOptions] (initialState (browser inert)))
         Document ≠ []).
Proof.
  split; [reflexivity|].
  exact (listeners_iff_registrations (browser inert) [OpRegister modS 1 noOptions]
           Document eq_refl).
Defined.

(** Claim C5 as stated fails where there is no document: the registration
    succeeds and is put into the set of its scope, and no listener is
    attached, by the guard of [ensureListenersForTarget]. *)
Lemma server_scope_has_registrations_without_listeners :
  registrationSet onServer (Opaque 0) = ["hotkey_1"]
  ∧ ¬ listenersAttached onServer (Opaque 0).
Proof.
  split; [reflexivity|]. intros [handlers H]. vm_compute in H. by apply elem_of_nil in H.
Qed.

End ScopeFacts.

Module PassFacts.
Import Dom Manager Invariant.

Section Methods.
Variable env : Env.






Lemma values_cons_None (set : Js.JsSet) : Js.values (None :: set) = Js.values set.
Proof. done. Qed.

Lemma values_cons_Some id (set : Js.JsSet) : Js.values (Some id :: set) = id :: Js.values set.
Proof. done. Qed.




End Methods.

Import Fixtures.



(** Likewise, a registration that a callback unregisters before the pass
    reaches it is not visited. *)
Lemma unregistration_by_callback_is_not_visited :
  registrationSet (twice None).1 Document = ["hotkey_1"; "hotkey_2"]
  ∧ Spec.visited
      (processTargetEvent (browser unregistering) 8 (metaEvent "s" (Node 2) Document)
         Document keydown (twice None).1).1.2
    = ["hotkey_1"].
Proof. vm_compute. done. Qed.

(** A callback that registers the hotkey anew with itself as the callback
    keeps the pass going: after 64 steps the pass has not returned. *)
Lemma replicating_callback_exhausts_fuel :
  (processTargetEvent (browser replicating) 64 (metaEvent "s" (Node 2) Document)
     Document keydown (twice None).1).2 = OutOfFuel.
Proof. vm_compute. reflexivity. Qed.

End PassFacts.

Module ConflictFacts.
Import Dom Manager Fixtures.

(** [register] raises nothing but the error of the parser. *)
Lemma register_throws_only_ParseError env hotkey callback options s e :
  (register env hotkey callback options s).2 = Throw e →
  env_parseHotkey env hotkey (default (mgr_platform (this s)) (opt_platform options)) = None.
Proof.
  unfold register, generateId. cbn.
  destruct (env_parseHotkey env hotkey _); [|done].
  repeat (case_match; simplify_eq; cbn); done.
Qed.

(** Claim C1, at the inputs on which the code departs from it.  Two [Mod+S]
    registrations on the document, the second under any conflict policy or
    none: the second call returns normally, both registrations are held,
    and a press of Meta+s calls both callbacks, the first one first. *)
Theorem conflict_policy_is_ignored (policy : option ConflictBehavior) :
  (twice policy).2 = Normal "hotkey_2"
  ∧ getRegistrationCount (twice policy).1 = 2
  ∧ Spec.fired
      (processTargetEvent (browser inert) 8 (metaEvent "s" (Node 2) Document)
         Document keydown (twice policy).1).1.2
    = [1; 2].
Proof. destruct policy as [[]|]; vm_compute; done. Qed.

End ConflictFacts.

Module Reachability.
Import Dom Manager Invariant IdFacts.

Section Methods.
Variable env : Env.

Lemma generateId_fresh w : counted w → (generateId w).1 ∉ issued w.
Proof.
  intros H%generateId_counted%counted_NoDup. cbn in H.
  apply NoDup_app in H as (_ & H & _). intros Hin. apply (H _ Hin). by left.
Qed.

Lemma register_issued hotkey callback options s :
  issued (world (register env hotkey callback options s).1)
  = issued (world s) ++ [(generateId (world s)).1].
Proof. by destruct (register_keeps env hotkey callback options s) as [_ ->]. Qed.

Lemma ensureListenersForTarget_registrations target s :
  registrations (this (ensureListenersForTarget env target s)) = registrations (this s).
Proof. unfold ensureListenersForTarget, allocate. repeat case_match; done. Qed.

Lemma removeListenersForTarget_registrations target s :
  registrations (this (removeListenersForTarget env target s)) = registrations (this s).
Proof. unfold removeListenersForTarget. repeat case_match; done. Qed.

Lemma unregister_registrations id s :
  registrations (this (unregister env id s)) = base.delete id (registrations (this s)).
Proof.
  unfold unregister.
  destruct (registrations (this s) !! id) eqn:E; [|by rewrite delete_id].
  repeat case_match; try done.
  by rewrite removeListenersForTarget_registrations.
Qed.

(** What [register] stores: the registrations held before, and under the new
    id a registration that bears this id and is not latched. *)
Lemma register_lookup hotkey callback options s id r :
  registrations (this (register env hotkey callback options s).1) !! id = Some r →
  registrations (this s) !! id = Some r
  ∨ (id = (generateId (world s)).1 ∧ reg_id r = id ∧ reg_hasFired r = false).
Proof.
  unfold register, generateId, allocate. cbn.
  destruct (env_parseHotkey env hotkey _); [|by left].
  destruct (opt_target options), (env_documentDefined env); cbn.
  all: repeat (case_match; simplify_eq; cbn in * ).
  all: rewrite ensureListenersForTarget_registrations; cbn.
  all: intros [[<- <-]|[? ?]]%lookup_insert_Some; [right; done|by left].
Qed.

Lemma register_lookup_old hotkey callback options s id r :
  id ≠ (generateId (world s)).1 →
  registrations (this s) !! id = Some r →
  registrations (this (register env hotkey callback options s).1) !! id = Some r.
Proof.
  unfold register, generateId, allocate. cbn. intros Hne Hr.
  destruct (env_parseHotkey env hotkey _); [|done].
  destruct (opt_target options), (env_documentDefined env); cbn.
  all: repeat (case_match; simplify_eq; cbn in * ).
  all: rewrite ensureListenersForTarget_registrations; cbn.
  all: by rewrite lookup_insert_ne.
Qed.

Lemma register_wellFormed hotkey callback options s :
  wellFormed s → wellFormed (register env hotkey callback options s).1.
Proof.
  intros [Hc Hr]. split; [by apply register_counted|].
  intros id r [Hold|(-> & Hid & Hf)]%register_lookup; rewrite register_issued.
  - destruct (Hr _ _ Hold) as (? & ? & ?). repeat split; try done.
    + apply elem_of_app. by left.
    + naive_solver.
    + naive_solver.
  - repeat split; try done.
    + apply elem_of_app. right. by left.
    + congruence.
    + congruence.
Qed.

Lemma unregister_wellFormed id s : wellFormed s → wellFormed (unregister env id s).
Proof.
  intros [Hc Hr]. destruct (unregister_keeps env id s) as [Hk Hi].
  split; [by eapply keepsCounter_counted; [apply unregister_keeps|]|].
  intros id' r. rewrite unregister_registrations, Hi.
  intros [_ H]%lookup_delete_Some. by apply Hr.
Qed.

Lemma runActions_wellFormed actions s :
  wellFormed s → wellFormed (runActions env actions s).1.
Proof.
  revert s. induction actions as [|[hotkey callback options|id] rest IH]; intros s H; simpl.
  - done.
  - pose proof (register_wellFormed hotkey callback options s H).
    destruct (register env hotkey callback options s) as [s1 [ident|e]]; [by apply IH|done].
  - apply IH. by apply unregister_wellFormed.
Qed.

(** The ids handed out stay handed out. *)
Lemma runActions_issued actions s id :
  id ∈ issued (world s) → id ∈ issued (world (runActions env actions s).1).
Proof.
  revert s. induction actions as [|[hotkey callback options|id'] rest IH]; intros s H; simpl.
  - done.
  - assert (id ∈ issued (world (register env hotkey callback options s).1)) as H1.
    { rewrite register_issued. apply elem_of_app. by left. }
    destruct (register env hotkey callback options s) as [s1 [ident|e]]; [by apply IH|done].
  - apply IH. by destruct (unregister_keeps env id' s) as [_ ->].
Qed.

(** A callback does not change a registration made before it ran: what is
    stored afterwards under an id handed out before was stored before. *)
Lemma runActions_lookup actions s id r :
  wellFormed s → id ∈ issued (world s) →
  registrations (this (runActions env actions s).1) !! id = Some r →
  registrations (this s) !! id = Some r.
Proof.
  revert s. induction actions as [|[hotkey callback options|id'] rest IH];
    intros s Hwf Hin; simpl.
  - done.
  - pose proof (register_wellFormed hotkey callback options s Hwf) as Hwf1.
    pose proof (register_lookup hotkey callback options s id) as Hl.
    pose proof (register_issued hotkey callback options s) as Hi.
    destruct (register env hotkey callback options s) as [s1 [ident|e]]; cbn in *.
    + intros H. apply IH in H; [|done|rewrite Hi; apply elem_of_app; by left].
      destruct (Hl _ H) as [|[-> _]]; [done|].
      destruct Hwf as [Hc _]. by apply generateId_fresh in Hc.
    + intros H. destruct (Hl _ H) as [|[-> _]]; [done|].
      destruct Hwf as [Hc _]. by apply generateId_fresh in Hc.
  - intros H. apply IH in H.
    + rewrite unregister_registrations in H. by apply lookup_delete_Some in H as [_ H].
    + by apply unregister_wellFormed.
    + by destruct (unregister_keeps env id' s) as [_ ->].
Qed.

Lemma setHasFired_wellFormed b id s :
  wellFormed s →
  (b = true → ∀ r, registrations (this s) !! id = Some r →
     requireReset (reg_options r) = true ∧ eventType (reg_options r) = keydown) →
  wellFormed (setThis (setRegistrations (alter (setHasFired b) id)) s).
Proof.
  intros [Hc Hr] Hb. split; [done|]. intros id' r'. cbn.
  destruct (decide (id = id')) as [<-|Hne].
  - rewrite lookup_alter_eq.
    destruct (registrations (this s) !! id) as [r|] eqn:E; [|done].
    intros [= <-]. destruct (Hr _ _ E) as (? & ? & ?).
    split; [done|]. split; [done|]. cbn. intros ->. by apply Hb.
  - rewrite lookup_alter_ne by done. apply Hr.
Qed.

Lemma processRegistration_wellFormed event target type id s :
  wellFormed s → wellFormed (processRegistration env event target type id s).1.1.
Proof.
  intros Hwf. unfold processRegistration, executeHotkeyCallback.
  destruct (registrations (this s) !! id) as [registration|] eqn:Hreg; [|done].
  pose proof (runActions_wellFormed (env_callbackBody env (reg_callback registration)) s Hwf)
    as Hwf1.
  pose proof (runActions_lookup (env_callbackBody env (reg_callback registration)) s id)
    as Hstable.
  destruct (runActions env _ s) as [s1 c]. cbn in *.
  assert (∀ r, registrations (this s1) !! id = Some r → r = registration) as Hsame.
  { intros r Hr. apply Hstable in Hr; [congruence|done|].
    destruct Hwf as [_ Hr0]. by destruct (Hr0 _ _ Hreg). }
  repeat (case_match; simplify_eq; cbn; try done).
  all: apply setHasFired_wellFormed; try done.
  all: intros _ r Hr; apply Hsame in Hr; subst r.
  all: split; [done|].
  all: by destruct (eventType (reg_options registration)).
Qed.

Lemma iterate_wellFormed fuel event target type ref index s :
  wellFormed s → wellFormed (iterate env fuel event target type ref index s).1.1.
Proof.
  revert index s. induction fuel as [|fuel IH]; intros index s H; simpl; [done|].
  destruct (setAt s ref !! index) as [[id|]|]; [|by apply IH|done].
  pose proof (processRegistration_wellFormed event target type id s H) as Hp.
  destruct (processRegistration env event target type id s) as [[s1 effects] [[]|e]]; [|done].
  specialize (IH (S index) s1 Hp).
  by destruct (iterate env fuel event target type ref (S index) s1) as [[s2 rest] o].
Qed.

Lemma processTargetEvent_wellFormed fuel event target type s :
  wellFormed s → wellFormed (processTargetEvent env fuel event target type s).1.1.
Proof.
  intros H. unfold processTargetEvent. case_match; [by apply iterate_wellFormed|done].
Qed.

Lemma destroy_wellFormed s : wellFormed s → wellFormed (destroy env s).
Proof.
  intros [Hc _]. split.
  - by eapply keepsCounter_counted; [apply destroy_keeps|].
  - intros id r. unfold destroy. cbn. by rewrite lookup_empty.
Qed.

(** The state of the live instance, or of the instance that [getInstance]
    would make. *)
Lemma getInstance_wellFormed p :
  counted (proc_world p) →
  (∀ m, proc_instance p = Some m → wellFormed {| world := proc_world p; this := m |}) →
  wellFormed (getInstance env p).
Proof.
  intros Hc Hm. unfold getInstance. destruct (proc_instance p) as [m|]; [by apply Hm|].
  split; [done|]. intros id r. cbn. by rewrite lookup_empty.
Qed.

Lemma state_eta s : {| world := world s; this := this s |} = s.
Proof. by destruct s. Qed.

Lemma call_wellFormed c p :
  (∀ m, proc_instance p = Some m → wellFormed {| world := proc_world p; this := m |}) →
  counted (proc_world p) →
  ∀ m, proc_instance (call env c p) = Some m →
       wellFormed {| world := proc_world (call env c p); this := m |}.
Proof.
  intros Hm Hc m. pose proof (getInstance_wellFormed p Hc Hm) as Hg.
  destruct c; unfold call, onInstance, resetInstance, toProcess.
  - cbn [proc_instance proc_world]. intros [= <-]. rewrite state_eta.
    by apply register_wellFormed.
  - destruct (proc_instance p) as [m0|] eqn:E; [|by rewrite E].
    cbn [proc_instance proc_world]. intros [= <-]. rewrite state_eta.
    by apply unregister_wellFormed, Hm.
  - cbn [proc_instance proc_world]. intros [= <-]. rewrite state_eta.
    by apply destroy_wellFormed.
  - destruct (proc_instance p) as [m0|] eqn:E; [done|by rewrite E].
  - destruct (proc_instance p) as [m0|] eqn:E; [|by rewrite E].
    cbn [proc_instance proc_world]. intros [= <-]. rewrite state_eta.
    by apply processTargetEvent_wellFormed, Hm.
Qed.

(** Every state that calls to the module lead to is well formed. *)
Lemma calls_wellFormed cs m :
  proc_instance (calls env cs initialProcess) = Some m →
  wellFormed {| world := proc_world (calls env cs initialProcess); this := m |}.
Proof.
  assert (∀ cs p,
    counted (proc_world p) →
    (∀ m, proc_instance p = Some m → wellFormed {| world := proc_world p; this := m |}) →
    ∀ m, proc_instance (calls env cs p) = Some m →
         wellFormed {| world := proc_world (calls env cs p); this := m |}) as H.
  { clear. intros cs. induction cs as [|c cs IH]; intros p Hc Hm; [done|].
    cbn. apply IH; [by apply call_counted|by apply call_wellFormed]. }
  apply H; [apply counted_initial|done].
Qed.

(** *** A latched registration stays silent under presses *)

Lemma executeHotkeyCallback_effects registration event s cb id :
  Called id cb ∈ (executeHotkeyCallback env registration event s).1.2 →
  id = reg_id registration.
Proof.
  unfold executeHotkeyCallback. destruct (runActions env _ s) as [s1 c]. cbn.
  repeat case_match; set_solver.
Qed.

Lemma processRegistration_latched_other event target id' id r s cb :
  wellFormed s → id ∈ issued (world s) →
  requireReset (reg_options r) = true → reg_hasFired r = true →
  (∀ r', registrations (this s) !! id = Some r' → r' = r) →
  id ∈ issued (world (processRegistration env event target keydown id' s).1.1)
  ∧ (∀ r', registrations (this (processRegistration env event target keydown id' s).1.1)
             !! id = Some r' → r' = r)
  ∧ Called id cb ∉ (processRegistration env event target keydown id' s).1.2.
Proof.
  intros Hwf Hin Hreset Hfired Hsame.
  unfold processRegistration.
  destruct (registrations (this s) !! id') as [registration|] eqn:Hreg;
    [|split; [done|split; [done|set_solver]]].
  pose proof Hwf as [Hc Hr]. destruct (Hr _ _ Hreg) as (Hin' & Hid & _).
  destruct (decide (id' = id)) as [->|Hne].
  { apply Hsame in Hreg as ->. rewrite Hreset, Hfired. cbn.
    repeat case_match; (split; [done|split; [done|set_solver]]). }
  unfold executeHotkeyCallback.
  pose proof (runActions_issued (env_callbackBody env (reg_callback registration)) s id Hin)
    as Hin1.
  pose proof (runActions_lookup (env_callbackBody env (reg_callback registration)) s id)
    as Hstable.
  destruct (runActions env _ s) as [s1 c]. cbn in *.
  assert (∀ r', registrations (this s1) !! id = Some r' → r' = r) as Hsame1.
  { intros r' Hr'. apply Hstable in Hr'; [by apply Hsame|done|done]. }
  assert (Called id cb ∉ [Called (reg_id registration) (reg_callback registration)]) as Hno.
  { intros [= -> _]%list_elem_of_singleton. congruence. }
  repeat (case_match; simplify_eq; cbn in * ).
  all: split; [done|]; split; [|set_solver].
  all: intros r'; rewrite ?lookup_alter_ne by done; try apply Hsame1; try apply Hsame.
Qed.

Lemma processRegistration_latchedOrGone event target id' id r s cb :
  latchedOrGone id r s →
  latchedOrGone id r (processRegistration env event target keydown id' s).1.1
  ∧ Called id cb ∉ (processRegistration env event target keydown id' s).1.2.
Proof.
  intros (Hwf & Hin & Hreset & Hfired & Hsame).
  destruct (processRegistration_latched_other event target id' id r s cb)
    as (? & ? & ?); try done.
  split; [|done]. split; [by apply processRegistration_wellFormed|done].
Qed.

Lemma iterate_latchedOrGone fuel event target ref index id r s cb :
  latchedOrGone id r s →
  latchedOrGone id r (iterate env fuel event target keydown ref index s).1.1
  ∧ Called id cb ∉ (iterate env fuel event target keydown ref index s).1.2.
Proof.
  revert index s. induction fuel as [|fuel IH]; intros index s H; simpl;
    [split; [done|set_solver]|].
  destruct (setAt s ref !! index) as [[id'|]|]; [|by apply IH|split; [done|set_solver]].
  destruct (processRegistration_latchedOrGone event target id' id r s cb H) as [Hp Hc].
  destruct (processRegistration env event target keydown id' s) as [[s1 effects] [[]|e]];
    cbn in *; [|split; [done|set_solver]].
  destruct (IH (S index) s1 Hp) as [Hi Hci].
  destruct (iterate env fuel event target keydown ref (S index) s1) as [[s2 rest] o].
  cbn in *. split; [done|set_solver].
Qed.

Lemma pressAll_latchedOrGone passes id r s cb :
  latchedOrGone id r s →
  latchedOrGone id r (pressAll env passes s).1 ∧ Called id cb ∉ (pressAll env passes s).2.
Proof.
  revert s. induction passes as [|[[fuel event] target] rest IH]; intros s H; simpl;
    [split; [done|set_solver]|].
  assert (latchedOrGone id r (processTargetEvent env fuel event target keydown s).1.1
          ∧ Called id cb ∉ (processTargetEvent env fuel event target keydown s).1.2)
    as [Hp Hc].
  { unfold processTargetEvent. case_match; [by apply iterate_latchedOrGone|].
    split; [done|set_solver]. }
  destruct (processTargetEvent env fuel event target keydown s) as [[s1 effects] o].
  cbn in *. destruct (IH s1 Hp) as [Hi Hci].
  destruct (pressAll env rest s1) as [s2 more]. cbn in *. split; [done|set_solver].
Qed.


(** Property X1.
    Between two releases a latched registration stays silent: over any
    number of press events, dispatched to any scopes, with callbacks that
    register and unregister as they like, its callback is not called, and
    as long as it is registered it is the same latched registration. *)
Theorem latched_registration_stays_silent cs m id registration passes callback :
  proc_instance (calls env cs initialProcess) = Some m →
  registrations m !! id = Some registration →
  reg_hasFired registration = true →
  let s := {| world := proc_world (calls env cs initialProcess); this := m |} in
  (∀ r, registrations (this (pressAll env passes s).1) !! id = Some r → r = registration)
  ∧ Called id callback ∉ (pressAll env passes s).2.
Proof.
  intros Hm Hreg Hfired s.
  pose proof (calls_wellFormed cs m Hm) as Hwf. pose proof Hwf as [_ Hr].
  destruct (Hr _ _ Hreg) as (Hin & _ & Hlatch). destruct (Hlatch Hfired) as [Hreset _].
  assert (latchedOrGone id registration s) as Hl.
  { split; [exact Hwf|]. split; [exact Hin|]. split; [exact Hreset|].
    split; [exact Hfired|]. intros r Hr'. cbn in Hr'. congruence. }
  destruct (pressAll_latchedOrGone passes id registration s callback Hl)
    as [(_ & _ & _ & _ & ?) ?].
  done.
Qed.

Lemma register_registrations hotkey callback options s id :
  (register env hotkey callback options s).2 = Normal id →
  ∃ r, registrations (this (register env hotkey callback options s).1)
       = <[id := r]> (registrations (this s)).
Proof.
  unfold register, generateId, allocate. cbn.
  destruct (env_parseHotkey env hotkey _); [|done].
  destruct (opt_target options), (env_documentDefined env); cbn.
  all: repeat (case_match; simplify_eq; cbn in * ).
  all: rewrite ensureListenersForTarget_registrations; cbn.
  all: intros [= <-]; by eexists.
Qed.

(** Property X3.
    Whatever the options, a registration that succeeds adds one to the
    number of registrations. *)
Theorem register_adds_one cs m hotkey callback options id :
  proc_instance (calls env cs initialProcess) = Some m →
  let s := {| world := proc_world (calls env cs initialProcess); this := m |} in
  (register env hotkey callback options s).2 = Normal id →
  getRegistrationCount (register env hotkey callback options s).1
  = S (getRegistrationCount s).
Proof.
  intros Hm s Hret. destruct (calls_wellFormed cs m Hm) as [Hc Hr].
  pose proof (register_uses_generateId env hotkey callback options s id Hret) as (-> & _).
  destruct (register_registrations hotkey callback options s _ Hret) as [r Hmap].
  unfold getRegistrationCount. rewrite Hmap. apply map_size_insert_None.
  destruct (registrations (this s) !! (generateId (world s)).1) as [r0|] eqn:E; [|done].
  destruct (Hr _ _ E) as (Hin & _). by apply generateId_fresh in Hc.
Qed.

End Methods.

Import Fixtures.

Lemma latchedCalls_instance :
  proc_instance (calls (browser inert) latchedCalls initialProcess) = Some (this latched).
Proof. vm_compute. reflexivity. Defined.

Lemma latchedCalls_state :
  {| world := proc_world (calls (browser inert) latchedCalls initialProcess);
     this := this latched |} = latched.
Proof. vm_compute. reflexivity. Defined.


(** The latched [Mod+S] under three more presses of Meta+s. *)
Lemma latched_registration_stays_silent_witness :
  proc_instance (calls (browser inert) latchedCalls initialProcess) = Some (this latched)
  ∧ registrations (this latched) !! "hotkey_1" = Some latchedRegistration
  ∧ reg_hasFired latchedRegistration = true
  ∧ Called "hotkey_1" 1
      ∉ (pressAll (browser inert)
           (replicate 3 (8, metaEvent "s" (Node 2) Document, Document))
           {| world := proc_world (calls (browser inert) latchedCalls initialProcess);
              this := this latched |}).2.
Proof.
  split; [exact latchedCalls_instance|].
  split; [exact RoutingFacts.latched_holds_latchedRegistration|].
  split; [reflexivity|].
  exact (proj2 (latched_registration_stays_silent (browser inert) latchedCalls
           (this latched) "hotkey_1" latchedRegistration
           (replicate 3 (8, metaEvent "s" (Node 2) Document, Document)) 1
           latchedCalls_instance RoutingFacts.latched_holds_latchedRegistration eq_refl)).
Defined.

(** One more [Mod+S] under the policy [error], in the state [latched]. *)
Lemma register_adds_one_witness :
  proc_instance (calls (browser inert) latchedCalls initialProcess) = Some (this latched)
  ∧ (register (browser inert) modS 2 (withConflictBehavior error)
       {| world := proc_world (calls (browser inert) latchedCalls initialProcess);
          this := this latched |}).2 = Normal "hotkey_2"
  ∧ getRegistrationCount
      (register (browser inert) modS 2 (withConflictBehavior error)
         {| world := proc_world (calls (browser inert) latchedCalls initialProcess);
            this := this latched |}).1
    = S (getRegistrationCount
           {| world := proc_world (calls (browser inert) latchedCalls initialProcess);
              this := this latched |}).
Proof.
  assert (H : (register (browser inert) modS 2 (withConflictBehavior error)
       {| world := proc_world (calls (browser inert) latchedCalls initialProcess);
          this := this latched |}).2 = Normal "hotkey_2") by (vm_compute; reflexivity).
  split; [exact latchedCalls_instance|]. split; [exact H|].
  exact (register_adds_one (browser inert) latchedCalls (this latched) modS 2
           (withConflictBehavior error) "hotkey_2" latchedCalls_instance H).
Defined.

End Reachability.

Module IndexFacts.
Import Dom Manager Invariant IdFacts Reachability.

Lemma elem_of_values id (set : Js.JsSet) : id ∈ Js.values set ↔ Some id ∈ set.
Proof.
  unfold Js.values. rewrite list_elem_of_omap. split.
  - by intros (x & ? & ->).
  - intros. by exists (Some id).
Qed.

Lemma values_app (set set' : Js.JsSet) :
  Js.values (set ++ set') = Js.values set ++ Js.values set'.
Proof. unfold Js.values. by rewrite omap_app. Qed.

Lemma values_add_eq id set :
  Js.values (Js.add id set)
  = if bool_decide (id ∈ Js.values set) then Js.values set else Js.values set ++ [id].
Proof.
  unfold Js.add, Js.has.
  rewrite (bool_decide_ext (id ∈ Js.values set) (Some id ∈ set)) by apply elem_of_values.
  case_bool_decide; [done|]. by rewrite values_app.
Qed.

Lemma values_delete id set :
  Js.values (Js.delete id set) = filter (λ x, x ≠ id) (Js.values set).
Proof.
  unfold Js.values, Js.delete.
  induction set as [|[x|] set IH]; [done| |done].
  - rewrite fmap_cons. destruct (decide (Some x = Some id)) as [[= ->]|Hne].
    + simpl. rewrite filter_cons_False by naive_solver. apply IH.
    + simpl. destruct (decide (Some x = Some id)); [done|]. simpl.
      rewrite filter_cons_True by naive_solver. f_equal. apply IH.
Qed.

Section Methods.
Variable env : Env.

Lemma ensureListenersForTarget_scopes target s :
  targetRegistrations (this (ensureListenersForTarget env target s))
  = targetRegistrations (this s)
  ∧ heap (world (ensureListenersForTarget env target s)) = heap (world s)
  ∧ (nextObject (world s) ≤ nextObject (world (ensureListenersForTarget env target s)))%nat.
Proof. unfold ensureListenersForTarget, allocate. repeat case_match; simplify_eq; cbn; auto. Qed.

Lemma ensureListenersForTarget_registrationSet target s t :
  registrationSet (ensureListenersForTarget env target s) t = registrationSet s t.
Proof.
  destruct (ensureListenersForTarget_scopes target s) as (Ht & Hh & _).
  unfold registrationSet, setAt. by rewrite Ht, Hh.
Qed.

Lemma register_view hotkey callback options s id :
  (∀ t ref, targetRegistrations (this s) !! t = Some ref →
     (ref < nextObject (world s))%nat) →
  (∀ t t' ref, targetRegistrations (this s) !! t = Some ref →
     targetRegistrations (this s) !! t' = Some ref → t = t') →
  (register env hotkey callback options s).2 = Normal id →
  ∃ r,
    registrations (this (register env hotkey callback options s).1)
    = <[id := r]> (registrations (this s))
    ∧ reg_id r = id ∧ reg_hotkey r = hotkey ∧ reg_callback r = callback
    ∧ reg_options r
      = resolveOptions options (default (mgr_platform (this s)) (opt_platform options))
    ∧ (∀ t, opt_target options = Some t → reg_target r = t)
    ∧ (∀ t, registrationSet (register env hotkey callback options s).1 t
            = if decide (t = reg_target r)
              then if bool_decide (id ∈ registrationSet s t) then registrationSet s t
                   else registrationSet s t ++ [id]
              else registrationSet s t)
    ∧ (∀ t ref,
         targetRegistrations (this (register env hotkey callback options s).1) !! t = Some ref →
         (ref < nextObject (world (register env hotkey callback options s).1))%nat)
    ∧ (∀ t t' ref,
         targetRegistrations (this (register env hotkey callback options s).1) !! t = Some ref →
         targetRegistrations (this (register env hotkey callback options s).1) !! t' = Some ref →
         t = t').
Proof.
  intros Hlt Hinj. unfold register, generateId. cbn.
  destruct (env_parseHotkey env hotkey _) as [parsed|]; [|done].
  destruct (opt_target options) as [t0|], (env_documentDefined env); cbn.
  all: intros [= <-].
  all: match goal with
       | Hlt : ∀ t ref, targetRegistrations (this ?s0) !! t = Some ref → _
         |- context [targetRegistrations (this ?s0) !! ?t] =>
           destruct (targetRegistrations (this s0) !! t) as [ref|] eqn:Href; cbn
       end.
  all: rewrite ?Href, ?lookup_insert_eq; cbn.
  all: eexists; split; [by rewrite ensureListenersForTarget_registrations|].
  all: cbn.
  all: split; [done|]; split; [done|]; split; [done|]; split; [done|];
    split; [by intros ? [= <-]|].
  all: rewrite ?(proj1 (ensureListenersForTarget_scopes _ _)).
  all: match goal with
       | |- context [ensureListenersForTarget env ?t ?x] =>
           pose proof (proj2 (proj2 (ensureListenersForTarget_scopes t x))) as Hle;
           cbn in Hle
       end.
  all: split; [intros t; rewrite ensureListenersForTarget_registrationSet;
               unfold registrationSet, setAt; cbn|split; cbn].
  (* the scope had a set *)
  all: try solve
    [ destruct (decide (t = _)) as [->|Hne];
      [rewrite Href, lookup_insert_eq; cbn; apply values_add_eq|];
      destruct (targetRegistrations (this s) !! t) as [ref'|] eqn:Href'; [|done];
      rewrite lookup_insert_ne; [done|]; intros <-; apply Hne; by apply (Hinj _ _ ref)
    | intros t ref0 H; apply Hlt in H; lia
    | apply Hinj ].
  (* the scope had none *)
  all: try solve
    [ destruct (decide (t = _)) as [->|Hne];
      [rewrite Href, !lookup_insert_eq; cbn; by rewrite values_add_eq|];
      rewrite lookup_insert_ne by done;
      destruct (targetRegistrations (this s) !! t) as [ref'|] eqn:Href'; [|done];
      apply Hlt in Href'; by rewrite !lookup_insert_ne by lia
    | intros t ref0 [[<- <-]|[_ H]]%lookup_insert_Some; [lia|apply Hlt in H; lia]
    | intros t1 t2 r [[<- <-]|[? H1]]%lookup_insert_Some
        [[<- Heq]|[? H2]]%lookup_insert_Some; try done;
      [apply Hlt in H2; lia|apply Hlt in H1; lia|by apply (Hinj _ _ r)] ].
Qed.

Lemma unregister_view id s r :
  (∀ t ref, targetRegistrations (this s) !! t = Some ref →
     (ref < nextObject (world s))%nat) →
  (∀ t t' ref, targetRegistrations (this s) !! t = Some ref →
     targetRegistrations (this s) !! t' = Some ref → t = t') →
  registrations (this s) !! id = Some r →
  (∀ t, registrationSet (unregister env id s) t
        = if decide (t = reg_target r) then filter (λ x, x ≠ id) (registrationSet s t)
          else registrationSet s t)
  ∧ (∀ t ref, targetRegistrations (this (unregister env id s)) !! t = Some ref →
       (ref < nextObject (world (unregister env id s)))%nat)
  ∧ (∀ t t' ref, targetRegistrations (this (unregister env id s)) !! t = Some ref →
       targetRegistrations (this (unregister env id s)) !! t' = Some ref → t = t').
Proof.
  intros Hlt Hinj Hreg. unfold unregister. rewrite Hreg. cbn.
  destruct (targetRegistrations (this s) !! reg_target r) as [ref|] eqn:Href.
  2: { split; [|done]. intros t. unfold registrationSet, setAt. cbn.
       destruct (decide (t = _)) as [->|]; [by rewrite Href|done]. }
  rewrite ScopeFacts.setAt_setHeap_eq.
  assert (∀ t,
    registrationSet
      (setWorld (setHeap <[ref := Js.delete id (setAt
         (setThis (setRegistrations (base.delete id)) s) ref)]>)
         (setThis (setRegistrations (base.delete id)) s)) t
    = if decide (t = reg_target r) then filter (λ x, x ≠ id) (registrationSet s t)
      else registrationSet s t) as Hset.
  { intros t. unfold registrationSet, setAt. cbn.
    destruct (decide (t = _)) as [->|Hne].
    - rewrite Href, lookup_insert_eq. cbn. apply values_delete.
    - destruct (targetRegistrations (this s) !! t) as [ref'|] eqn:Href'; [|done].
      rewrite lookup_insert_ne; [done|]. intros <-. apply Hne. by apply (Hinj _ _ ref). }
  case_bool_decide as Hsize; [|done].
  unfold removeListenersForTarget.
  destruct (env_documentDefined env); [|done]. cbn.
  destruct (targetListeners (this s) !! reg_target r) as [h|]; [|done].
  split; [|split]; cbn.
  - intros t. specialize (Hset t). unfold registrationSet, setAt in *. cbn in *.
    destruct (decide (t = _)) as [->|Hne].
    + rewrite lookup_delete_eq, Href. rewrite Href, lookup_insert_eq in Hset.
      cbn in Hset. rewrite <- Hset. symmetry. by apply nil_length_inv.
    + by rewrite lookup_delete_ne.
  - intros t ref' [_ H]%lookup_delete_Some. by apply (Hlt t).
  - intros t1 t2 ref' [_ H1]%lookup_delete_Some [_ H2]%lookup_delete_Some.
    by apply (Hinj _ _ ref').
Qed.

Lemma register_Throw hotkey callback options s e :
  (register env hotkey callback options s).2 = Throw e →
  (register env hotkey callback options s).1
  = {| world := (generateId (world s)).2; this := this s |}.
Proof.
  unfold register, generateId. cbn.
  destruct (env_parseHotkey env hotkey _) as [parsed|]; [|done].
  destruct (opt_target options), (env_documentDefined env); cbn.
  all: repeat (case_match; simplify_eq; cbn in * ); done.
Qed.

Lemma registered_is_issued s id r :
  wellFormed s → registrations (this s) !! id = Some r → id ∈ issued (world s).
Proof. intros [_ Hr] H. by destruct (Hr _ _ H). Qed.

Lemma fresh_not_registered s :
  wellFormed s → registrations (this s) !! (generateId (world s)).1 = None.
Proof.
  intros Hwf. destruct (registrations (this s) !! _) as [r|] eqn:E; [|done].
  apply (registered_is_issued _ _ _ Hwf) in E. destruct Hwf as [Hc _].
  by apply generateId_fresh in Hc.
Qed.

Lemma register_indexed hotkey callback options s :
  wellFormed s → indexed s → indexed (register env hotkey callback options s).1.
Proof.
  intros Hwf (Hlt & Hinj & Hnd & Hix).
  destruct (register env hotkey callback options s).2 as [id|e] eqn:Hret.
  2: { rewrite (register_Throw _ _ _ _ _ Hret). done. }
  pose proof (register_uses_generateId env hotkey callback options s id Hret) as (-> & _).
  pose proof (fresh_not_registered s Hwf) as Hfresh.
  destruct (register_view hotkey callback options s _ Hlt Hinj Hret)
    as (r & Hmap & _ & _ & _ & _ & _ & Hset & Hlt' & Hinj').
  assert (∀ t, (generateId (world s)).1 ∉ registrationSet s t) as Hnot.
  { intros t (r' & Hr' & _)%Hix. congruence. }
  split; [done|]. split; [done|]. split.
  - intros t. rewrite Hset. destruct (decide (t = _)); [|done].
    rewrite bool_decide_eq_false_2 by done. apply NoDup_app. split; [done|].
    split; [|apply NoDup_singleton]. intros x Hx ->%list_elem_of_singleton. by apply (Hnot t).
  - intros t id. rewrite Hset, Hmap. destruct (decide (t = _)) as [->|Hne].
    + rewrite bool_decide_eq_false_2 by done. rewrite elem_of_app, list_elem_of_singleton, Hix.
      split.
      * intros [(r' & Hr' & Ht)| ->].
        -- exists r'. split; [|done]. rewrite lookup_insert_ne; [done|]. congruence.
        -- exists r. by rewrite lookup_insert_eq.
      * intros (r' & [[<- <-]|[? Hr']]%lookup_insert_Some & Ht); [by right|].
        left. by exists r'.
    + rewrite Hix. split.
      * intros (r' & Hr' & Ht). exists r'. split; [|done].
        rewrite lookup_insert_ne; [done|]. congruence.
      * intros (r' & [[<- <-]|[? Hr']]%lookup_insert_Some & Ht); [done|]. by exists r'.
Qed.

Lemma unregister_indexed id s : indexed s → indexed (unregister env id s).
Proof.
  intros (Hlt & Hinj & Hnd & Hix).
  destruct (registrations (this s) !! id) as [r|] eqn:Hreg.
  2: { unfold unregister. by rewrite Hreg. }
  destruct (unregister_view id s r Hlt Hinj Hreg) as (Hset & Hlt' & Hinj').
  split; [done|]. split; [done|]. split.
  - intros t. rewrite Hset. destruct (decide (t = _)); [|done]. by apply NoDup_filter.
  - intros t id'. rewrite Hset, unregister_registrations.
    destruct (decide (t = _)) as [->|Hne].
    + rewrite list_elem_of_filter, Hix. split.
      * intros [Hne (r' & Hr' & Ht)]. exists r'. by rewrite lookup_delete_ne.
      * intros (r' & [Hne Hr']%lookup_delete_Some & Ht). split; [done|]. by exists r'.
    + rewrite Hix. split.
      * intros (r' & Hr' & Ht). exists r'. split; [|done].
        rewrite lookup_delete_ne; [done|]. congruence.
      * intros (r' & [_ Hr']%lookup_delete_Some & Ht). by exists r'.
Qed.

Lemma setHasFired_indexed b id s :
  indexed s → indexed (setThis (setRegistrations (alter (setHasFired b) id)) s).
Proof.
  intros (Hlt & Hinj & Hnd & Hix). split; [done|]. split; [done|]. split; [done|].
  intros t id'. change (registrationSet (setThis _ s) t) with (registrationSet s t).
  rewrite Hix. cbn. destruct (decide (id = id')) as [<-|Hne].
  - rewrite lookup_alter_eq. destruct (registrations (this s) !! id) as [r|]; cbn.
    + split; intros (r' & [= <-] & Ht); eexists; (split; [done|done]).
    + split; by intros (r' & [=] & _).
  - by rewrite lookup_alter_ne.
Qed.

(** *** The listeners on the page *)

Lemma register_attached hotkey callback options s :
  attached (world (register env hotkey callback options s).1) = attached (world s)
  ∨ ∃ t handlers,
      targetListeners (this s) !! t = None
      ∧ attached (world (register env hotkey callback options s).1)
        = attached (world s) ++ [(t, handlers)].
Proof.
  unfold register, generateId, ensureListenersForTarget, allocate. cbn.
  destruct (env_parseHotkey env hotkey _) as [parsed|]; [|by left].
  destruct (opt_target options), (env_documentDefined env); cbn.
  all: repeat (case_match; simplify_eq; cbn in * ); try (by left).
  all: right; eexists _, _; split; [|done].
  all: match goal with
       | H : bool_decide _ = false |- _ => apply bool_decide_eq_false in H
       end.
  all: by apply eq_None_not_Some.
Qed.

Lemma unregister_attached id s :
  attached (world (unregister env id s)) `sublist_of` attached (world s).
Proof.
  unfold unregister, removeListenersForTarget.
  repeat (case_match; simplify_eq; cbn in * ); try done.
  apply sublist_filter.
Qed.

Lemma register_tracked hotkey callback options s :
  tracked env s → tracked env (register env hotkey callback options s).1.
Proof.
  unfold tracked. intros [Hnd H]. split.
  - destruct (register_attached hotkey callback options s) as [->|(t & h & Hl & ->)];
      [done|].
    destruct (env_documentDefined env).
    + destruct H as (_ & _ & _ & I4). rewrite fmap_app. apply NoDup_app.
      split; [done|]. split; [|apply NoDup_singleton].
      intros t' [[t1 h1] [Heq Hin]]%list_elem_of_fmap [= <-]%list_elem_of_singleton.
      cbn in Heq. subst t1. apply I4 in Hin. congruence.
    + destruct H as [-> _]. apply NoDup_singleton.
  - destruct (env_documentDefined env) eqn:Hdoc.
    + by apply ScopeFacts.register_consistent.
    + destruct H as [Ha Hl]. unfold register, generateId, ensureListenersForTarget, allocate.
      rewrite Hdoc. cbn.
      destruct (env_parseHotkey env hotkey _) as [parsed|]; [|done].
      destruct (opt_target options); cbn.
      all: repeat (case_match; simplify_eq; cbn in * ); done.
Qed.

Lemma unregister_tracked id s : tracked env s → tracked env (unregister env id s).
Proof.
  unfold tracked. intros [Hnd H]. split.
  - eapply sublist_NoDup; [exact Hnd|]. apply fmap_sublist, unregister_attached.
  - destruct (env_documentDefined env) eqn:Hdoc.
    + by apply ScopeFacts.unregister_consistent.
    + destruct H as [Ha Hl]. unfold unregister, removeListenersForTarget. rewrite Hdoc. cbn.
      repeat (case_match; simplify_eq; cbn in * ); done.
Qed.

Lemma setHasFired_tracked b id s :
  tracked env s → tracked env (setThis (setRegistrations (alter (setHasFired b) id)) s).
Proof. unfold tracked. by destruct (env_documentDefined env). Qed.

Lemma removeListenersForTarget_attached target s :
  (∀ t h, (t, h) ∈ attached (world s) ↔ targetListeners (this s) !! t = Some h) →
  ∀ t h, (t, h) ∈ attached (world (removeListenersForTarget env target s))
         ↔ targetListeners (this (removeListenersForTarget env target s)) !! t = Some h.
Proof.
  intros I4. unfold removeListenersForTarget.
  destruct (env_documentDefined env); [|done]. cbn.
  destruct (targetListeners (this s) !! target) as [listeners|] eqn:Hl; [|done].
  intros t h. cbn. rewrite list_elem_of_filter, lookup_delete_Some, I4. split.
  - intros [Hne Hin]. split; [|done]. intros <-. apply Hne. congruence.
  - intros [Hne Hin]. split; [congruence|done].
Qed.

Lemma removeListenersForTarget_listeners target s t :
  targetListeners (this s) !! t = None →
  targetListeners (this (removeListenersForTarget env target s)) !! t = None.
Proof.
  intros H. unfold removeListenersForTarget.
  destruct (env_documentDefined env); [|done]. cbn.
  destruct (targetListeners (this s) !! target) as [listeners|] eqn:Hl; [|done].
  cbn. by apply lookup_delete_None; right.
Qed.

Lemma removeListenersForTarget_removes target s :
  env_documentDefined env = true →
  targetListeners (this (removeListenersForTarget env target s)) !! target = None.
Proof.
  intros Hdoc. unfold removeListenersForTarget. rewrite Hdoc. cbn.
  destruct (targetListeners (this s) !! target) as [listeners|] eqn:Hl; [|done].
  cbn. by rewrite lookup_delete_eq.
Qed.

Lemma removeAll_attached targets s :
  (∀ t h, (t, h) ∈ attached (world s) ↔ targetListeners (this s) !! t = Some h) →
  ∀ t h, (t, h) ∈ attached (world (foldr (removeListenersForTarget env) s targets))
         ↔ targetListeners (this (foldr (removeListenersForTarget env) s targets)) !! t
           = Some h.
Proof.
  induction targets as [|target targets IH]; [done|]. intros I4. cbn.
  by apply removeListenersForTarget_attached, IH.
Qed.

Lemma removeAll_listeners targets s t :
  env_documentDefined env = true →
  t ∈ targets ∨ targetListeners (this s) !! t = None →
  targetListeners (this (foldr (removeListenersForTarget env) s targets)) !! t = None.
Proof.
  intros Hdoc. induction targets as [|target targets IH]; cbn.
  - intros [H|H]; [by apply elem_of_nil in H|done].
  - intros [[->|H]%elem_of_cons|H].
    + by apply removeListenersForTarget_removes.
    + apply removeListenersForTarget_listeners, IH. by left.
    + apply removeListenersForTarget_listeners, IH. by right.
Qed.

(** [destroy] leaves no listener of the manager on the page. *)
Lemma destroy_attached s : tracked env s → attached (world (destroy env s)) = [].
Proof.
  unfold tracked, destroy. cbn. intros [_ H]. destruct (env_documentDefined env) eqn:Hdoc.
  - destruct H as (_ & _ & _ & I4).
    pose proof (removeAll_attached (map_to_list (targetListeners (this s))).*1 s I4) as H.
    destruct (attached (world (foldr _ s _))) as [|[t h] rest]; [done|].
    exfalso. pose proof (proj1 (H t h) (list_elem_of_here _ _)) as Hl.
    rewrite removeAll_listeners in Hl; [done|done|].
    destruct (targetListeners (this s) !! t) as [h'|] eqn:E; [left|by right].
    apply list_elem_of_fmap. exists (t, h'). split; [done|]. by apply elem_of_map_to_list.
  - destruct H as [Ha _].
    induction (map_to_list (targetListeners (this s))).*1 as [|t ts IH]; [done|].
    cbn. unfold removeListenersForTarget at 1. by rewrite Hdoc.
Qed.

Lemma destroy_sound s : sound env s → sound env (destroy env s).
Proof.
  intros (Hwf & Hix & Htr). pose proof (destroy_attached s Htr) as Ha.
  split; [by apply destroy_wellFormed|]. split.
  - split; [|split; [|split]]; unfold registrationSet; cbn.
    + intros t ref H. by rewrite lookup_empty in H.
    + intros t t' ref H. by rewrite lookup_empty in H.
    + intros t. rewrite lookup_empty. apply NoDup_nil_2.
    + intros t id. rewrite lookup_empty. split; [by intros ?%elem_of_nil|].
      intros (r & H & _). by rewrite lookup_empty in H.
  - unfold tracked. change (attached (world (destroy env s))) with
      (attached (world (foldr (removeListenersForTarget env) s
                          (map_to_list (targetListeners (this s))).*1))) in Ha.
    cbn. rewrite Ha. split; [apply NoDup_nil_2|].
    destruct (env_documentDefined env); [|done].
    split; [|split; [|split]]; cbn.
    + intros t. by rewrite !lookup_empty.
    + intros t ref H. by rewrite lookup_empty in H.
    + intros t t' ref H. by rewrite lookup_empty in H.
    + intros t h. rewrite lookup_empty, Ha. split; [by intros ?%elem_of_nil|done].
Qed.

(** *** Every reachable state is sound *)

Lemma register_sound hotkey callback options s :
  sound env s → sound env (register env hotkey callback options s).1.
Proof.
  intros (Hwf & Hix & Htr). split; [by apply register_wellFormed|].
  split; [by apply register_indexed|by apply register_tracked].
Qed.

Lemma unregister_sound id s : sound env s → sound env (unregister env id s).
Proof.
  intros (Hwf & Hix & Htr). split; [by apply unregister_wellFormed|].
  split; [by apply unregister_indexed|by apply unregister_tracked].
Qed.

Lemma runActions_sound actions s : sound env s → sound env (runActions env actions s).1.
Proof.
  revert s. induction actions as [|[hotkey callback options|id] rest IH]; intros s H; simpl.
  - done.
  - pose proof (register_sound hotkey callback options s H).
    destruct (register env hotkey callback options s) as [s1 [ident|e]]; [by apply IH|done].
  - apply IH. by apply unregister_sound.
Qed.

Lemma processRegistration_sound event target type id s :
  sound env s → sound env (processRegistration env event target type id s).1.1.
Proof.
  intros Hs. split; [apply processRegistration_wellFormed, Hs|].
  unfold processRegistration, executeHotkeyCallback.
  destruct (registrations (this s) !! id) as [registration|] eqn:Hreg; [|apply Hs].
  pose proof (runActions_sound (env_callbackBody env (reg_callback registration)) s Hs)
    as (_ & Hix1 & Htr1).
  destruct Hs as (_ & Hix & Htr).
  destruct (runActions env _ s) as [s1 c]. cbn in *.
  repeat (case_match; simplify_eq; cbn; try done).
  all: split; [by apply setHasFired_indexed|by apply setHasFired_tracked].
Qed.

Lemma iterate_sound fuel event target type ref index s :
  sound env s → sound env (iterate env fuel event target type ref index s).1.1.
Proof.
  revert index s. induction fuel as [|fuel IH]; intros index s H; simpl; [done|].
  destruct (setAt s ref !! index) as [[id|]|]; [|by apply IH|done].
  pose proof (processRegistration_sound event target type id s H) as Hp.
  destruct (processRegistration env event target type id s) as [[s1 effects] [[]|e]]; [|done].
  specialize (IH (S index) s1 Hp).
  by destruct (iterate env fuel event target type ref (S index) s1) as [[s2 rest] o].
Qed.

Lemma processTargetEvent_sound fuel event target type s :
  sound env s → sound env (processTargetEvent env fuel event target type s).1.1.
Proof.
  intros H. unfold processTargetEvent. case_match; [by apply iterate_sound|done].
Qed.

Lemma sound_initial : sound env (getInstance env initialProcess).
Proof.
  split; [|split].
  - split; [apply counted_initial|]. intros id r. cbn. by rewrite lookup_empty.
  - split; [|split; [|split]]; unfold registrationSet; cbn.
    + intros t ref H. by rewrite lookup_empty in H.
    + intros t t' ref H. by rewrite lookup_empty in H.
    + intros t. rewrite lookup_empty. apply NoDup_nil_2.
    + intros t id. rewrite lookup_empty. split; [by intros ?%elem_of_nil|].
      intros (r & H & _). by rewrite lookup_empty in H.
  - split; [apply NoDup_nil_2|]. destruct (env_documentDefined env); [|done].
    apply (ScopeFacts.scopesConsistent_initial env).
Qed.

Lemma getInstance_toProcess s : getInstance env (toProcess s) = s.
Proof. by destruct s. Qed.

(** After [resetInstance] the next manager starts from the empty tables. *)
Lemma resetInstance_sound p :
  sound env (getInstance env p) → sound env (getInstance env (resetInstance env p)).
Proof.
  unfold resetInstance, getInstance. destruct (proc_instance p) as [m|] eqn:E; [|by rewrite E].
  intros Hs. apply destroy_sound in Hs. cbn.
  destruct Hs as (Hwf & Hix & Htr). split; [|split].
  - split; [apply Hwf|]. intros id r. cbn. by rewrite lookup_empty.
  - exact Hix.
  - exact Htr.
Qed.

Lemma call_sound c p :
  sound env (getInstance env p) → sound env (getInstance env (call env c p)).
Proof.
  intros Hs. destruct c; unfold call, onInstance.
  - rewrite getInstance_toProcess. by apply register_sound.
  - destruct (proc_instance p) as [m|] eqn:E; [|done].
    rewrite getInstance_toProcess. unfold getInstance in Hs. rewrite E in Hs.
    by apply unregister_sound.
  - rewrite getInstance_toProcess. by apply destroy_sound.
  - by apply resetInstance_sound.
  - destruct (proc_instance p) as [m|] eqn:E; [|done].
    rewrite getInstance_toProcess. unfold getInstance in Hs. rewrite E in Hs.
    by apply processTargetEvent_sound.
Qed.

Lemma calls_sound cs p :
  sound env (getInstance env p) → sound env (getInstance env (calls env cs p)).
Proof.
  revert p. induction cs as [|c cs IH]; intros p H; [done|].
  cbn. by apply IH, call_sound.
Qed.

(** The state of the live manager, or of the one [getInstance] makes, after
    any calls to the module. *)
Lemma reachable_sound cs : sound env (getInstance env (calls env cs initialProcess)).
Proof. apply calls_sound, sound_initial. Qed.

End Methods.
End IndexFacts.

Module HistoryFacts.
Import Dom Manager Invariant IdFacts Reachability IndexFacts.

Lemma sameButLatch_refl r : sameButLatch r r.
Proof. done. Qed.

Lemma sameButLatch_trans r1 r2 r3 :
  sameButLatch r1 r2 → sameButLatch r2 r3 → sameButLatch r1 r3.
Proof. unfold sameButLatch. congruence. Qed.

Lemma sameButLatch_setHasFired b r : sameButLatch r (setHasFired b r).
Proof. done. Qed.

Lemma sameButLatch_target r r' : sameButLatch r r' → reg_target r' = reg_target r.
Proof. unfold sameButLatch. intros H. by apply (f_equal reg_target) in H. Qed.

(** The counter numbers the ids, so it has not gone back where no id has
    been lost. *)
Lemma counted_le w w' :
  counted w → counted w' → (∀ x, x ∈ issued w → x ∈ issued w') →
  (registrationIdCounter w ≤ registrationIdCounter w')%N.
Proof.
  unfold counted. intros Hw Hw' Hsub.
  destruct (decide (registrationIdCounter w = 0%N)) as [->|Hpos]; [lia|].
  assert (idOf (N.to_nat (registrationIdCounter w)) ∈ issued w) as Hin.
  { rewrite Hw. apply list_elem_of_fmap. eexists. split; [done|].
    apply elem_of_seq. lia. }
  apply Hsub in Hin. rewrite Hw' in Hin.
  apply list_elem_of_fmap in Hin as (n & Heq & Hn). apply (inj idOf) in Heq. subst n.
  apply elem_of_seq in Hn. lia.
Qed.

Section Methods.
Variable env : Env.

(** *** The ids handed out stay handed out *)

Lemma processRegistration_issued event target type id s x :
  x ∈ issued (world s) →
  x ∈ issued (world (processRegistration env event target type id s).1.1).
Proof.
  intros Hin. unfold processRegistration, executeHotkeyCallback.
  destruct (registrations (this s) !! id) as [registration|]; [|done].
  pose proof (runActions_issued env (env_callbackBody env (reg_callback registration)) s x Hin).
  destruct (runActions env _ s) as [s1 c].
  repeat (case_match; simplify_eq; cbn; try done).
Qed.

Lemma iterate_issued fuel event target type ref index s x :
  x ∈ issued (world s) →
  x ∈ issued (world (iterate env fuel event target type ref index s).1.1).
Proof.
  revert index s. induction fuel as [|fuel IH]; intros index s H; simpl; [done|].
  destruct (setAt s ref !! index) as [[id|]|]; [|by apply IH|done].
  pose proof (processRegistration_issued event target type id s x H) as Hp.
  destruct (processRegistration env event target type id s) as [[s1 effects] [[]|e]]; [|done].
  specialize (IH (S index) s1 Hp).
  by destruct (iterate env fuel event target type ref (S index) s1) as [[s2 rest] o].
Qed.

Lemma processTargetEvent_issued fuel event target type s x :
  x ∈ issued (world s) →
  x ∈ issued (world (processTargetEvent env fuel event target type s).1.1).
Proof.
  intros H. unfold processTargetEvent. case_match; [by apply iterate_issued|done].
Qed.

Lemma call_issued c p x :
  x ∈ issued (proc_world p) → x ∈ issued (proc_world (call env c p)).
Proof.
  intros H. destruct c; unfold call, onInstance, resetInstance, toProcess.
  - cbn [proc_world]. rewrite register_issued, getInstance_world. apply elem_of_app. by left.
  - destruct (proc_instance p) as [m|]; [|done]. cbn [proc_world].
    by destruct (unregister_keeps env id {| world := proc_world p; this := m |}) as [_ ->].
  - cbn [proc_world]. destruct (destroy_keeps env (getInstance env p)) as [_ ->].
    by rewrite getInstance_world.
  - destruct (proc_instance p) as [m|]; [|done]. cbn [proc_world].
    by destruct (destroy_keeps env {| world := proc_world p; this := m |}) as [_ ->].
  - destruct (proc_instance p) as [m|]; [|done]. cbn [proc_world].
    by apply (processTargetEvent_issued _ _ _ _ {| world := proc_world p; this := m |}).
Qed.

Lemma calls_issued cs p x :
  x ∈ issued (proc_world p) → x ∈ issued (proc_world (calls env cs p)).
Proof.
  revert p. induction cs as [|c cs IH]; intros p H; [done|].
  apply IH. by apply call_issued.
Qed.

(** *** An id names one registration for good *)

(** What is held under an id that had been handed out before a step was held
    under it before the step, the latch apart. *)
Lemma processRegistration_lookup event target type id' s id r' :
  wellFormed s → id ∈ issued (world s) →
  registrations (this (processRegistration env event target type id' s).1.1) !! id = Some r' →
  ∃ r, registrations (this s) !! id = Some r ∧ sameButLatch r r'.
Proof.
  intros Hwf Hin. unfold processRegistration, executeHotkeyCallback.
  destruct (registrations (this s) !! id') as [registration|] eqn:Hreg;
    [|intros H; by exists r'].
  pose proof (runActions_lookup env (env_callbackBody env (reg_callback registration)) s id)
    as Hstable.
  destruct (runActions env _ s) as [s1 c]. cbn in Hstable.
  assert (∀ b r1 sx,
    (∀ r, registrations (this sx) !! id = Some r → registrations (this s) !! id = Some r) →
    alter (setHasFired b) id' (registrations (this sx)) !! id = Some r1 →
    ∃ r, registrations (this s) !! id = Some r ∧ sameButLatch r r1) as Halter.
  { intros b r1 sx Hsx. destruct (decide (id' = id)) as [->|Hne].
    - rewrite lookup_alter_eq.
      destruct (registrations (this sx) !! id) as [r0|] eqn:E; [|done].
      intros [= <-]. exists r0. split; [by apply Hsx|done].
    - rewrite lookup_alter_ne by done. intros Hl. exists r1. split; [by apply Hsx|done]. }
  repeat (case_match; simplify_eq; cbn).
  all: try (intros Hlook; exists r'; split; [done || by apply Hstable|done]).
  all: apply Halter; try done.
  all: intros r Hr; by apply Hstable.
Qed.

Lemma iterate_lookup fuel event target type ref index s id r' :
  wellFormed s → id ∈ issued (world s) →
  registrations (this (iterate env fuel event target type ref index s).1.1) !! id = Some r' →
  ∃ r, registrations (this s) !! id = Some r ∧ sameButLatch r r'.
Proof.
  revert index s. induction fuel as [|fuel IH]; intros index s Hwf Hin; simpl;
    [intros H; by exists r'|].
  destruct (setAt s ref !! index) as [[id'|]|]; [|by apply IH|intros H; by exists r'].
  pose proof (processRegistration_wellFormed env event target type id' s Hwf) as Hwf1.
  pose proof (processRegistration_issued event target type id' s id Hin) as Hin1.
  pose proof (processRegistration_lookup event target type id' s id) as Hp.
  destruct (processRegistration env event target type id' s) as [[s1 effects] [[]|e]];
    cbn [fst snd] in *; [|by apply Hp].
  specialize (IH (S index) s1 Hwf1 Hin1).
  destruct (iterate env fuel event target type ref (S index) s1) as [[s2 rest] o].
  cbn [fst snd] in *. intros H. destruct (IH H) as (r1 & H1 & Hs1).
  destruct (Hp r1 Hwf Hin H1) as (r & Hr & Hs). exists r. split; [done|].
  by eapply sameButLatch_trans.
Qed.

Lemma processTargetEvent_lookup fuel event target type s id r' :
  wellFormed s → id ∈ issued (world s) →
  registrations (this (processTargetEvent env fuel event target type s).1.1) !! id = Some r' →
  ∃ r, registrations (this s) !! id = Some r ∧ sameButLatch r r'.
Proof.
  intros Hwf Hin. unfold processTargetEvent.
  destruct (targetRegistrations (this s) !! target);
    [by apply iterate_lookup|intros Hl; by exists r'].
Qed.

Lemma call_lookup c p id r' :
  wellFormed (getInstance env p) → id ∈ issued (proc_world p) →
  registrations (this (getInstance env (call env c p))) !! id = Some r' →
  ∃ r, registrations (this (getInstance env p)) !! id = Some r ∧ sameButLatch r r'.
Proof.
  intros Hwf Hin. destruct c; unfold call, onInstance.
  - rewrite getInstance_toProcess.
    intros [H|[-> _]]%register_lookup; [by exists r'|].
    destruct Hwf as [Hc _]. apply generateId_fresh in Hc.
    destruct Hc. by rewrite getInstance_world in Hin |- *.
  - destruct (proc_instance p) as [m|] eqn:E; [|intros H; by exists r'].
    rewrite getInstance_toProcess, unregister_registrations.
    intros [_ H]%lookup_delete_Some. exists r'. unfold getInstance. by rewrite E.
  - rewrite getInstance_toProcess. unfold destroy. cbn. by rewrite lookup_empty.
  - unfold resetInstance. destruct (proc_instance p) as [m|] eqn:E;
      [|intros H; by exists r'].
    unfold getInstance. cbn. by rewrite lookup_empty.
  - destruct (proc_instance p) as [m|] eqn:E; [|intros H; by exists r'].
    rewrite getInstance_toProcess. unfold getInstance in *. rewrite E in *.
    by apply processTargetEvent_lookup.
Qed.

Lemma calls_lookup cs p id r' :
  sound env (getInstance env p) → id ∈ issued (proc_world p) →
  registrations (this (getInstance env (calls env cs p))) !! id = Some r' →
  ∃ r, registrations (this (getInstance env p)) !! id = Some r ∧ sameButLatch r r'.
Proof.
  revert p. induction cs as [|c cs IH]; intros p Hs Hin; [intros H; by exists r'|].
  cbn. intros H.
  destruct (IH (call env c p) (call_sound env c p Hs) (call_issued c p id Hin) H)
    as (r1 & H1 & Hs1).
  destruct (call_lookup c p id r1 (proj1 Hs) Hin H1) as (r & Hr & Hsame).
  exists r. split; [done|]. by eapply sameButLatch_trans.
Qed.

(** A call that registers and any calls after it, as one course of calls. *)
Lemma calls_after_register cs hotkey callback options cs' :
  calls env cs' (toProcess (register env hotkey callback options
                              (getInstance env (calls env cs initialProcess))).1)
  = calls env (cs ++ CallRegister hotkey callback options :: cs') initialProcess.
Proof. unfold calls. by rewrite foldl_app. Qed.

(** The id of a registration made now is not returned, and not held by any
    registration, at any later time. *)
Lemma later_ids_differ cs' s hotkey callback options :
  sound env s →
  let s1 := (register env hotkey callback options s).1 in
  let s' := getInstance env (calls env cs' (toProcess s1)) in
  (registrationIdCounter (world s) < registrationIdCounter (world s1))%N
  ∧ (registrationIdCounter (world s1) ≤ registrationIdCounter (world s'))%N
  ∧ (generateId (world s)).1 ∈ issued (world s')
  ∧ (generateId (world s')).1 ≠ (generateId (world s)).1
  ∧ (∀ r', registrations (this s') !! (generateId (world s)).1 = Some r' →
       ∃ r, registrations (this s1) !! (generateId (world s)).1 = Some r
            ∧ sameButLatch r r').
Proof.
  intros Hs s1 s'.
  pose proof (register_sound env hotkey callback options s Hs) as Hs1. fold s1 in Hs1.
  assert (sound env (getInstance env (toProcess s1))) as Hp
    by (by rewrite getInstance_toProcess).
  pose proof (calls_sound env cs' _ Hp) as Hs'. fold s' in Hs'.
  assert ((generateId (world s)).1 ∈ issued (world s1)) as Hin.
  { unfold s1. rewrite register_issued. apply elem_of_app. right. by left. }
  assert ((generateId (world s)).1 ∈ issued (world s')) as Hin'.
  { unfold s'. rewrite getInstance_world. by apply calls_issued. }
  split; [|split; [|split; [done|split]]].
  - unfold s1. destruct (register_keeps env hotkey callback options s) as [-> _]. cbn. lia.
  - apply counted_le; [apply Hs1|apply Hs'|].
    intros x Hx. unfold s'. rewrite getInstance_world. by apply calls_issued.
  - intros Heq. destruct Hs' as ((Hc & _) & _). apply generateId_fresh in Hc.
    by rewrite Heq in Hc.
  - intros r' H. unfold s' in H. apply calls_lookup in H; [|done|done].
    by rewrite getInstance_toProcess in H.
Qed.

End Methods.
End HistoryFacts.

Module ScopeSetFacts.
Import Dom Manager Invariant IdFacts Reachability IndexFacts HistoryFacts.

Section Methods.
Variable env : Env.

(** *** The scope table over a registration and an unregistration *)

Lemma register_scopeTable hotkey callback options s :
  let s1 := (register env hotkey callback options s).1 in
  (nextObject (world s) ≤ nextObject (world s1))%nat
  ∧ (∀ t ref, targetRegistrations (this s) !! t = Some ref →
       targetRegistrations (this s1) !! t = Some ref)
  ∧ (∀ t ref, targetRegistrations (this s1) !! t = Some ref →
       targetRegistrations (this s) !! t = Some ref ∨ (nextObject (world s) ≤ ref)%nat)
  ∧ (∀ ref, (ref < nextObject (world s))%nat →
       (∀ t, targetRegistrations (this s1) !! t ≠ Some ref) →
       heap (world s1) !! ref = heap (world s) !! ref).
Proof.
  unfold register, generateId. cbn.
  destruct (env_parseHotkey env hotkey _) as [parsed|]; [|cbn; naive_solver].
  pose proof (eq_refl (this s)) as Hs.
  destruct (opt_target options) as [t0|], (env_documentDefined env); cbn.
  all: match goal with
       | Hs : this ?s0 = _ |- context [targetRegistrations (this ?s0) !! ?t] =>
           destruct (targetRegistrations (this s0) !! t) as [r|] eqn:Href; cbn
       end.
  all: rewrite ?Href, ?lookup_insert_eq; cbn.
  all: match goal with
       | |- context [ensureListenersForTarget env ?t ?x] =>
           destruct (ensureListenersForTarget_scopes env t x) as (Ht & Hh & Hle);
           rewrite Ht, Hh; cbn in Hle |- *
       end.
  all: split; [lia|]; split; [|split].
  all: try (intros t ref H; done).
  all: try (intros t ref H; by left).
  all: try (intros t ref H; destruct (decide (t = Document)) as [->|Hne];
            [congruence|by rewrite lookup_insert_ne]).
  all: try (intros t ref H;
            match goal with
            | |- <[?k := _]> _ !! _ = _ =>
                destruct (decide (t = k)) as [->|Hne];
                [congruence|by rewrite lookup_insert_ne]
            end).
  all: try (intros t ref [[<- <-]|[_ H]]%lookup_insert_Some; [right; lia|by left]).
  all: intros ref Hlt Hno.
  all: try (rewrite lookup_insert_ne; [done|]; intros <-;
            match goal with
            | Href : targetRegistrations _ !! ?t = Some _ |- _ => by apply (Hno t)
            end).
  all: rewrite !lookup_insert_ne by lia; done.
Qed.

(** *** The [Set] that a pass goes through *)

Lemma register_setOf hotkey callback options target ref s :
  setOf target ref s → setOf target ref (register env hotkey callback options s).1.
Proof.
  intros [Hlt H].
  destruct (register_scopeTable hotkey callback options s) as (Hle & Hold & Hnew & Hheap).
  split; [lia|]. destruct H as [H|[Hno Hnil]]; [left; by apply Hold|right].
  assert (∀ t, targetRegistrations (this (register env hotkey callback options s).1) !! t
               ≠ Some ref) as Hno1.
  { intros t Ht. destruct (Hnew _ _ Ht) as [Ht'|Hge]; [by apply (Hno t)|lia]. }
  split; [done|]. unfold setAt. rewrite (Hheap ref Hlt Hno1). exact Hnil.
Qed.

Lemma unregister_setOf id target ref s :
  (∀ t t' r, targetRegistrations (this s) !! t = Some r →
     targetRegistrations (this s) !! t' = Some r → t = t') →
  setOf target ref s → setOf target ref (unregister env id s).
Proof.
  intros Hinj [Hlt H]. unfold unregister.
  destruct (registrations (this s) !! id) as [registration|]; [|done]. cbn.
  destruct (targetRegistrations (this s) !! reg_target registration) as [ref0|] eqn:Href0;
    [|done].
  set (t0 := reg_target registration) in *.
  rewrite ScopeFacts.setAt_setHeap_eq.
  assert (setOf target ref
            (setWorld (setHeap <[ref0 := Js.delete id
                         (setAt (setThis (setRegistrations (base.delete id)) s) ref0)]>)
               (setThis (setRegistrations (base.delete id)) s))) as Hkept.
  { split; [done|]. destruct H as [H|[Hno Hnil]]; [by left|right]. split; [done|].
    rewrite ScopeFacts.setAt_setHeap_ne; [done|]. intros <-. by apply (Hno t0). }
  case_bool_decide as Hsize; [|done].
  unfold removeListenersForTarget. destruct (env_documentDefined env); [|done]. cbn.
  destruct (targetListeners (this s) !! t0) as [h|]; [|done].
  split; [done|]. cbn.
  destruct H as [H|[Hno Hnil]].
  - destruct (decide (target = t0)) as [->|Hne].
    + right. assert (ref = ref0) as -> by congruence. split.
      * intros t [Hne Ht]%lookup_delete_Some. apply Hne. by apply (Hinj _ _ ref0).
      * unfold setAt. cbn. rewrite lookup_insert_eq. cbn. by apply nil_length_inv.
    + left. by rewrite lookup_delete_ne.
  - right. split.
    + intros t [_ Ht]%lookup_delete_Some. by apply (Hno t).
    + unfold setAt. cbn. rewrite lookup_insert_ne; [done|]. intros <-. by apply (Hno t0).
Qed.

Lemma runActions_setOf actions target ref s :
  sound env s → setOf target ref s → setOf target ref (runActions env actions s).1.
Proof.
  revert s. induction actions as [|[hotkey callback options|id] rest IH];
    intros s Hs Hset; simpl.
  - done.
  - pose proof (register_sound env hotkey callback options s Hs) as Hs1.
    pose proof (register_setOf hotkey callback options target ref s Hset) as Hset1.
    destruct (register env hotkey callback options s) as [s1 [ident|e]]; [by apply IH|done].
  - apply IH; [by apply unregister_sound|].
    apply unregister_setOf; [|done]. by destruct Hs as (_ & (_ & ? & _) & _).
Qed.

Lemma processRegistration_setOf event target' type id target ref s :
  sound env s → setOf target ref s →
  setOf target ref (processRegistration env event target' type id s).1.1.
Proof.
  intros Hs Hset. unfold processRegistration, executeHotkeyCallback.
  destruct (registrations (this s) !! id) as [registration|]; [|done].
  pose proof (runActions_setOf (env_callbackBody env (reg_callback registration))
                target ref s Hs Hset) as H1.
  destruct (runActions env _ s) as [s1 c]. cbn in H1.
  repeat (case_match; simplify_eq; cbn; try done).
Qed.

(** *** The registrations that a pass calls *)

Lemma processRegistration_boundTo event target' type id' s id target :
  wellFormed s → boundTo id target s →
  boundTo id target (processRegistration env event target' type id' s).1.1.
Proof.
  intros Hwf [Hin Hb]. split; [by apply processRegistration_issued|].
  intros r' (r & Hr & Hsame)%processRegistration_lookup; [|done|done].
  rewrite (sameButLatch_target _ _ Hsame). by apply Hb.
Qed.

Lemma iterate_boundTo fuel event target' type ref index s id target :
  wellFormed s → boundTo id target s →
  boundTo id target (iterate env fuel event target' type ref index s).1.1.
Proof.
  intros Hwf [Hin Hb]. split; [by apply iterate_issued|].
  intros r' (r & Hr & Hsame)%iterate_lookup; [|done|done].
  rewrite (sameButLatch_target _ _ Hsame). by apply Hb.
Qed.

Lemma processRegistration_called event target type id s id' callback :
  wellFormed s →
  Called id' callback ∈ (processRegistration env event target type id s).1.2 → id' = id.
Proof.
  intros [_ Hr]. unfold processRegistration.
  destruct (registrations (this s) !! id) as [registration|] eqn:Hreg;
    [|by intros ?%elem_of_nil].
  destruct (Hr _ _ Hreg) as (_ & Hid & _).
  pose proof (executeHotkeyCallback_effects env registration event s callback id') as He.
  destruct (executeHotkeyCallback env registration event s) as [[s1 effects] c].
  cbn [fst snd] in He.
  repeat (case_match; simplify_eq; cbn [fst snd]).
  all: try (by intros ?%elem_of_nil).
  all: rewrite ?elem_of_cons, ?elem_of_nil; intros Hin; destruct_or?; simplify_eq.
  all: try done.
  all: by apply He.
Qed.

(** Every registration that the loop calls is bound to the scope of the
    pass, and stays so to the end of the pass. *)
Lemma iterate_within fuel event target type ref index s id callback :
  sound env s → setOf target ref s →
  Called id callback ∈ (iterate env fuel event target type ref index s).1.2 →
  boundTo id target (iterate env fuel event target type ref index s).1.1.
Proof.
  revert index s. induction fuel as [|fuel IH]; intros index s Hs Hset; simpl;
    [by intros ?%elem_of_nil|].
  destruct (setAt s ref !! index) as [[id'|]|] eqn:Hat;
    [|by apply IH|by intros ?%elem_of_nil].
  assert (boundTo id' target s) as Hb.
  { assert (id' ∈ Js.values (setAt s ref)) as Hin
      by (apply elem_of_values; by eapply list_elem_of_lookup_2).
    destruct Hset as [_ [Href|[_ Hnil]]]; [|rewrite Hnil in Hin; by apply elem_of_nil in Hin].
    destruct Hs as (Hwf & (_ & _ & _ & Hix) & _).
    assert (id' ∈ registrationSet s target) as (r & Hr & Ht)%Hix
      by (unfold registrationSet; by rewrite Href).
    split; [by eapply registered_is_issued|]. intros r' Hr'. congruence. }
  pose proof (processRegistration_sound env event target type id' s Hs) as Hs1.
  pose proof (processRegistration_setOf event target type id' target ref s Hs Hset) as Hset1.
  pose proof (processRegistration_boundTo event target type id' s id' target (proj1 Hs) Hb)
    as Hb1.
  pose proof (processRegistration_called event target type id' s id callback (proj1 Hs))
    as Hcalled.
  destruct (processRegistration env event target type id' s) as [[s1 effects] [[]|e]];
    cbn [fst snd] in *.
  2: { rewrite elem_of_cons. intros [[=]|Hin]. by rewrite (Hcalled Hin). }
  pose proof (iterate_boundTo fuel event target type ref (S index) s1 id' target
                (proj1 Hs1) Hb1) as Hb2.
  specialize (IH (S index) s1 Hs1 Hset1).
  destruct (iterate env fuel event target type ref (S index) s1) as [[s2 rest] o].
  cbn [fst snd] in *.
  rewrite elem_of_cons, elem_of_app. intros [[=]|[Hin|Hin]]; [|by apply IH].
  by rewrite (Hcalled Hin).
Qed.

End Methods.
End ScopeSetFacts.

Module ManagerFacts.
Import Dom Manager Invariant IdFacts Reachability IndexFacts HistoryFacts ScopeSetFacts.

Lemma prevented_app e1 e2 : prevented (e1 ++ e2) = (prevented e1 + prevented e2)%nat.
Proof. induction e1 as [|[] e1 IH]; cbn; lia. Qed.

Lemma stopped_app e1 e2 : stopped (e1 ++ e2) = (stopped e1 + stopped e2)%nat.
Proof. induction e1 as [|[] e1 IH]; cbn; lia. Qed.

Lemma fired_app e1 e2 : Spec.fired (e1 ++ e2) = Spec.fired e1 ++ Spec.fired e2.
Proof. unfold Spec.fired. by rewrite omap_app. Qed.

Section Methods.
Variable env : Env.

(** *** Suppression comes with a call *)

Lemma processRegistration_suppressions event target type id s :
  (prevented (processRegistration env event target type id s).1.2
   ≤ length (Spec.fired (processRegistration env event target type id s).1.2))%nat
  ∧ (stopped (processRegistration env event target type id s).1.2
     ≤ length (Spec.fired (processRegistration env event target type id s).1.2))%nat.
Proof.
  unfold processRegistration, executeHotkeyCallback.
  destruct (registrations (this s) !! id) as [registration|]; [|cbn; lia].
  destruct (runActions env _ s) as [s1 c].
  repeat (case_match; simplify_eq; cbn); lia.
Qed.

Lemma iterate_suppressions fuel event target type ref index s :
  (prevented (iterate env fuel event target type ref index s).1.2
   ≤ length (Spec.fired (iterate env fuel event target type ref index s).1.2))%nat
  ∧ (stopped (iterate env fuel event target type ref index s).1.2
     ≤ length (Spec.fired (iterate env fuel event target type ref index s).1.2))%nat.
Proof.
  revert index s. induction fuel as [|fuel IH]; intros index s; simpl; [lia|].
  destruct (setAt s ref !! index) as [[id|]|]; [|by apply IH|cbn; lia].
  pose proof (processRegistration_suppressions event target type id s) as Hp.
  destruct (processRegistration env event target type id s) as [[s1 effects] [[]|e]];
    cbn [fst snd] in *; [|done].
  specialize (IH (S index) s1).
  destruct (iterate env fuel event target type ref (S index) s1) as [[s2 rest] o].
  cbn [fst snd] in *.
  change (Iterated id :: effects ++ rest) with ([Iterated id] ++ effects ++ rest).
  rewrite !prevented_app, !stopped_app, !fired_app, !length_app. cbn. lia.
Qed.

(** Property X10.
    In one dispatch pass the default action of the event is prevented, and
    its propagation stopped, at most once for every callback that is called:
    an event that triggers no callback is left alone. *)
Theorem suppression_comes_with_a_call fuel event target type s :
  let effects := (processTargetEvent env fuel event target type s).1.2 in
  (prevented effects ≤ length (Spec.fired effects))%nat
  ∧ (stopped effects ≤ length (Spec.fired effects))%nat.
Proof.
  unfold processTargetEvent. cbn.
  destruct (targetRegistrations (this s) !! target); [|cbn; lia].
  apply iterate_suppressions.
Qed.

(** *** The tables of the manager in every reachable state *)

(** Property X4.
    After any calls to the module, the [Set] of a scope lists, each once,
    the ids of the registrations held for that scope and nothing else: the
    registrations a dispatch pass goes through are the live registrations of
    its scope. *)
Theorem scope_sets_index_the_registrations cs target id :
  let s := getInstance env (calls env cs initialProcess) in
  NoDup (registrationSet s target)
  ∧ (id ∈ registrationSet s target
     ↔ ∃ registration, registrations (this s) !! id = Some registration
                       ∧ reg_target registration = target).
Proof.
  cbn. destruct (reachable_sound env cs) as (_ & (_ & _ & Hnd & Hix) & _).
  split; [apply Hnd|apply Hix].
Qed.

Lemma sound_listeners s target :
  sound env s →
  listenersAttached s target
  ↔ env_documentDefined env = true ∧ registrationSet s target ≠ [].
Proof.
  intros (_ & _ & _ & Htr). destruct (env_documentDefined env) eqn:Hdoc.
  - rewrite (ScopeFacts.consistent_listeners_iff_registrations s target Htr). naive_solver.
  - destruct Htr as [Ha _]. unfold listenersAttached. rewrite Ha. split; [|naive_solver].
    intros [h H]. by apply elem_of_nil in H.
Qed.

Lemma filter_eq_none {A} `{EqDecision A} (x : A) (l : list A) :
  x ∉ l → filter (λ y, y = x) l = [].
Proof.
  induction l as [|y l IH]; [done|]. intros [Hne Hnot]%not_elem_of_cons.
  rewrite filter_cons_False by (by intros ->). by apply IH.
Qed.

Lemma filter_eq_once {A} `{EqDecision A} (x : A) (l : list A) :
  NoDup l → x ∈ l → length (filter (λ y, y = x) l) = 1%nat.
Proof.
  induction 1 as [|y l Hy Hnd IH]; [by intros ?%elem_of_nil|].
  intros [->|Hin]%elem_of_cons.
  - rewrite filter_cons_True by done. by rewrite filter_eq_none.
  - rewrite filter_cons_False; [by apply IH|]. by intros ->.
Qed.

Lemma sound_keeps_listeners s target :
  sound env s →
  is_Some (targetListeners (this s) !! target)
  ↔ env_documentDefined env = true ∧ registrationSet s target ≠ [].
Proof.
  intros Hs. rewrite <- (sound_listeners s target Hs). destruct Hs as (_ & _ & _ & Htr).
  unfold listenersAttached. destruct (env_documentDefined env).
  - destruct Htr as (_ & _ & _ & I4). split.
    + intros [h Hh]. exists h. by apply I4.
    + intros [h Hh]. exists h. by apply I4.
  - destruct Htr as [-> ->]. rewrite lookup_empty. split; [by intros [? ?]|].
    intros [h Hh]. by apply elem_of_nil in Hh.
Qed.

Lemma sound_listener_attached s target handlers :
  sound env s →
  targetListeners (this s) !! target = Some handlers →
  env_documentDefined env = true ∧ (target, handlers) ∈ attached (world s).
Proof.
  intros (_ & _ & _ & Htr) Hl. destruct (env_documentDefined env).
  - destruct Htr as (_ & _ & _ & I4). split; [done|]. by apply I4.
  - destruct Htr as [_ He]. by rewrite He, lookup_empty in Hl.
Qed.

(** Property X5.
    After any calls to the module (registrations, unregistrations, events
    with callbacks that register and unregister, destroy and reset), the
    manager keeps a pair of listeners for a scope exactly if there is a
    document and it holds a registration for the scope; and the pair it
    keeps for the scope is attached to the scope on the page, once. *)
Theorem one_listener_pair_per_scope cs target :
  let s := getInstance env (calls env cs initialProcess) in
  (is_Some (targetListeners (this s) !! target)
   ↔ env_documentDefined env = true ∧ registrationSet s target ≠ [])
  ∧ (∀ handlers,
       targetListeners (this s) !! target = Some handlers →
       length (filter (λ l, l = (target, handlers)) (attached (world s))) = 1%nat).
Proof.
  cbn. pose proof (reachable_sound env cs) as Hs. split; [by apply sound_keeps_listeners|].
  intros handlers Hl. apply filter_eq_once.
  - destruct Hs as (_ & _ & Hnd & _). by apply NoDup_fmap_1 in Hnd.
  - by destruct (sound_listener_attached _ _ _ Hs Hl).
Qed.

(** *** Tearing the manager down *)

Lemma removeListenersForTarget_other target s t :
  t ≠ target →
  targetListeners (this (removeListenersForTarget env target s)) !! t
  = targetListeners (this s) !! t.
Proof.
  intros Hne. unfold removeListenersForTarget. repeat case_match; try done.
  cbn. by rewrite lookup_delete_ne.
Qed.

Lemma removeAll_other targets s t :
  t ∉ targets →
  targetListeners (this (foldr (removeListenersForTarget env) s targets)) !! t
  = targetListeners (this s) !! t.
Proof.
  induction targets as [|t' targets IH]; [done|]. intros [Hne Hnot]%not_elem_of_cons.
  cbn. rewrite removeListenersForTarget_other by done. by apply IH.
Qed.

Lemma filter_all {A} (P : A → Prop) `{!∀ x, Decision (P x)} (l : list A) :
  (∀ x, P x) → filter P l = l.
Proof.
  intros HP. induction l as [|x l IH]; [done|]. rewrite filter_cons_True by done.
  by rewrite IH.
Qed.

(** Taking the listeners of some scopes off, one scope after the other,
    takes off the pairs that the manager keeps for these scopes and no
    other pair. *)
Lemma removeAll_filter targets s :
  env_documentDefined env = true → NoDup targets →
  attached (world (foldr (removeListenersForTarget env) s targets))
  = filter (λ l, ¬ (l.1 ∈ targets ∧ targetListeners (this s) !! l.1 = Some l.2))
      (attached (world s)).
Proof.
  intros Hdoc. induction targets as [|t targets IH]; intros Hnd.
  - cbn. symmetry. apply filter_all. intros l [Hin _]. by apply elem_of_nil in Hin.
  - apply NoDup_cons in Hnd as [Hnot Hnd]. cbn [foldr].
    unfold removeListenersForTarget at 1. rewrite Hdoc. cbn [negb].
    rewrite removeAll_other by done.
    destruct (targetListeners (this s) !! t) as [h|] eqn:Hl; cbn.
    + rewrite IH by done. rewrite list_filter_filter. apply list_filter_iff.
      intros [t' h']. cbn. rewrite elem_of_cons. split.
      * intros [Hne Hno] [[->|Hin] Hk]; [|by apply Hno].
        apply Hne. congruence.
      * intros Hno. split.
        -- intros [= -> ->]. apply Hno. split; [by left|done].
        -- intros [Hin Hk]. apply Hno. split; [by right|done].
    + rewrite IH by done. apply list_filter_iff. intros [t' h']. cbn.
      rewrite elem_of_cons. split.
      * intros Hno [[->|Hin] Hk]; [congruence|by apply Hno].
      * intros Hno [Hin Hk]. apply Hno. split; [by right|done].
Qed.

(** [destroy] takes off the page the pairs of listeners that the manager
    keeps, and no other pair, in any state of the manager and whatever else
    is attached. *)
Lemma destroy_filter s :
  env_documentDefined env = true →
  attached (world (destroy env s))
  = filter (λ l, targetListeners (this s) !! l.1 ≠ Some l.2) (attached (world s)).
Proof.
  intros Hdoc. unfold destroy. cbn.
  rewrite removeAll_filter; [|done|apply NoDup_fst_map_to_list].
  apply list_filter_iff. intros [t h]. cbn. split.
  - intros Hno Hk. apply Hno. split; [|done].
    apply list_elem_of_fmap. exists (t, h). split; [done|]. by apply elem_of_map_to_list.
  - intros Hno [_ Hk]. by apply Hno.
Qed.

(** Property X6.
    Where there is a document, [destroy] takes off the page the pairs of
    listeners that the manager keeps and no other listener, in any state of
    the manager and whatever else is attached to the page; it leaves the
    manager without registrations, without listeners and without [Set]s.
    [resetInstance] does this to the live manager and drops it. *)
Theorem teardown_detaches_every_listener s :
  env_documentDefined env = true →
  attached (world (destroy env s))
  = filter (λ l, targetListeners (this s) !! l.1 ≠ Some l.2) (attached (world s))
  ∧ getRegistrationCount (destroy env s) = 0
  ∧ targetListeners (this (destroy env s)) = ∅
  ∧ targetRegistrations (this (destroy env s)) = ∅
  ∧ resetInstance env (toProcess s)
    = {| proc_world := world (destroy env s); proc_instance := None |}.
Proof.
  intros Hdoc. split; [by apply destroy_filter|]. split; [done|]. split; [done|].
  split; [done|]. unfold resetInstance, toProcess. cbn [proc_instance proc_world].
  by rewrite state_eta.
Qed.

(** *** Registering and unregistering *)

Lemma register_then_unregister_sound hotkey callback options s id :
  sound env s →
  (register env hotkey callback options s).2 = Normal id →
  sameRegistrations s (unregister env id (register env hotkey callback options s).1).
Proof.
  intros Hs Hret. pose proof Hs as (Hwf & (Hlt & Hinj & Hnd & Hix) & _).
  pose proof (register_sound env hotkey callback options s Hs)
    as (_ & (Hlt1 & Hinj1 & _ & _) & _).
  pose proof (register_uses_generateId env hotkey callback options s id Hret) as (-> & _).
  pose proof (fresh_not_registered s Hwf) as Hfresh.
  destruct (register_view env hotkey callback options s _ Hlt Hinj Hret)
    as (r & Hmap & _ & _ & _ & _ & _ & Hset & _).
  assert (registrations (this (register env hotkey callback options s).1)
            !! (generateId (world s)).1 = Some r) as Hr
    by (by rewrite Hmap, lookup_insert_eq).
  destruct (unregister_view env _ _ r Hlt1 Hinj1 Hr) as (Hset' & _).
  split.
  - rewrite unregister_registrations, Hmap. by apply delete_insert_id.
  - intros t. rewrite Hset', Hset. destruct (decide (t = _)) as [->|]; [|done].
    assert ((generateId (world s)).1 ∉ registrationSet s (reg_target r)) as Hnot.
    { intros (r' & Hr' & _)%Hix. congruence. }
    rewrite bool_decide_eq_false_2 by done. rewrite filter_app.
    rewrite filter_cons_False, filter_nil, app_nil_r by naive_solver.
    induction (registrationSet s (reg_target r)) as [|x l IH]; [done|].
    apply not_elem_of_cons in Hnot as [Hne Hnot].
    rewrite filter_cons_True by done. f_equal. by apply IH.
Qed.

(** Property X7.
    After any calls to the module, a registration that succeeds followed by
    the unregistration of the id it returned leaves the manager as it was:
    the same registrations, the same ids in every scope, the same answers of
    [isRegistered], and listeners on the same scopes. *)
Theorem register_then_unregister_restores cs hotkey callback options id :
  let s := getInstance env (calls env cs initialProcess) in
  (register env hotkey callback options s).2 = Normal id →
  let s' := unregister env id (register env hotkey callback options s).1 in
  registrations (this s') = registrations (this s)
  ∧ (∀ target, registrationSet s' target = registrationSet s target)
  ∧ (∀ text, isRegistered text s' = isRegistered text s)
  ∧ (∀ target, listenersAttached s' target ↔ listenersAttached s target).
Proof.
  intros s Hret s'. pose proof (reachable_sound env cs) as Hs.
  destruct (register_then_unregister_sound _ _ _ _ _ Hs Hret) as [Hmap Hset].
  fold s s' in Hmap, Hset.
  split; [done|]. split; [done|]. split.
  - intros text. unfold isRegistered. by rewrite Hmap.
  - intros target. rewrite !sound_listeners, Hset; [done|done|].
    by apply unregister_sound, register_sound.
Qed.

(** Property X8.
    After any calls to the module, a registration of a descriptor given as
    a string makes [isRegistered] answer true for this very string and
    leaves its answer for every other string as it was. *)
Theorem isRegistered_after_register cs hotkey callback options id text :
  let s := getInstance env (calls env cs initialProcess) in
  (register env (Hotkey.HotkeyString hotkey) callback options s).2 = Normal id →
  isRegistered text (register env (Hotkey.HotkeyString hotkey) callback options s).1
  = bool_decide (text = hotkey) || isRegistered text s.
Proof.
  intros s Hret. pose proof (reachable_sound env cs) as Hs. fold s in Hs.
  pose proof Hs as (Hwf & (Hlt & Hinj & _ & _) & _).
  pose proof (register_uses_generateId env _ callback options _ id Hret) as (-> & _).
  pose proof (fresh_not_registered _ Hwf) as Hfresh.
  destruct (register_view env _ callback options _ _ Hlt Hinj Hret)
    as (r & Hmap & _ & Hhotkey & _).
  unfold isRegistered. rewrite Hmap, <- bool_decide_or. apply bool_decide_ext.
  rewrite map_Exists_insert by done. rewrite Hhotkey. naive_solver.
Qed.

(** Property X9.
    After any calls to the module, only a registration that is triggered on
    press and has [requireReset] set is ever latched: for a registration
    triggered on release the option has no effect. *)
Theorem latch_needs_press_and_requireReset cs id registration :
  let s := getInstance env (calls env cs initialProcess) in
  registrations (this s) !! id = Some registration →
  reg_hasFired registration = true →
  eventType (reg_options registration) = keydown
  ∧ requireReset (reg_options registration) = true.
Proof.
  cbn. intros Hreg Hfired. destruct (reachable_sound env cs) as ((_ & Hr) & _).
  destruct (Hr _ _ Hreg) as (_ & _ & H). by destruct (H Hfired).
Qed.

(** Property X12.
    The function that [register] returns may be called any number of
    times: unregistering an id a second time changes nothing. *)
Theorem unregister_twice id s :
  unregister env id (unregister env id s) = unregister env id s.
Proof.
  pose proof (unregister_registrations env id s) as H.
  unfold unregister at 1. by rewrite H, lookup_delete_eq.
Qed.

(** Property X13.
    After any calls to the module, a registration that fails on its
    descriptor leaves the manager and the page as they were, and the id that
    the failed call drew from the counter is used up: it is in the history
    of the ids handed out, which never holds an id twice, and whatever calls
    follow, no registration is ever held under it and no registration
    returns it. *)
Theorem failed_register_only_uses_up_an_id cs cs' hotkey callback options e :
  let s := getInstance env (calls env cs initialProcess) in
  (register env hotkey callback options s).2 = Throw e →
  let s1 := (register env hotkey callback options s).1 in
  let s' := getInstance env (calls env cs' (toProcess s1)) in
  this s1 = this s
  ∧ heap (world s1) = heap (world s)
  ∧ attached (world s1) = attached (world s)
  ∧ issued (world s1) = issued (world s) ++ [(generateId (world s)).1]
  ∧ NoDup (issued (world s'))
  ∧ registrations (this s') !! (generateId (world s)).1 = None
  ∧ ∀ hotkey' callback' options' id,
      (register env hotkey' callback' options' s').2 = Normal id →
      id ≠ (generateId (world s)).1.
Proof.
  intros s Hret s1 s'. pose proof (reachable_sound env cs) as Hs. fold s in Hs.
  pose proof (register_Throw env _ _ _ _ _ Hret) as Hs1. fold s1 in Hs1.
  destruct (later_ids_differ env cs' s hotkey callback options Hs)
    as (_ & _ & _ & Hne & Hstable).
  fold s1 in Hstable. fold s1 s' in Hne. fold s' in Hstable.
  assert (registrations (this s1) !! (generateId (world s)).1 = None) as Hfresh.
  { rewrite Hs1. cbn. apply fresh_not_registered, Hs. }
  assert (sound env s') as Hs'.
  { apply calls_sound. rewrite getInstance_toProcess. by apply register_sound. }
  split; [by rewrite Hs1|]. split; [by rewrite Hs1|]. split; [by rewrite Hs1|].
  split; [apply register_issued|]. split; [apply counted_NoDup, Hs'|]. split.
  - destruct (registrations (this s') !! (generateId (world s)).1) as [r'|] eqn:E;
      [|done].
    destruct (Hstable r' eq_refl) as (r & Hr & _). congruence.
  - intros hotkey' callback' options' id Hret'.
    by pose proof (register_uses_generateId env _ _ _ _ _ Hret') as (-> & _).
Qed.

(** *** Ids are unique *)

(** Claim C10.  Take any course of calls to the module (registrations,
    unregistrations, events with their callbacks, destroy, resetInstance), a
    registration made after it, any further course of calls, and a
    registration made after that, on the same manager or on the one that
    [getInstance] makes after a reset.  The second registration gets another
    id than the first.  The id of a registration is [hotkey_] and the value
    of the module-level counter, which every registration raises and which
    nothing lowers or clears; it is the id of no registration held when it is
    handed out; the registration is stored under it; and whatever is held
    under this id at any later time is this very registration, so that no
    registration made meanwhile, by a callback either, has got the same id.
    Every call of [register], those that callbacks make included, adds its
    id to the history of the ids handed out, and the history never holds an
    id twice. *)
Theorem registration_ids_are_unique
    cs cs' hotkey callback options id hotkey' callback' options' id' :
  let s := getInstance env (calls env cs initialProcess) in
  let s1 := (register env hotkey callback options s).1 in
  let s' := getInstance env (calls env cs' (toProcess s1)) in
  (register env hotkey callback options s).2 = Normal id →
  (register env hotkey' callback' options' s').2 = Normal id' →
  id' ≠ id
  ∧ id = "hotkey_" +:+ pretty (registrationIdCounter (world s1))
  ∧ (registrationIdCounter (world s) < registrationIdCounter (world s1))%N
  ∧ (registrationIdCounter (world s1) ≤ registrationIdCounter (world s'))%N
  ∧ registrations (this s) !! id = None
  ∧ reg_id <$> registrations (this s1) !! id = Some id
  ∧ (∀ r', registrations (this s') !! id = Some r' →
       ∃ r, registrations (this s1) !! id = Some r ∧ sameButLatch r r')
  ∧ issued (world s1) = issued (world s) ++ [id]
  ∧ id ∈ issued (world s')
  ∧ NoDup (issued (world s')).
Proof.
  intros s s1 s' Hret Hret'. pose proof (reachable_sound env cs) as Hs. fold s in Hs.
  pose proof (register_uses_generateId env _ _ _ _ _ Hret) as (-> & Hissued & Hstored).
  pose proof (register_uses_generateId env _ _ _ _ _ Hret') as (-> & _).
  destruct (later_ids_differ env cs' s hotkey callback options Hs)
    as (Hlt & Hle & Hin & Hne & Hstable).
  fold s1 in Hlt, Hle, Hstable. fold s1 s' in Hne. fold s' in Hle, Hstable, Hin.
  split; [done|]. split.
  { unfold s1. by destruct (register_keeps env hotkey callback options s) as [-> _]. }
  split; [done|]. split; [done|]. split; [apply fresh_not_registered, Hs|].
  split; [done|]. split; [done|]. split; [done|]. split; [done|].
  assert (sound env s') as Hs'.
  { apply calls_sound. rewrite getInstance_toProcess. by apply register_sound. }
  apply counted_NoDup, Hs'.
Qed.

(** *** A pass stays within its scope *)

Lemma register_setAt hotkey callback options s ref x :
  x ∈ Js.values (setAt (register env hotkey callback options s).1 ref) →
  x ∈ Js.values (setAt s ref) ∨ x = (generateId (world s)).1.
Proof.
  unfold register, generateId. cbn.
  destruct (env_parseHotkey env hotkey _) as [parsed|]; [|by left].
  pose proof (eq_refl (this s)) as Hs.
  destruct (opt_target options) as [t0|], (env_documentDefined env); cbn.
  all: match goal with
       | Hs : this ?s0 = _ |- context [targetRegistrations (this ?s0) !! ?t] =>
           destruct (targetRegistrations (this s0) !! t) as [r|] eqn:Href; cbn
       end.
  all: rewrite ?Href, ?lookup_insert_eq; cbn.
  all: match goal with
       | |- context [ensureListenersForTarget env ?t ?x] =>
           unfold setAt at 1;
           rewrite (proj1 (proj2 (ensureListenersForTarget_scopes env t x)))
       end.
  all: unfold setAt; cbn.
  all: rewrite ?lookup_insert_eq; cbn.
  all: match goal with
       | |- context [<[?r0 := _]> _ !! ?r1] =>
           destruct (decide (r0 = r1)) as [Heq|Hne];
           [rewrite ?Heq, ?lookup_insert_eq|rewrite ?lookup_insert_ne by done]
       end; cbn.
  all: rewrite ?values_add_eq; try case_bool_decide; cbn.
  all: set_solver.
Qed.

Lemma unregister_setAt id s ref x :
  x ∈ Js.values (setAt (unregister env id s) ref) → x ∈ Js.values (setAt s ref).
Proof.
  unfold unregister, removeListenersForTarget, setAt.
  repeat (case_match; simplify_eq; cbn in * ); try done.
  all: match goal with
       | |- context [<[?r0 := _]> _ !! ?r1] =>
           destruct (decide (r0 = r1)) as [->|Hne];
           [rewrite !lookup_insert_eq|rewrite !lookup_insert_ne by done]
       end; cbn; try done.
  all: rewrite values_delete; by intros [_ ?]%list_elem_of_filter.
Qed.

Lemma runActions_keeps_out actions s id ref :
  wellFormed s → id ∈ issued (world s) →
  id ∉ Js.values (setAt s ref) →
  id ∉ Js.values (setAt (runActions env actions s).1 ref).
Proof.
  revert s. induction actions as [|[hotkey callback options|id'] rest IH];
    intros s Hwf Hin Hout; simpl.
  - done.
  - pose proof (register_wellFormed env hotkey callback options s Hwf) as Hwf1.
    pose proof (register_issued env hotkey callback options s) as Hi.
    pose proof (register_setAt hotkey callback options s ref id) as Hs.
    assert (id ≠ (generateId (world s)).1) as Hne.
    { intros ->. destruct Hwf as [Hc _]. by apply generateId_fresh in Hc. }
    destruct (register env hotkey callback options s) as [s1 [ident|e]]; cbn in *.
    + apply IH; [done|rewrite Hi; apply elem_of_app; by left|naive_solver].
    + naive_solver.
  - apply IH.
    + by apply unregister_wellFormed.
    + by destruct (unregister_keeps env id' s) as [_ ->].
    + intros H. by apply unregister_setAt in H.
Qed.

Lemma processRegistration_keeps_out event target type id' s id ref callback :
  wellFormed s → id ∈ issued (world s) →
  id ∉ Js.values (setAt s ref) → id' ≠ id →
  id ∈ issued (world (processRegistration env event target type id' s).1.1)
  ∧ (id ∉ Js.values (setAt (processRegistration env event target type id' s).1.1 ref))
  ∧ (Called id callback ∉ (processRegistration env event target type id' s).1.2).
Proof.
  intros Hwf Hin Hout Hne. unfold processRegistration.
  destruct (registrations (this s) !! id') as [registration|] eqn:Hreg;
    [|split; [done|split; [done|set_solver]]].
  pose proof Hwf as [_ Hr]. destruct (Hr _ _ Hreg) as (_ & Hid & _).
  unfold executeHotkeyCallback.
  pose proof (runActions_issued env (env_callbackBody env (reg_callback registration)) s id Hin)
    as Hin1.
  pose proof (runActions_keeps_out (env_callbackBody env (reg_callback registration)) s id ref
                Hwf Hin Hout) as Hout1.
  destruct (runActions env _ s) as [s1 c]. cbn in *.
  assert (Called id callback ∉ [Called (reg_id registration) (reg_callback registration)])
    as Hno.
  { intros [= -> _]%list_elem_of_singleton. congruence. }
  repeat (case_match; simplify_eq; cbn in * ).
  all: split; [done|]; split; [done|set_solver].
Qed.

Lemma iterate_keeps_out fuel event target type ref index s id callback :
  wellFormed s → id ∈ issued (world s) →
  id ∉ Js.values (setAt s ref) →
  Called id callback ∉ (iterate env fuel event target type ref index s).1.2.
Proof.
  revert index s. induction fuel as [|fuel IH]; intros index s Hwf Hin Hout; simpl;
    [set_solver|].
  destruct (setAt s ref !! index) as [[id'|]|] eqn:Hat; [|by apply IH|set_solver].
  assert (id' ≠ id) as Hne.
  { intros ->. apply Hout, elem_of_values. by eapply list_elem_of_lookup_2. }
  pose proof (processRegistration_wellFormed env event target type id' s Hwf) as Hwf1.
  destruct (processRegistration_keeps_out event target type id' s id ref callback
              Hwf Hin Hout Hne) as (Hin1 & Hout1 & Hno).
  destruct (processRegistration env event target type id' s) as [[s1 effects] [[]|e]];
    cbn in *; [|set_solver].
  specialize (IH (S index) s1 Hwf1 Hin1 Hout1).
  destruct (iterate env fuel event target type ref (S index) s1) as [[s2 rest] o].
  cbn in *. set_solver.
Qed.

(** Property X11.
    After any calls to the module, a dispatch pass for one scope calls only
    callbacks of registrations of that scope, whatever the callbacks of the
    pass register and unregister meanwhile.  A registration that the pass
    calls was in the [Set] of the scope when the pass began, or it was made
    during the pass; and a registration held under its id, when the pass
    begins or when it ends, is bound to the scope of the pass.  So a
    registration that is held for another scope, before or after, is not
    called. *)
Theorem pass_stays_within_its_scope cs fuel event target type id callback :
  let s := getInstance env (calls env cs initialProcess) in
  let pass := processTargetEvent env fuel event target type s in
  Called id callback ∈ pass.1.2 →
  (id ∈ registrationSet s target ∨ id ∉ issued (world s))
  ∧ (∀ registration,
       registrations (this s) !! id = Some registration →
       reg_target registration = target)
  ∧ (∀ registration,
       registrations (this pass.1.1) !! id = Some registration →
       reg_target registration = target).
Proof.
  intros s pass Hcalled. pose proof (reachable_sound env cs) as Hs. fold s in Hs.
  pose proof Hs as (Hwf & (Hlt & _ & _ & Hix) & _).
  unfold pass, processTargetEvent in *.
  destruct (targetRegistrations (this s) !! target) as [ref|] eqn:Href;
    [|by apply elem_of_nil in Hcalled].
  assert (id ∈ registrationSet s target ∨ id ∉ issued (world s)) as Hfirst.
  { destruct (decide (id ∈ issued (world s))) as [Hin|]; [left|by right].
    unfold registrationSet. rewrite Href.
    destruct (decide (id ∈ Js.values (setAt s ref))) as [|Hout]; [done|].
    by destruct (iterate_keeps_out fuel event target type ref 0 s id callback Hwf Hin Hout). }
  split; [done|]. split.
  - intros registration Hreg. destruct Hfirst as [(r & Hr & Ht)%Hix|Hout]; [congruence|].
    destruct Hout. by eapply registered_is_issued.
  - assert (setOf target ref s) as Hset by (split; [by eapply Hlt|by left]).
    by destruct (iterate_within env fuel event target type ref 0 s id callback Hs Hset Hcalled).
Qed.

End Methods.

Import Fixtures.

Lemma latchedCalls_registration :
  registrations (this (getInstance (browser inert)
                         (calls (browser inert) latchedCalls initialProcess)))
    !! "hotkey_1" = Some latchedRegistration.
Proof. vm_compute. reflexivity. Defined.

(** One more hotkey on the division, registered and unregistered again in
    the state with the latched [Mod+S]. *)
Lemma register_then_unregister_restores_witness :
  let s := getInstance (browser inert) (calls (browser inert) latchedCalls initialProcess) in
  (register (browser inert) modS 2 (onTarget (Node 2)) s).2 = Normal "hotkey_2"
  ∧ registrations
      (this (unregister (browser inert) "hotkey_2"
               (register (browser inert) modS 2 (onTarget (Node 2)) s).1))
    = registrations (this s).
Proof.
  assert (H : (register (browser inert) modS 2 (onTarget (Node 2))
                 (getInstance (browser inert)
                    (calls (browser inert) latchedCalls initialProcess))).2
              = Normal "hotkey_2") by (vm_compute; reflexivity).
  split; [exact H|].
  exact (proj1 (register_then_unregister_restores (browser inert) latchedCalls modS 2
                  (onTarget (Node 2)) "hotkey_2" H)).
Defined.

(** [Escape] registered beside the latched [Mod+S]. *)
Lemma isRegistered_after_register_witness :
  let s := getInstance (browser inert) (calls (browser inert) latchedCalls initialProcess) in
  (register (browser inert) (Hotkey.HotkeyString "Escape") 2 noOptions s).2
  = Normal "hotkey_2"
  ∧ isRegistered "Escape"
      (register (browser inert) (Hotkey.HotkeyString "Escape") 2 noOptions s).1
    = bool_decide ("Escape" = "Escape") || isRegistered "Escape" s.
Proof.
  assert (H : (register (browser inert) (Hotkey.HotkeyString "Escape") 2 noOptions
                 (getInstance (browser inert)
                    (calls (browser inert) latchedCalls initialProcess))).2
              = Normal "hotkey_2") by (vm_compute; reflexivity).
  split; [exact H|].
  exact (isRegistered_after_register (browser inert) latchedCalls "Escape" 2 noOptions
           "hotkey_2" "Escape" H).
Defined.

(** A descriptor with an unknown modifier, in the state with the latched
    [Mod+S]; later the manager is reset and [Mod+S] is registered anew. *)
Lemma failed_register_only_uses_up_an_id_witness :
  let s := getInstance (browser inert) (calls (browser inert) latchedCalls initialProcess) in
  let s1 := (register (browser inert) (Hotkey.HotkeyString "Hyper+S") 2 noOptions s).1 in
  let s' := getInstance (browser inert)
              (calls (browser inert) [CallResetInstance; CallRegister modS 3 noOptions]
                 (toProcess s1)) in
  (register (browser inert) (Hotkey.HotkeyString "Hyper+S") 2 noOptions s).2
  = Throw ParseError
  ∧ this s1 = this s
  ∧ registrations (this s') !! "hotkey_2" = None.
Proof.
  assert (H : (register (browser inert) (Hotkey.HotkeyString "Hyper+S") 2 noOptions
                 (getInstance (browser inert)
                    (calls (browser inert) latchedCalls initialProcess))).2
              = Throw ParseError) by (vm_compute; reflexivity).
  pose proof (failed_register_only_uses_up_an_id (browser inert) latchedCalls
                [CallResetInstance; CallRegister modS 3 noOptions]
                (Hotkey.HotkeyString "Hyper+S") 2 noOptions ParseError H) as T.
  split; [exact H|]. split; [exact (proj1 T)|].
  exact (proj1 (proj2 (proj2 (proj2 (proj2 (proj2 T)))))).
Defined.

(** [Mod+S] registered first of all; then an event, a reset of the manager
    and one more registration; then [Mod+S] registered again. *)
Lemma registration_ids_are_unique_witness :
  let s := getInstance (browser inert) (calls (browser inert) [] initialProcess) in
  let s1 := (register (browser inert) modS 1 latching s).1 in
  let s' := getInstance (browser inert)
              (calls (browser inert)
                 [CallDispatch 8 (metaEvent "s" (Node 2) Document) Document keydown;
                  CallResetInstance; CallRegister modS 2 noOptions]
                 (toProcess s1)) in
  (register (browser inert) modS 1 latching s).2 = Normal "hotkey_1"
  ∧ (register (browser inert) modS 3 noOptions s').2 = Normal "hotkey_3"
  ∧ "hotkey_3" ≠ "hotkey_1".
Proof.
  assert (H1 : (register (browser inert) modS 1 latching
                  (getInstance (browser inert) (calls (browser inert) [] initialProcess))).2
               = Normal "hotkey_1") by (vm_compute; reflexivity).
  assert (H2 : (register (browser inert) modS 3 noOptions
                  (getInstance (browser inert)
                     (calls (browser inert)
                        [CallDispatch 8 (metaEvent "s" (Node 2) Document) Document keydown;
                         CallResetInstance; CallRegister modS 2 noOptions]
                        (toProcess
                           (register (browser inert) modS 1 latching
                              (getInstance (browser inert)
                                 (calls (browser inert) [] initialProcess))).1)))).2
               = Normal "hotkey_3") by (vm_compute; reflexivity).
  split; [exact H1|]. split; [exact H2|].
  exact (proj1 (registration_ids_are_unique (browser inert) []
                  [CallDispatch 8 (metaEvent "s" (Node 2) Document) Document keydown;
                   CallResetInstance; CallRegister modS 2 noOptions]
                  modS 1 latching "hotkey_1" modS 3 noOptions "hotkey_3" H1 H2)).
Defined.

(** The manager with the latched [Mod+S] is destroyed: its listeners on the
    document were the only ones on the page. *)
Lemma teardown_detaches_every_listener_witness :
  env_documentDefined (browser inert) = true
  ∧ attached (world latched) = [(Document, 1)]
  ∧ attached (world (destroy (browser inert) latched))
    = filter (λ l, targetListeners (this latched) !! l.1 ≠ Some l.2)
        (attached (world latched))
  ∧ attached (world (destroy (browser inert) latched)) = [].
Proof.
  split; [reflexivity|]. split; [vm_compute; reflexivity|]. split.
  - exact (proj1 (teardown_detaches_every_listener (browser inert) latched eq_refl)).
  - vm_compute. reflexivity.
Defined.

(** The latched [Mod+S]. *)
Lemma latch_needs_press_and_requireReset_witness :
  registrations (this (getInstance (browser inert)
                         (calls (browser inert) latchedCalls initialProcess)))
    !! "hotkey_1" = Some latchedRegistration
  ∧ reg_hasFired latchedRegistration = true
  ∧ eventType (reg_options latchedRegistration) = keydown
  ∧ requireReset (reg_options latchedRegistration) = true.
Proof.
  split; [exact latchedCalls_registration|]. split; [reflexivity|].
  exact (latch_needs_press_and_requireReset (browser inert) latchedCalls "hotkey_1"
           latchedRegistration latchedCalls_registration eq_refl).
Defined.

(** [Mod+S] is registered on the document and on the division; a press of
    Meta+s that comes from the division is handled by the listener of the
    document, which calls the first and not the second. *)
Lemma pass_stays_within_its_scope_witness :
  let s := getInstance (browser inert)
             (calls (browser inert)
                [CallRegister modS 1 noOptions; CallRegister modS 2 (onTarget (Node 2))]
                initialProcess) in
  let pass := processTargetEvent (browser inert) 8 (metaEvent "s" (Node 2) Document)
                Document keydown s in
  Called "hotkey_1" 1 ∈ pass.1.2
  ∧ "hotkey_1" ∈ registrationSet s Document
  ∧ pass.1.2 = [Iterated "hotkey_1"; MatcherConsulted "hotkey_1"; Called "hotkey_1" 1].
Proof.
  assert (H : Called "hotkey_1" 1
              ∈ (processTargetEvent (browser inert) 8 (metaEvent "s" (Node 2) Document)
                   Document keydown
                   (getInstance (browser inert)
                      (calls (browser inert)
                         [CallRegister modS 1 noOptions;
                          CallRegister modS 2 (onTarget (Node 2))]
                         initialProcess))).1.2).
  { vm_compute. apply elem_of_cons. right. apply elem_of_cons. right. apply list_elem_of_here. }
  split; [exact H|]. split.
  - destruct (proj1 (pass_stays_within_its_scope (browser inert)
                       [CallRegister modS 1 noOptions;
                        CallRegister modS 2 (onTarget (Node 2))]
                       8 (metaEvent "s" (Node 2) Document) Document keydown "hotkey_1" 1 H))
      as [Hin|Hout]; [exact Hin|].
    exfalso. apply Hout. vm_compute. apply list_elem_of_here.
  - vm_compute. reflexivity.
Defined.

End ManagerFacts.

Module FormatFacts.
Import Hotkey Invariant ParseFacts.

Lemma modifierTokens_inj p q :
  modifierTokens p = modifierTokens q →
  ph_ctrl p = ph_ctrl q ∧ ph_alt p = ph_alt q ∧ ph_shift p = ph_shift q
  ∧ ph_meta p = ph_meta q.
Proof.
  unfold modifierTokens.
  destruct (ph_ctrl p), (ph_alt p), (ph_shift p), (ph_meta p),
    (ph_ctrl q), (ph_alt q), (ph_shift q), (ph_meta q); cbn; intros H; by simplify_eq.
Qed.

(** Property X14.
    [formatParsedHotkey] tells parsed hotkeys apart: two parsed hotkeys
    whose keys hold no [+] and that are formatted to the same string are the
    same hotkey, key and modifiers. *)
Theorem formatParsedHotkey_inj p q :
  occurs "+" (ph_key p) = false → occurs "+" (ph_key q) = false →
  formatParsedHotkey p = formatParsedHotkey q → p = q.
Proof.
  intros Hp Hq Heq. apply (f_equal (Js.split "+")) in Heq.
  rewrite !split_formatParsedHotkey in Heq by done.
  apply app_inj_tail in Heq as [(? & ? & ? & ?)%modifierTokens_inj ?].
  destruct p, q; cbn in *; by simplify_eq.
Qed.

(** [Control+Alt+S], given with its flags in two ways. *)
Lemma formatParsedHotkey_inj_witness :
  occurs "+" "S" = false
  ∧ formatParsedHotkey
      {| ph_key := "S"; ph_ctrl := true; ph_shift := false; ph_alt := true;
         ph_meta := false |}
    = formatParsedHotkey
        {| ph_key := "S"; ph_ctrl := negb false; ph_shift := negb true;
           ph_alt := negb false; ph_meta := negb true |}
  ∧ {| ph_key := "S"; ph_ctrl := true; ph_shift := false; ph_alt := true;
       ph_meta := false |}
    = {| ph_key := "S"; ph_ctrl := negb false; ph_shift := negb true;
         ph_alt := negb false; ph_meta := negb true |}.
Proof.
  split; [reflexivity|]. split; [reflexivity|].
  exact (formatParsedHotkey_inj
           {| ph_key := "S"; ph_ctrl := true; ph_shift := false; ph_alt := true;
              ph_meta := false |}
           {| ph_key := "S"; ph_ctrl := negb false; ph_shift := negb true;
              ph_alt := negb false; ph_meta := negb true |}
           eq_refl eq_refl eq_refl).
Defined.

End FormatFacts.

Module HookFacts.
Import Dom Manager Invariant IdFacts Reachability IndexFacts ManagerFacts UseHotkey.

Lemma sameRegistrations_refl s : sameRegistrations s s.
Proof. by split. Qed.

Lemma sameRegistrations_trans s1 s2 s3 :
  sameRegistrations s1 s2 → sameRegistrations s2 s3 → sameRegistrations s1 s3.
Proof.
  intros [H1 H1'] [H2 H2']. split; [congruence|]. intros t. by rewrite H2', H1'.
Qed.

Section Hook.
Variable env : Env.
Variable wrapper : CallbackRef.

Lemma resolveTarget_Resolved currentTarget t :
  resolveTarget env currentTarget = Resolved t →
  t = Document ∨ t = Window ∨ ∃ n, t = Node n ∧ isHTMLElement (env_page env) n = true.
Proof.
  unfold resolveTarget. intros H.
  repeat (case_match; simplify_eq; cbn in * ); naive_solver.
Qed.

Lemma resolveTarget_browser currentTarget :
  env_documentDefined env = true → ∃ t, resolveTarget env currentTarget = Resolved t.
Proof.
  unfold resolveTarget. intros ->. cbn.
  repeat (case_match; simplify_eq; cbn in * ); eauto.
Qed.

Lemma register_Throw_same hotkey callback options s e :
  (register env hotkey callback options s).2 = Throw e →
  sameRegistrations s (register env hotkey callback options s).1.
Proof. intros H. by rewrite (register_Throw env _ _ _ _ _ H). Qed.

Lemma holds_initial p :
  sound env (getInstance env p) → holds env wrapper (getInstance env p) None p.
Proof. intros H. split; [done|]. apply sameRegistrations_refl. Qed.

(** The pending cleanup, called: what the effect registered is gone. *)
Lemma runCleanup_holds base previous h p :
  cleanup h = previous ≫= cleanup →
  holds env wrapper base previous p →
  holds env wrapper base None (runCleanup env h p).
Proof.
  intros Hc [Hs Hp]. unfold runCleanup. rewrite Hc.
  destruct (previous ≫= cleanup) as [id|]; [|by split].
  destruct Hp as (s & text & options & target & Hs0 & Hsame & Hret & _ & ->).
  unfold onInstance. cbn [proc_instance toProcess proc_world].
  rewrite state_eta. split; cbn [mbind option_bind].
  - rewrite getInstance_toProcess. by apply unregister_sound, register_sound.
  - rewrite getInstance_toProcess. eapply sameRegistrations_trans; [exact Hsame|].
    by apply register_then_unregister_sound.
Qed.

Lemma effect_holds base options h p :
  holds env wrapper base None p →
  holds env wrapper base
    (Some {| callbackRef := callbackRef (effect env wrapper options h p).1.1;
             hotkeyRef := hotkeyRef (effect env wrapper options h p).1.1;
             targetRef := targetRef (effect env wrapper options h p).1.1;
             resolvedTargetRef := resolvedTargetRef (effect env wrapper options h p).1.1;
             dependencies := dependencies h;
             cleanup := match (effect env wrapper options h p).2 with
                        | Cleanup id => Some id
                        | _ => None
                        end |})
    (effect env wrapper options h p).1.2.
Proof.
  intros [Hs Hp]. cbn in Hp. unfold effect.
  destruct (negb _); [by split|].
  destruct (resolveTarget env (targetRef h)) as [target| |] eqn:Ht; [|by split|by split].
  pose proof (register_sound env (Hotkey.HotkeyString (hotkeyString (hotkeyRef h))) wrapper
                (registerOptions options target) _ Hs) as Hs1.
  destruct (register env _ wrapper _ (getInstance env p)) as [s1 [id|e]] eqn:Hreg;
    cbn [fst snd] in *.
  - split; [by rewrite getInstance_toProcess|]. cbn [mbind option_bind cleanup].
    exists (getInstance env p), (hotkeyString (hotkeyRef h)), options, target.
    rewrite Hreg. split; [done|]. split; [done|]. split; [done|].
    split; [by eapply resolveTarget_Resolved|done].
  - split; [by rewrite getInstance_toProcess|]. cbn [mbind option_bind cleanup].
    rewrite getInstance_toProcess. eapply sameRegistrations_trans; [exact Hp|].
    pose proof (register_Throw_same (Hotkey.HotkeyString (hotkeyString (hotkeyRef h)))
                  wrapper (registerOptions options target) (getInstance env p) e) as H.
    rewrite Hreg in H. by apply H.
Qed.

Lemma holds_cleanup base h h' p :
  h ≫= cleanup = h' ≫= cleanup → holds env wrapper base h p → holds env wrapper base h' p.
Proof. unfold holds. by intros ->. Qed.

Lemma render_holds base r previous p :
  holds env wrapper base previous p →
  holds env wrapper base (Some (render env wrapper r previous p).1.1)
    (render env wrapper r previous p).1.2.
Proof.
  intros H. unfold render. case_bool_decide.
  - cbn [fst snd]. by eapply holds_cleanup; [|exact H].
  - match goal with
    | |- context [runCleanup env ?h0 p] =>
        pose proof (runCleanup_holds base previous h0 p eq_refl H) as H1;
        pose proof (effect_holds base (r_options r) h0 (runCleanup env h0 p) H1) as H2;
        destruct (effect env wrapper (r_options r) h0 (runCleanup env h0 p))
          as [[h2 p2] result]
    end.
    cbn [fst snd] in *. by eapply holds_cleanup; [|exact H2].
Qed.

Lemma renders_holds base rs previous p :
  holds env wrapper base previous p →
  holds env wrapper base (renders env wrapper rs previous p).1.1
    (renders env wrapper rs previous p).1.2.
Proof.
  revert previous p. induction rs as [|r rs IH]; intros previous p H; [done|].
  cbn [renders]. pose proof (render_holds base r previous p H) as H1.
  destruct (render env wrapper r previous p) as [[h p1] [e|]]; cbn [fst snd] in *; [done|].
  by apply IH.
Qed.

Lemma lifetime_holds base rs p :
  holds env wrapper base None p →
  sound env (getInstance env (lifetime env wrapper rs p))
  ∧ sameRegistrations base (getInstance env (lifetime env wrapper rs p)).
Proof.
  intros H. unfold lifetime. pose proof (renders_holds base rs None p H) as H1.
  destruct (renders env wrapper rs None p) as [[h p1] e]. cbn [fst snd] in *.
  unfold unmount. destruct h as [h|]; [|exact H1].
  by apply (runCleanup_holds base (Some h) h p1 eq_refl) in H1.
Qed.

(** Property X15.
    A component that uses the hook leaves nothing behind: after any calls
    to the module, whatever the renders of the component are (hotkeys,
    callbacks and options that change, effects that fail), once it is
    unmounted the manager holds the registrations it held before the
    component was mounted, in the same scopes and with listeners on the same
    scopes. *)
Theorem hook_leaves_nothing_behind cs rs :
  let p := calls env cs initialProcess in
  let s := getInstance env p in
  let s' := getInstance env (lifetime env wrapper rs p) in
  registrations (this s') = registrations (this s)
  ∧ (∀ target, registrationSet s' target = registrationSet s target)
  ∧ (∀ target, listenersAttached s' target ↔ listenersAttached s target).
Proof.
  intros p s s'. pose proof (reachable_sound env cs) as Hs. fold p s in Hs.
  destruct (lifetime_holds s rs p (holds_initial p Hs)) as [Hs' [Hmap Hset]].
  fold s' in Hs', Hmap, Hset. split; [done|]. split; [done|].
  intros target. by rewrite !sound_listeners, Hset.
Qed.

(** *** While the component is mounted *)

Lemma render_pending r previous p :
  env_documentDefined env = true →
  pendingIffEnabled previous →
  (render env wrapper r previous p).2 = None →
  dependencies (render env wrapper r previous p).1.1 = Some (dependenciesOf r)
  ∧ (is_Some (cleanup (render env wrapper r previous p).1.1)
     ↔ default true (use_enabled (r_options r)) = true).
Proof.
  intros Hdoc Hprev. unfold render. case_bool_decide as Hdeps.
  - intros _. cbn [fst snd dependencies cleanup] in *. split; [done|].
    destruct previous as [h0|]; [|done]. cbn in *.
    by apply (Hprev h0 (dependenciesOf r)).
  - unfold effect.
    destruct (default true (use_enabled (r_options r))) eqn:Henabled; cbn [negb].
    2: { intros _. cbn. split; [done|]. split; [by intros [? [=]]|done]. }
    match goal with
    | |- context [resolveTarget env ?t] =>
        destruct (resolveTarget_browser t Hdoc) as [target ->]
    end.
    match goal with
    | |- context [register env ?a ?b ?c ?d] => destruct (register env a b c d) as [s1 [id|e]]
    end; cbn; [|done].
    intros _. split; [done|]. split; [done|by eexists].
Qed.

Lemma renders_pending rs r previous p :
  env_documentDefined env = true →
  pendingIffEnabled previous →
  (renders env wrapper (rs ++ [r]) previous p).2 = None →
  ∃ h, (renders env wrapper (rs ++ [r]) previous p).1.1 = Some h
       ∧ (is_Some (cleanup h) ↔ default true (use_enabled (r_options r)) = true).
Proof.
  intros Hdoc. revert previous p. induction rs as [|r0 rs IH]; intros previous p Hprev.
  - cbn [app renders]. pose proof (render_pending r previous p Hdoc Hprev) as H.
    destruct (render env wrapper r previous p) as [[h p1] [e|]]; cbn [fst snd] in *; [done|].
    intros _. exists h. split; [done|]. by apply H.
  - cbn [app renders]. pose proof (render_pending r0 previous p Hdoc Hprev) as H.
    destruct (render env wrapper r0 previous p) as [[h p1] [e|]]; cbn [fst snd] in *; [done|].
    apply IH. intros h0 d [= <-] Hd. destruct (H eq_refl) as [Hd' Hc].
    rewrite Hd' in Hd. simplify_eq. by rewrite Hc.
Qed.

Lemma holds_pending base h p id :
  holds env wrapper base h p → h ≫= cleanup = Some id →
  ∃ registration,
    registrations (this (getInstance env p)) = <[id := registration]> (registrations (this base))
    ∧ registrations (this base) !! id = None
    ∧ reg_callback registration = wrapper
    ∧ enabled (reg_options registration) = true
    ∧ conflictBehavior (reg_options registration) = None
    ∧ (reg_target registration = Document ∨ reg_target registration = Window
       ∨ ∃ n, reg_target registration = Node n ∧ isHTMLElement (env_page env) n = true).
Proof.
  intros [_ H] Hc. rewrite Hc in H.
  destruct H as (s & text & options & target & Hs & [Hmap _] & Hret & Htarget & ->).
  pose proof Hs as (Hwf & (Hlt & Hinj & _ & _) & _).
  pose proof (register_uses_generateId env _ _ _ _ _ Hret) as (-> & _).
  destruct (register_view env _ _ _ _ _ Hlt Hinj Hret)
    as (r & Hr & _ & _ & Hcb & Hopt & Ht & _).
  exists r. rewrite getInstance_toProcess, Hr, Hmap.
  split; [done|]. split; [rewrite <- Hmap; by apply fresh_not_registered|].
  split; [done|]. rewrite Hopt, (Ht target eq_refl). done.
Qed.

(** Property X16.
    In a browser, after any calls to the module and any renders of a
    component none of whose effects failed, the component holds one
    registration if the hook is enabled in its last render, and none if it
    is not: renders never pile up registrations. *)
Theorem mounted_hook_holds_one_registration cs rs r :
  let p := calls env cs initialProcess in
  env_documentDefined env = true →
  (renders env wrapper (rs ++ [r]) None p).2 = None →
  getRegistrationCount (getInstance env (renders env wrapper (rs ++ [r]) None p).1.2)
  = (getRegistrationCount (getInstance env p)
     + if default true (use_enabled (r_options r)) then 1 else 0)%nat.
Proof.
  intros p Hdoc Hok. pose proof (reachable_sound env cs) as Hs. fold p in Hs.
  pose proof (renders_holds (getInstance env p) (rs ++ [r]) None p (holds_initial p Hs)) as H.
  assert (pendingIffEnabled None) as Hnone by (by intros ? ? [=]).
  destruct (renders_pending rs r None p Hdoc Hnone Hok) as (h & Hh & Hc).
  rewrite Hh in H. unfold getRegistrationCount.
  destruct (default true (use_enabled (r_options r))).
  - destruct (proj2 Hc eq_refl) as [id Hid].
    destruct (holds_pending _ _ _ id H Hid) as (registration & -> & Hfresh & _).
    rewrite map_size_insert_None by done. lia.
  - destruct (cleanup h) as [id|] eqn:Hid.
    + by pose proof (proj1 Hc (mk_is_Some _ _ eq_refl)).
    + destruct H as [_ H]. cbn in H. rewrite Hid in H. destruct H as [-> _]. lia.
Qed.

(** Property X17.
    After any calls to the module, the registration that a mounted
    component holds through the hook was made with the closure over the
    callback ref, it is enabled, it has no conflict policy, and its scope is
    the document, the window or an HTML element. *)
Theorem hook_registration_is_routable cs rs h id :
  let p := calls env cs initialProcess in
  (renders env wrapper rs None p).1.1 = Some h →
  cleanup h = Some id →
  ∃ registration,
    registrations (this (getInstance env (renders env wrapper rs None p).1.2)) !! id
    = Some registration
    ∧ reg_callback registration = wrapper
    ∧ enabled (reg_options registration) = true
    ∧ conflictBehavior (reg_options registration) = None
    ∧ (reg_target registration = Document ∨ reg_target registration = Window
       ∨ ∃ n, reg_target registration = Node n ∧ isHTMLElement (env_page env) n = true).
Proof.
  intros p Hh Hid. pose proof (reachable_sound env cs) as Hs. fold p in Hs.
  pose proof (renders_holds (getInstance env p) rs None p (holds_initial p Hs)) as H.
  rewrite Hh in H.
  destruct (holds_pending _ _ _ id H Hid) as (registration & Hmap & _ & Hrest).
  exists registration. rewrite Hmap, lookup_insert_eq. done.
Qed.

End Hook.

Import Fixtures.

(** A component that saves on [Mod+S], mounted on a fresh page. *)
Lemma mounted_hook_holds_one_registration_witness :
  env_documentDefined (browser inert) = true
  ∧ (renders (browser inert) 9 ([] ++ [saveRender]) None
       (calls (browser inert) [] initialProcess)).2 = None
  ∧ getRegistrationCount
      (getInstance (browser inert)
         (renders (browser inert) 9 ([] ++ [saveRender]) None
            (calls (browser inert) [] initialProcess)).1.2)
    = (getRegistrationCount
         (getInstance (browser inert) (calls (browser inert) [] initialProcess))
       + if default true (use_enabled (r_options saveRender)) then 1 else 0)%nat.
Proof.
  assert (H : (renders (browser inert) 9 ([] ++ [saveRender]) None
                 (calls (browser inert) [] initialProcess)).2 = None)
    by (vm_compute; reflexivity).
  split; [reflexivity|]. split; [exact H|].
  exact (mounted_hook_holds_one_registration (browser inert) 9 [] [] saveRender eq_refl H).
Defined.

(** The registration of that component. *)
Lemma hook_registration_is_routable_witness :
  (renders (browser inert) 9 [saveRender] None
     (calls (browser inert) [] initialProcess)).1.1 = Some savingHook
  ∧ cleanup savingHook = Some "hotkey_1"
  ∧ ∃ registration,
      registrations
        (this (getInstance (browser inert)
                 (renders (browser inert) 9 [saveRender] None
                    (calls (browser inert) [] initialProcess)).1.2)) !! "hotkey_1"
      = Some registration
      ∧ reg_callback registration = 9
      ∧ enabled (reg_options registration) = true
      ∧ conflictBehavior (reg_options registration) = None
      ∧ (reg_target registration = Document ∨ reg_target registration = Window
         ∨ ∃ n, reg_target registration = Node n
                ∧ isHTMLElement (env_page (browser inert)) n = true).
Proof.
  assert (H : (renders (browser inert) 9 [saveRender] None
                 (calls (browser inert) [] initialProcess)).1.1 = Some savingHook)
    by (vm_compute; reflexivity).
  split; [exact H|]. split; [reflexivity|].
  exact (hook_registration_is_routable (browser inert) 9 [] [saveRender] savingHook
           "hotkey_1" H eq_refl).
Defined.

End HookFacts.

Module RecorderFacts.
Import Dom Recorder RecorderInvariant.

Lemma recordings_app e1 e2 : recordings (e1 ++ e2) = recordings e1 ++ recordings e2.
Proof. unfold recordings. by rewrite omap_app. Qed.

Section Methods.
Variable env : Env.

(** *** The recorder stays consistent *)

Local Ltac conjuncts :=
  split; [|split; [|split; [|split]]]; cbn;
  first [ done
        | split; [done|by intros [? [=]]]
        | split; by eauto
        | by intros ? [= <-]
        | idtac ].

Lemma create_consistent o : consistent env (create env o).
Proof. unfold consistent, create. destruct (env_documentDefined env); conjuncts. Qed.

Lemma start_consistent s : consistent env s → consistent env (start env s).1.
Proof.
  intros H. pose proof H as (Hrec & Hnone & Hl & Hvalid & Hp). unfold start.
  destruct (keydownHandler (this s)) as [h|] eqn:Hh; [done|].
  unfold consistent, addListener. cbn. destruct (env_documentDefined env); cbn in *.
  - rewrite Hl. conjuncts.
  - conjuncts.
Qed.

Lemma stop_consistent s : consistent env s → consistent env (stop env s).1.
Proof.
  intros (Hrec & Hnone & Hl & Hvalid & Hp). unfold consistent, stop, removeListener.
  destruct (keydownHandler (this s)) as [h|] eqn:Hh; cbn.
  - destruct (env_documentDefined env); cbn in *.
    + rewrite Hl. cbn. rewrite decide_False by naive_solver. conjuncts.
    + conjuncts.
  - rewrite Hh. conjuncts.
Qed.

(** After [stop] the recorder is idle and has no listener on the document. *)
Lemma stop_idle s :
  consistent env s →
  store (this (stop env s).1) = idle
  ∧ keydownHandler (this (stop env s).1) = None
  ∧ listeners (page (stop env s).1) = [].
Proof.
  intros (Hrec & Hnone & Hl & Hvalid & Hp). unfold stop, removeListener.
  destruct (keydownHandler (this s)) as [h|] eqn:Hh; cbn.
  - destruct (env_documentDefined env); cbn in *; rewrite Hl; cbn; [|done].
    by rewrite decide_False by naive_solver.
  - rewrite Hh. by destruct (env_documentDefined env).
Qed.

Lemma destroy_consistent s : consistent env s → consistent env (destroy env s).1.
Proof.
  intros H. pose proof (stop_idle s H) as (_ & Hh & _).
  apply stop_consistent in H. unfold destroy.
  destruct (stop env s) as [s1 effects]. cbn in *.
  destruct H as (Hrec & Hnone & Hl & Hvalid & Hp). unfold consistent. cbn.
  rewrite Hh in *. conjuncts.
Qed.

Lemma setOptions_consistent o s : consistent env s → consistent env (setOptions o s).
Proof. done. Qed.

Lemma runActions_consistent fuel actions s :
  consistent env s → consistent env (runActions env fuel actions s).1.1.
Proof.
  revert actions s. induction fuel as [|fuel IH]; intros actions s H;
    destruct actions as [|action rest]; try done.
  cbn [runActions].
  assert (∀ s1 effects outcome,
    consistent env s1 →
    consistent env
      (match outcome with
       | Returned =>
           let '(s2, more, outcome) := runActions env fuel rest s1 in
           (s2, effects ++ more, outcome)
       | OutOfFuel => (s1, effects, OutOfFuel)
       end).1.1) as Hrest.
  { intros s1 effects [] H1; [|done]. specialize (IH rest s1 H1).
    by destruct (runActions env fuel rest s1) as [[s2 more] o]. }
  destruct action.
  - pose proof (start_consistent s H) as H1. destruct (start env s) as [s1 e].
    exact (Hrest s1 e Returned H1).
  - pose proof (stop_consistent s H) as H1. destruct (stop env s) as [s1 e].
    exact (Hrest s1 e Returned H1).
  - pose proof (stop_consistent s H) as H1. destruct (stop env s) as [s1 e]. cbn in H1.
    cbn [fst snd]. destruct (onCancel (options (this s1))) as [callback|];
      [|exact (Hrest s1 e Returned H1)].
    specialize (IH (env_callbackBody env callback None) s1 H1).
    destruct (runActions env fuel _ s1) as [[s2 more] o].
    exact (Hrest s2 (e ++ Called callback None :: more) o IH).
  - pose proof (destroy_consistent s H) as H1. destruct (destroy env s) as [s1 e].
    exact (Hrest s1 e Returned H1).
  - exact (Hrest _ [] Returned (setOptions_consistent o s H)).
Qed.

Lemma invoke_consistent fuel callback argument s :
  consistent env s → consistent env (invoke env fuel callback argument s).1.1.
Proof.
  intros H. unfold invoke.
  pose proof (runActions_consistent fuel (env_callbackBody env callback argument) s H).
  by destruct (runActions env fuel _ s) as [[s1 e] o].
Qed.

Lemma cancel_consistent fuel s :
  consistent env s → consistent env (cancel env fuel s).1.1.
Proof.
  intros H. unfold cancel. pose proof (stop_consistent s H) as H1.
  destruct (stop env s) as [s1 e]. cbn in H1.
  destruct (onCancel (options (this s1))) as [callback|]; [|done].
  pose proof (invoke_consistent fuel callback None s1 H1).
  by destruct (invoke env fuel callback None s1) as [[s2 more] o].
Qed.

Lemma handler_consistent fuel event s :
  consistent env s → consistent env (handler env fuel event s).1.1.
Proof.
  intros H. unfold handler.
  destruct (keydownHandler (this s)) as [h|] eqn:Hh; [|done].
  case_bool_decide.
  { pose proof (cancel_consistent fuel s H).
    by destruct (cancel env fuel s) as [[s1 e] o]. }
  destruct (_ && _).
  { assert (∀ s1 effects, consistent env s1 →
      consistent env
        (let '(s2, recorded, outcome) :=
           invoke env fuel (onRecord (options (this s1))) (Some "") s1 in
         match outcome with
         | OutOfFuel => (s2, effects ++ recorded, OutOfFuel)
         | Returned =>
             let '(s3, stopped) := stop env s2 in
             (s3, effects ++ recorded ++ stopped, Returned)
         end).1.1) as Htail.
    { intros s1 effects H1.
      pose proof (invoke_consistent fuel (onRecord (options (this s1))) (Some "") s1 H1)
        as H2.
      destruct (invoke env fuel _ (Some "") s1) as [[s2 e2] [|]]; cbn in H2; [|done].
      pose proof (stop_consistent s2 H2). by destruct (stop env s2) as [s3 e3]. }
    destruct (onClear (options (this s))) as [callback|].
    - pose proof (invoke_consistent fuel callback None s H) as H1.
      destruct (invoke env fuel callback None s) as [[s1 e1] [|]]; cbn in H1; [|done].
      specialize (Htail s1 ([DefaultPrevented; PropagationStopped] ++ e1) H1).
      destruct (invoke env fuel _ (Some "") s1) as [[s2 e2] [|]]; [|done].
      by destruct (stop env s2) as [s3 e3].
    - specialize (Htail s [DefaultPrevented; PropagationStopped] H).
      destruct (invoke env fuel _ (Some "") s) as [[s2 e2] [|]]; [|done].
      by destruct (stop env s2) as [s3 e3]. }
  destruct (env_isModifierKey env event); [done|].
  destruct (env_hasNonModifierKey env _ (platform (this s))) eqn:Hvalid'; [|done].
  unfold setState. cbn -[invoke removeListener].
  match goal with
  | |- context [invoke env fuel ?f ?a ?s1] =>
      assert (consistent env s1) as H1;
      [|pose proof (invoke_consistent fuel f a s1 H1);
        by destruct (invoke env fuel f a s1) as [[s2 e2] o]]
  end.
  destruct H as (Hrec & Hnone & Hl & Hvalid & Hp). unfold consistent, removeListener.
  destruct (env_documentDefined env); cbn in *.
  - rewrite Hl, Hh. cbn. rewrite decide_False by naive_solver. conjuncts.
  - conjuncts.
Qed.

Lemma dispatch_consistent fuel event handlers s :
  consistent env s → consistent env (dispatch env fuel event handlers s).1.1.
Proof.
  revert s. induction handlers as [|h rest IH]; intros s H; [done|]. cbn [dispatch].
  case_bool_decide; [|by apply IH].
  pose proof (handler_consistent fuel event s H) as H1.
  destruct (handler env fuel event s) as [[s1 e] [|]]; [|done].
  specialize (IH s1 H1). by destruct (dispatch env fuel event rest s1) as [[s2 more] o].
Qed.

Lemma call_consistent c s : consistent env s → consistent env (call env c s).1.1.
Proof.
  intros H. destruct c; cbn [call].
  - pose proof (start_consistent s H). by destruct (start env s).
  - pose proof (stop_consistent s H). by destruct (stop env s).
  - by apply cancel_consistent.
  - pose proof (destroy_consistent s H). by destruct (destroy env s).
  - done.
  - by apply dispatch_consistent.
Qed.

Lemma calls_consistent cs s : consistent env s → consistent env (calls env cs s).
Proof.
  revert s. induction cs as [|c cs IH]; intros s H; [done|]. cbn. by apply IH, call_consistent.
Qed.

(** Property X19.
    After any calls to a recorder (with callbacks that call the recorder
    in turn), it has at most one listener on the document; it has one
    exactly if there is a document and it is recording; while it records the
    store shows no recorded hotkey; and a hotkey that the store shows has
    passed [hasNonModifierKey]. *)
Theorem recorder_listens_exactly_while_recording o cs :
  let s := calls env cs (create env o) in
  (length (listeners (page s)) ≤ 1)%nat
  ∧ (listeners (page s) ≠ []
     ↔ env_documentDefined env = true ∧ isRecording (store (this s)) = true)
  ∧ (isRecording (store (this s)) = true → recordedHotkey (store (this s)) = None)
  ∧ (∀ hotkey, recordedHotkey (store (this s)) = Some hotkey →
       env_hasNonModifierKey env hotkey (env_detectPlatform env) = true).
Proof.
  intros s. destruct (calls_consistent cs _ (create_consistent o))
    as (Hrec & Hnone & Hl & Hvalid & Hp).
  fold s in Hrec, Hnone, Hl, Hvalid, Hp. rewrite Hl, <- Hp.
  split; [|split; [|done]].
  - destruct (env_documentDefined env), (keydownHandler (this s)); cbn; lia.
  - rewrite Hrec. destruct (env_documentDefined env), (keydownHandler (this s)); cbn.
    all: split; [try done|intros [? H]; try done; by destruct H].
    all: split; [done|by eexists].
Qed.

(** Property X20.
    After any calls to a recorder, [stop] and [destroy] leave it idle, with
    no listener on the document. *)
Theorem stop_and_destroy_end_the_recording o cs :
  let s := calls env cs (create env o) in
  (store (this (call env CallStop s).1.1) = idle
   ∧ listeners (page (call env CallStop s).1.1) = [])
  ∧ (store (this (call env CallDestroy s).1.1) = idle
     ∧ listeners (page (call env CallDestroy s).1.1) = []).
Proof.
  intros s. pose proof (calls_consistent cs _ (create_consistent o)) as H. fold s in H.
  pose proof (stop_idle s H) as (Hs & _ & Hl). cbn [call]. unfold destroy.
  destruct (stop env s) as [s1 e]. cbn in *. done.
Qed.

(** *** What a key press does *)

Lemma start_recordings s : recordings (start env s).2 = [].
Proof. unfold start. by destruct (keydownHandler (this s)). Qed.

Lemma stop_recordings s : recordings (stop env s).2 = [].
Proof. done. Qed.

Lemma destroy_recordings s : recordings (destroy env s).2 = [].
Proof. done. Qed.

Lemma runActions_recordings fuel actions s :
  recordings (runActions env fuel actions s).1.2 = [].
Proof.
  revert actions s. induction fuel as [|fuel IH]; intros actions s;
    destruct actions as [|action rest]; try done.
  cbn [runActions].
  assert (∀ s1 effects outcome,
    recordings effects = [] →
    recordings
      (match outcome with
       | Returned =>
           let '(s2, more, outcome) := runActions env fuel rest s1 in
           (s2, effects ++ more, outcome)
       | OutOfFuel => (s1, effects, OutOfFuel)
       end).1.2 = []) as Hrest.
  { intros s1 effects [|] H1; [|done]. specialize (IH rest s1).
    destruct (runActions env fuel rest s1) as [[s2 more] o]. cbn [fst snd] in *.
    by rewrite recordings_app, H1, IH. }
  destruct action.
  - pose proof (start_recordings s) as H1. destruct (start env s) as [s1 e].
    exact (Hrest s1 e Returned H1).
  - pose proof (stop_recordings s) as H1. destruct (stop env s) as [s1 e].
    exact (Hrest s1 e Returned H1).
  - pose proof (stop_recordings s) as H1. destruct (stop env s) as [s1 e].
    cbn [fst snd] in *. destruct (onCancel (options (this s1))) as [callback|];
      [|exact (Hrest s1 e Returned H1)].
    specialize (IH (env_callbackBody env callback None) s1).
    destruct (runActions env fuel _ s1) as [[s2 more] o]. cbn [fst snd] in IH.
    apply (Hrest s2 (e ++ Called callback None :: more) o).
    rewrite recordings_app, H1. cbn. exact IH.
  - pose proof (destroy_recordings s) as H1. destruct (destroy env s) as [s1 e].
    exact (Hrest s1 e Returned H1).
  - exact (Hrest _ [] Returned eq_refl).
Qed.

Lemma invoke_recordings fuel callback argument s :
  recordings (invoke env fuel callback argument s).1.2 = option_list argument.
Proof.
  unfold invoke.
  pose proof (runActions_recordings fuel (env_callbackBody env callback argument) s) as H.
  destruct (runActions env fuel _ s) as [[s1 e] o]. cbn [fst snd] in *.
  change (Called callback argument :: e) with ([Called callback argument] ++ e).
  rewrite recordings_app, H, app_nil_r. by destruct argument.
Qed.

Lemma cancel_recordings fuel s : recordings (cancel env fuel s).1.2 = [].
Proof.
  unfold cancel. pose proof (stop_recordings s) as H1. destruct (stop env s) as [s1 e].
  cbn [fst snd] in *. destruct (onCancel (options (this s1))) as [callback|]; [|done].
  pose proof (invoke_recordings fuel callback None s1) as H.
  destruct (invoke env fuel callback None s1) as [[s2 more] o]. cbn [fst snd] in *.
  by rewrite recordings_app, H1, H.
Qed.

Lemma handler_recordings fuel event s :
  platform (this s) = env_detectPlatform env →
  (length (recordings (handler env fuel event s).1.2) ≤ 1)%nat
  ∧ (∀ hotkey, hotkey ∈ recordings (handler env fuel event s).1.2 →
       hotkey = "" ∨ env_hasNonModifierKey env hotkey (env_detectPlatform env) = true)
  ∧ (ev_key event = "Escape" → recordings (handler env fuel event s).1.2 = []).
Proof.
  intros Hp.
  assert (∀ effects : list Effect, recordings effects = [] →
    (length (recordings effects) ≤ 1)%nat
    ∧ (∀ hotkey, hotkey ∈ recordings effects →
         hotkey = "" ∨ env_hasNonModifierKey env hotkey (env_detectPlatform env) = true)
    ∧ (ev_key event = "Escape" → recordings effects = [])) as Hnone.
  { intros effects ->. cbn. split; [lia|split; [by intros ? ?%elem_of_nil|done]]. }
  unfold handler.
  destruct (keydownHandler (this s)) as [h|] eqn:Hh; [|by apply Hnone].
  case_bool_decide as Hescape.
  { pose proof (cancel_recordings fuel s) as H.
    destruct (cancel env fuel s) as [[s1 e] o]. cbn [fst snd] in *. apply Hnone.
    by rewrite recordings_app, H. }
  destruct (_ && _).
  { assert (∀ effects : list Effect, recordings effects = [""] →
      (length (recordings effects) ≤ 1)%nat
      ∧ (∀ hotkey, hotkey ∈ recordings effects →
           hotkey = "" ∨ env_hasNonModifierKey env hotkey (env_detectPlatform env) = true)
      ∧ (ev_key event = "Escape" → recordings effects = [])) as Hempty.
    { intros effects ->. cbn. split; [lia|split; [|done]].
      intros ? ->%list_elem_of_singleton. by left. }
    assert (∀ s1 effects, recordings effects = [] →
      recordings
        (let '(s2, recorded, outcome) :=
           invoke env fuel (onRecord (options (this s1))) (Some "") s1 in
         match outcome with
         | OutOfFuel => (s2, effects ++ recorded, OutOfFuel)
         | Returned =>
             let '(s3, stopped) := stop env s2 in
             (s3, effects ++ recorded ++ stopped, Returned)
         end).1.2 = [""]) as Htail.
    { intros s1 effects H1.
      pose proof (invoke_recordings fuel (onRecord (options (this s1))) (Some "") s1) as H2.
      destruct (invoke env fuel _ (Some "") s1) as [[s2 e2] [|]]; cbn [fst snd] in *.
      - pose proof (stop_recordings s2) as H3. destruct (stop env s2) as [s3 e3].
        cbn [fst snd] in *. by rewrite !recordings_app, H1, H2, H3.
      - by rewrite !recordings_app, H1, H2. }
    destruct (onClear (options (this s))) as [callback|].
    - pose proof (invoke_recordings fuel callback None s) as H1.
      destruct (invoke env fuel callback None s) as [[s1 e1] [|]]; cbn [fst snd] in H1.
      + specialize (Htail s1 ([DefaultPrevented; PropagationStopped] ++ e1)).
        rewrite recordings_app, H1 in Htail. specialize (Htail eq_refl).
        destruct (invoke env fuel _ (Some "") s1) as [[s2 e2] [|]].
        * destruct (stop env s2) as [s3 e3]. cbn [fst snd] in *. apply Hempty.
          by rewrite <- !app_assoc in Htail.
        * cbn [fst snd] in *. apply Hempty. by rewrite <- !app_assoc in Htail.
      + cbn [fst snd]. apply Hnone. by rewrite recordings_app, H1.
    - specialize (Htail s [DefaultPrevented; PropagationStopped] eq_refl).
      destruct (invoke env fuel _ (Some "") s) as [[s2 e2] [|]].
      + destruct (stop env s2) as [s3 e3]. cbn [fst snd] in *. by apply Hempty.
      + cbn [fst snd] in *. by apply Hempty. }
  destruct (env_isModifierKey env event); [by apply Hnone|].
  destruct (env_hasNonModifierKey env _ (platform (this s))) eqn:Hvalid; [|by apply Hnone].
  unfold setState. cbn -[invoke removeListener recordings].
  match goal with
  | |- context [invoke env fuel ?f ?a ?s1] =>
      pose proof (invoke_recordings fuel f a s1) as H;
      destruct (invoke env fuel f a s1) as [[s2 e2] o]
  end.
  cbn [fst snd] in *.
  match goal with
  | |- context [recordings (?x :: ?y :: ?z :: ?e)] =>
      change (x :: y :: z :: e) with ([x; y; z] ++ e)
  end.
  rewrite recordings_app, H. cbn. split; [lia|split; [|done]].
  intros ? ->%list_elem_of_singleton. right. by rewrite <- Hp.
Qed.

(** Property X21.
    After any calls to a recorder, one key press makes it call [onRecord]
    at most once, whatever the callbacks do; the hotkey it reports is the
    empty one or has passed [hasNonModifierKey]; and the Escape key reports
    none. *)
Theorem key_press_records_at_most_once o cs fuel event :
  let s := calls env cs (create env o) in
  let recorded := recordings (keydown env fuel event s).1.2 in
  (length recorded ≤ 1)%nat
  ∧ (∀ hotkey, hotkey ∈ recorded →
       hotkey = "" ∨ env_hasNonModifierKey env hotkey (env_detectPlatform env) = true)
  ∧ (ev_key event = "Escape" → recorded = []).
Proof.
  intros s recorded. destruct (calls_consistent cs _ (create_consistent o))
    as (_ & _ & Hl & _ & Hp).
  fold s in Hl, Hp. unfold recorded, keydown. rewrite Hl.
  destruct (env_documentDefined env), (keydownHandler (this s)) as [h|];
    unfold option_list in *; cbn [option_rect dispatch] in *.
  2-4: cbn; split; [lia|split; [by intros ? ?%elem_of_nil|done]].
  case_bool_decide; [|cbn; split; [lia|split; [by intros ? ?%elem_of_nil|done]]].
  pose proof (handler_recordings fuel event s Hp) as Hh.
  destruct (handler env fuel event s) as [[s1 e] [|]]; cbn [fst snd] in *; [|done].
  by rewrite app_nil_r.
Qed.

(** Property X22.
    After any calls to a recorder: while it is idle a key press does
    nothing at all, and while it records (in a browser) every key press has
    its default action prevented and its propagation stopped before
    anything else happens. *)
Theorem recorder_intercepts_keys_exactly_while_recording o cs fuel event :
  let s := calls env cs (create env o) in
  (isRecording (store (this s)) = false → keydown env fuel event s = (s, [], Returned))
  ∧ (env_documentDefined env = true → isRecording (store (this s)) = true →
     ∃ rest, (keydown env fuel event s).1.2 = DefaultPrevented :: PropagationStopped :: rest).
Proof.
  intros s. destruct (calls_consistent cs _ (create_consistent o))
    as (Hrec & _ & Hl & _ & _).
  fold s in Hrec, Hl. unfold keydown. rewrite Hl. split.
  - intros Hidle. destruct (keydownHandler (this s)) as [h|].
    + pose proof (proj2 Hrec (mk_is_Some _ _ eq_refl)). congruence.
    + by destruct (env_documentDefined env).
  - intros Hdoc [h Hh]%Hrec. rewrite Hdoc, Hh in *. unfold option_list in *.
    cbn [option_rect dispatch] in *.
    rewrite Hl. rewrite bool_decide_eq_true_2 by by left.
    unfold handler. rewrite Hh.
    repeat (case_match; simplify_eq; cbn [fst snd app]); eauto.
Qed.

(** Property X23.
    After any calls to a recorder in a browser, a key press that is valid
    (not Escape, Backspace or Delete, no bare modifier, and a hotkey that
    passes [hasNonModifierKey]) ends the recording in this order: the
    default action is prevented and the propagation stopped, the listener is
    removed and the handler dropped, the store is set to show the hotkey in
    its portable form, and only then [onRecord] is called with it. *)
Theorem valid_key_press_ends_the_recording o cs fuel event :
  let s := calls env cs (create env o) in
  let final :=
    env_convertToModFormat env (env_keyboardEventToHotkey env event)
      (env_detectPlatform env) in
  let shown := {| isRecording := false; recordedHotkey := Some final |} in
  env_documentDefined env = true →
  isRecording (store (this s)) = true →
  ev_key event ≠ "Escape" → ev_key event ≠ "Backspace" → ev_key event ≠ "Delete" →
  env_isModifierKey env event = false →
  env_hasNonModifierKey env final (env_detectPlatform env) = true →
  ∃ s1 rest,
    listeners (page s1) = [] ∧ keydownHandler (this s1) = None
    ∧ store (this s1) = shown ∧ options (this s1) = options (this s)
    ∧ runActions env fuel
        (env_callbackBody env (onRecord (options (this s))) (Some final)) s1
      = ((keydown env fuel event s).1.1, rest, (keydown env fuel event s).2)
    ∧ (keydown env fuel event s).1.2
      = [DefaultPrevented; PropagationStopped; StateSet shown;
         Called (onRecord (options (this s))) (Some final)] ++ rest.
Proof.
  intros s final shown Hdoc Hrecording Hescape Hbackspace Hdelete Hmodifier Hvalid.
  destruct (calls_consistent cs _ (create_consistent o)) as (Hrec & _ & Hl & _ & Hp).
  fold s in Hrec, Hl, Hp. clearbody s. rewrite Hdoc in Hl.
  destruct (proj1 Hrec Hrecording) as [h Hh]. rewrite Hh in Hl.
  unfold option_list in Hl. cbn [option_rect] in Hl.
  unfold keydown. rewrite Hl. cbn [dispatch]. rewrite Hl.
  rewrite bool_decide_eq_true_2 by by left.
  unfold handler. rewrite Hh, Hp. fold final.
  rewrite (bool_decide_eq_false_2 _ Hescape), (bool_decide_eq_false_2 _ Hbackspace),
    (bool_decide_eq_false_2 _ Hdelete), Hmodifier, Hvalid.
  cbn [orb andb]. unfold setState, removeListener, invoke. rewrite Hdoc.
  cbn -[runActions].
  match goal with
  | |- context [runActions env fuel ?body ?s1] =>
      exists s1; destruct (runActions env fuel body s1) as [[s2 rest] outcome] eqn:Hrun
  end.
  exists rest. cbn [fst snd]. split.
  { cbn. rewrite Hl. cbn. by rewrite decide_False by naive_solver. }
  split; [done|]. split; [done|]. split; [done|].
  destruct outcome; cbn [fst snd]; by rewrite ?app_nil_r.
Qed.

End Methods.

(** The key k, pressed while a recorder records on a fresh page. *)
Lemma valid_key_press_ends_the_recording_witness :
  env_documentDefined Fixtures.recorderBrowser = true
  ∧ isRecording (store (this (calls Fixtures.recorderBrowser [CallStart]
                                (create Fixtures.recorderBrowser Fixtures.onlyRecord)))) = true
  ∧ ev_key Fixtures.plainK ≠ "Escape" ∧ ev_key Fixtures.plainK ≠ "Backspace" ∧ ev_key Fixtures.plainK ≠ "Delete"
  ∧ env_isModifierKey Fixtures.recorderBrowser Fixtures.plainK = false
  ∧ env_hasNonModifierKey Fixtures.recorderBrowser "k" Hotkey.mac = true
  ∧ ∃ s1 rest,
      listeners (page s1) = [] ∧ keydownHandler (this s1) = None
      ∧ store (this s1) = {| isRecording := false; recordedHotkey := Some "k" |}
      ∧ options (this s1) = Fixtures.onlyRecord
      ∧ runActions Fixtures.recorderBrowser 4 [] s1
        = ((keydown Fixtures.recorderBrowser 4 Fixtures.plainK
              (calls Fixtures.recorderBrowser [CallStart] (create Fixtures.recorderBrowser Fixtures.onlyRecord))).1.1,
           rest,
           (keydown Fixtures.recorderBrowser 4 Fixtures.plainK
              (calls Fixtures.recorderBrowser [CallStart] (create Fixtures.recorderBrowser Fixtures.onlyRecord))).2)
      ∧ (keydown Fixtures.recorderBrowser 4 Fixtures.plainK
           (calls Fixtures.recorderBrowser [CallStart] (create Fixtures.recorderBrowser Fixtures.onlyRecord))).1.2
        = [DefaultPrevented; PropagationStopped;
           StateSet {| isRecording := false; recordedHotkey := Some "k" |};
           Called 1 (Some "k")] ++ rest.
Proof.
  assert (H1 : ev_key Fixtures.plainK ≠ "Escape") by (intros [=]).
  assert (H2 : ev_key Fixtures.plainK ≠ "Backspace") by (intros [=]).
  assert (H3 : ev_key Fixtures.plainK ≠ "Delete") by (intros [=]).
  split; [reflexivity|]. split; [reflexivity|]. split; [exact H1|]. split; [exact H2|].
  split; [exact H3|]. split; [reflexivity|]. split; [reflexivity|].
  exact (valid_key_press_ends_the_recording Fixtures.recorderBrowser Fixtures.onlyRecord [CallStart] 4 Fixtures.plainK
           eq_refl eq_refl H1 H2 H3 eq_refl eq_refl).
Defined.

End RecorderFacts.
